(** * go-futures: the Future state machine, its goroutines and its callbacks

    The development embeds [futures.Future] (NewFuture, Then, Start, Result,
    State, GetNext, OnSuccess, OnFailure) as an interleaving small-step
    machine.  A configuration holds the futures allocated so far, the
    goroutines that exist, and the history of the calls made to
    caller-supplied functions.  Every statement of the source is one step of
    the goroutine that executes it, so that every interleaving the Go
    scheduler can produce is a path of [step].

    Conventions.
    - A caller-supplied computation [func() (T, error)] is represented by the
      pair it returns; a caller-supplied callback by a label, its invocations
      being recorded in the history with the argument it received.
    - Reads of [f.started] outside the mutex (in Then and in Result) are
      atomic reads of the current value.
    - [error] is [option string]: [None] is Go's nil. *)

From stdpp Require Import base option list strings relations.
From Stdlib Require Import ZArith Lia.

Set Default Proof Using "Type".

(** ** Values *)

Abbreviation fid := nat (only parsing).   (* a *Future: index in the store *)
Abbreviation tid := nat (only parsing).   (* a goroutine: index in the pool *)
Abbreviation cbid := nat (only parsing).  (* a callback supplied by a caller *)

(** Go's [any], as far as the package and its tests use it. *)
Inductive any :=
| Nil
| Str (s : string)
| Int (z : Z).

Definition error := option string.

(** state.go: [Pending State = iota], [Running], [Fulfilled], [Rejected]. *)
Inductive State := Pending | Running | Fulfilled | Rejected.

Definition State_iota (s : State) : nat :=
  match s with Pending => 0 | Running => 1 | Fulfilled => 2 | Rejected => 3 end.

Definition State_eqb (a b : State) : bool := Nat.eqb (State_iota a) (State_iota b).

Definition terminal (s : State) : bool :=
  match s with Fulfilled | Rejected => true | _ => false end.

(** The [task] field: either a computation given to NewFuture by a caller, or
    the closure that Then builds around [f] and [nextTask]. *)
Inductive Task :=
| Prim (res : any) (e : error)
| ThenTask (parent : fid) (nextTask : any → any * error).

(** ** The Future struct

    [mutex] is [None] when unlocked and [Some i] when goroutine [i] locked it;
    [done] is [true] once the channel is closed; [zero] is the zero value of
    the type parameter [T], which Go stores in [result] at allocation. *)
Record Future := mkFuture {
  task : Task;
  mutex : option tid;
  result : any;
  err : error;
  state : State;
  done : bool;
  next : option fid;
  onSuccess : list cbid;
  onFailure : list cbid;
  started : bool;
  zero : any
}.

Definition set_mutex (m : option tid) (fu : Future) : Future :=
  mkFuture (task fu) m (result fu) (err fu) (state fu) (done fu) (next fu)
           (onSuccess fu) (onFailure fu) (started fu) (zero fu).
Definition set_result (v : any) (fu : Future) : Future :=
  mkFuture (task fu) (mutex fu) v (err fu) (state fu) (done fu) (next fu)
           (onSuccess fu) (onFailure fu) (started fu) (zero fu).
Definition set_err (e : error) (fu : Future) : Future :=
  mkFuture (task fu) (mutex fu) (result fu) e (state fu) (done fu) (next fu)
           (onSuccess fu) (onFailure fu) (started fu) (zero fu).
Definition set_state (s : State) (fu : Future) : Future :=
  mkFuture (task fu) (mutex fu) (result fu) (err fu) s (done fu) (next fu)
           (onSuccess fu) (onFailure fu) (started fu) (zero fu).
Definition set_done (b : bool) (fu : Future) : Future :=
  mkFuture (task fu) (mutex fu) (result fu) (err fu) (state fu) b (next fu)
           (onSuccess fu) (onFailure fu) (started fu) (zero fu).
Definition set_next (n : option fid) (fu : Future) : Future :=
  mkFuture (task fu) (mutex fu) (result fu) (err fu) (state fu) (done fu) n
           (onSuccess fu) (onFailure fu) (started fu) (zero fu).
Definition set_onSuccess (l : list cbid) (fu : Future) : Future :=
  mkFuture (task fu) (mutex fu) (result fu) (err fu) (state fu) (done fu) (next fu)
           l (onFailure fu) (started fu) (zero fu).
Definition set_onFailure (l : list cbid) (fu : Future) : Future :=
  mkFuture (task fu) (mutex fu) (result fu) (err fu) (state fu) (done fu) (next fu)
           (onSuccess fu) l (started fu) (zero fu).
Definition set_started (b : bool) (fu : Future) : Future :=
  mkFuture (task fu) (mutex fu) (result fu) (err fu) (state fu) (done fu) (next fu)
           (onSuccess fu) (onFailure fu) b (zero fu).

(** NewFuture (lines 22-31). *)
Definition NewFuture (z : any) (t : Task) : Future :=
  mkFuture t None z None Pending false None [] [] false z.

(** ** History *)

Inductive cbarg := ArgVal (v : any) | ArgErr (e : error).

Inductive Event :=
| EvTask (f : fid)                                  (* line 71: f.task() is called *)
| EvNext (f : fid) (v : any)                        (* line 48: nextTask(result), in f's task *)
| EvFire (i : tid) (f : fid) (cb : cbid) (a : cbarg)  (* lines 89, 101: cb called on completion *)
| EvLate (i : tid) (f : fid) (cb : cbid) (a : cbarg)  (* part_001 lines 10, 24: cb called at registration *)
| EvClose (f : fid).                                (* line 106: close(f.done) *)

(** ** Goroutines

    A goroutine is at one program point of one method.  [rkont] says who
    called Result, [skont] who called Start. *)
Inductive rkont :=
| RTop                                              (* a caller of the package *)
| RTask (c : fid) (nextTask : any → any * error).   (* line 42, in the task of [c] *)

Inductive skont :=
| STop                                              (* a caller, or [go f.Start()] *)
| SResult (r : rkont).                              (* line 115, in Result *)

(** What a call returned to its caller, with the future it was made on. *)
Inductive retval :=
| RetUnit
| RetResult (f : fid) (v : any) (e : error)
| RetState (f : fid) (s : State)
| RetThen (f : fid) (n : fid)
| RetNext (f : fid) (n : option fid).

Inductive Thread :=
(* Start, lines 60-108 *)
| StartLock (f : fid) (k : skont)          (* 61 *)
| StartCheck (f : fid) (k : skont)         (* 62 *)
| StartBail (f : fid) (k : skont)          (* 63-64 *)
| StartSetStarted (f : fid) (k : skont)    (* 66 *)
| StartSetRunning (f : fid) (k : skont)    (* 67 *)
| StartUnlock (f : fid) (k : skont)        (* 68 *)
| StartGo (f : fid) (k : skont)            (* 70 *)
(* the goroutine of lines 70-107 *)
| GTask (f : fid)                          (* 71 *)
| GLock (f : fid) (res : any) (e : error)  (* 73 *)
| GCheck (f : fid) (res : any) (e : error) (* 74 *)
| GAbort (f : fid)                         (* 75-76 *)
| GErrCheck (f : fid) (res : any) (e : error) (* 79 *)
| GSetErr (f : fid) (e : error)            (* 80 *)
| GSetRejected (f : fid) (e : error)       (* 81 *)
| GSnapF (f : fid) (e : error)             (* 83-84 *)
| GUnlockF (f : fid) (e : error) (cbs : list cbid)  (* 85 *)
| GFireF (f : fid) (e : error) (cbs : list cbid)    (* 88-90 *)
| GSetRes (f : fid) (res : any)            (* 92 *)
| GSetFulfilled (f : fid) (res : any)      (* 93 *)
| GSnapS (f : fid) (res : any)             (* 95-96 *)
| GUnlockS (f : fid) (res : any) (cbs : list cbid)  (* 97 *)
| GFireS (f : fid) (res : any) (cbs : list cbid)    (* 100-102 *)
| GClose (f : fid)                         (* 106 *)
(* the closure of Then, lines 40-49, running as the task of [c] *)
| ThenErr (c : fid) (nextTask : any → any * error) (res : any) (e : error)  (* 43-45 *)
| ThenCall (c : fid) (nextTask : any → any * error) (res : any)             (* 48 *)
(* Result, lines 112-123 *)
| ResCheck (f : fid) (r : rkont)           (* 114 *)
| ResWait (f : fid) (r : rkont)            (* 118 *)
| ResLock (f : fid) (r : rkont)            (* 120 *)
| ResRead (f : fid) (r : rkont)            (* 122 *)
| ResUnlock (f : fid) (r : rkont) (res : any) (e : error)  (* deferred, 121 *)
(* Then, lines 34-57 *)
| ThenStarted (f : fid) (nextTask : any → any * error)   (* 36-38 *)
| ThenNew (f : fid) (nextTask : any → any * error)       (* 40 *)
| ThenLock (f n : fid)                     (* 52 *)
| ThenSetNext (f n : fid)                  (* 53 *)
| ThenUnlock (f n : fid)                   (* 54, 56 *)
(* State, lines 126-130 *)
| StLock (f : fid)
| StRead (f : fid)
| StUnlock (f : fid) (s : State)
(* GetNext, lines 138-142 *)
| NxLock (f : fid)
| NxRead (f : fid)
| NxUnlock (f : fid) (n : option fid)
(* OnSuccess, part_001 lines 4-15 *)
| OSLock (f : fid) (cb : cbid)             (* 5 *)
| OSCheck (f : fid) (cb : cbid)            (* 9 *)
| OSCall (f : fid) (cb : cbid)             (* 10-11 *)
| OSAppend (f : fid) (cb : cbid)           (* 14 *)
| OSUnlock (f : fid)                       (* deferred, 6 *)
(* OnFailure, part_001 lines 18-29 *)
| OFLock (f : fid) (cb : cbid)             (* 19 *)
| OFCheck (f : fid) (cb : cbid)            (* 23 *)
| OFCall (f : fid) (cb : cbid)             (* 24-25 *)
| OFAppend (f : fid) (cb : cbid)           (* 28 *)
| OFUnlock (f : fid)                       (* deferred, 20 *)
(* the method returned *)
| Done (r : retval)
(* the runtime stopped the program: close of a closed channel, or unlock of an
   unlocked mutex *)
| Crashed.

Record Config := mkConfig {
  futs : list Future;
  pool : list Thread;
  trace : list Event
}.

(** What one statement does: the goroutine's next program point, the store,
    the goroutines it spawns and the calls it makes. *)
Record Effect := Eff {
  e_thread : Thread;
  e_futs : list Future;
  e_spawn : list Thread;
  e_events : list Event
}.

Definition goto (t : Thread) (F : list Future) : option Effect :=
  Some (Eff t F [] []).

Definition resume_start (f : fid) (k : skont) : Thread :=
  match k with
  | STop => Done RetUnit
  | SResult r => ResWait f r
  end.

Definition resume_result (f : fid) (r : rkont) (v : any) (e : error) : Thread :=
  match r with
  | RTop => Done (RetResult f v e)
  | RTask c nextTask => ThenErr c nextTask v e
  end.

(** [f.mutex.Lock()]: blocks (no step) while the mutex is locked. *)
Definition lock (i : tid) (f : fid) (F : list Future) (t : Thread) : option Effect :=
  fu ← F !! f;
  match mutex fu with
  | None => goto t (<[f := set_mutex (Some i) fu]> F)
  | Some _ => None
  end.

(** [f.mutex.Unlock()]: a fatal error if the mutex is not locked. *)
Definition unlock (f : fid) (F : list Future) (t : Thread) : option Effect :=
  fu ← F !! f;
  match mutex fu with
  | Some _ => goto t (<[f := set_mutex None fu]> F)
  | None => goto Crashed F
  end.

Definition exec (i : tid) (F : list Future) (t : Thread) : option Effect :=
  match t with
  (* Start *)
  | StartLock f k => lock i f F (StartCheck f k)
  | StartCheck f k =>
      fu ← F !! f;
      if negb (State_eqb (state fu) Pending) || started fu
      then goto (StartBail f k) F
      else goto (StartSetStarted f k) F
  | StartBail f k => unlock f F (resume_start f k)
  | StartSetStarted f k =>
      fu ← F !! f; goto (StartSetRunning f k) (<[f := set_started true fu]> F)
  | StartSetRunning f k =>
      fu ← F !! f; goto (StartUnlock f k) (<[f := set_state Running fu]> F)
  | StartUnlock f k => unlock f F (StartGo f k)
  | StartGo f k => Some (Eff (resume_start f k) F [GTask f] [])
  (* the spawned goroutine *)
  | GTask f =>
      fu ← F !! f;
      match task fu with
      | Prim v e => Some (Eff (GLock f v e) F [] [EvTask f])
      | ThenTask p nextTask => Some (Eff (ResCheck p (RTask f nextTask)) F [] [EvTask f])
      end
  | GLock f v e => lock i f F (GCheck f v e)
  | GCheck f v e =>
      fu ← F !! f;
      if negb (State_eqb (state fu) Running)
      then goto (GAbort f) F
      else goto (GErrCheck f v e) F
  | GAbort f => unlock f F (Done RetUnit)
  | GErrCheck f v e =>
      match e with
      | Some _ => goto (GSetErr f e) F
      | None => goto (GSetRes f v) F
      end
  | GSetErr f e =>
      fu ← F !! f; goto (GSetRejected f e) (<[f := set_err e fu]> F)
  | GSetRejected f e =>
      fu ← F !! f; goto (GSnapF f e) (<[f := set_state Rejected fu]> F)
  | GSnapF f e =>
      fu ← F !! f; goto (GUnlockF f e (onFailure fu)) F
  | GUnlockF f e cbs => unlock f F (GFireF f e cbs)
  | GFireF f e cbs =>
      match cbs with
      | cb :: rest => Some (Eff (GFireF f e rest) F [] [EvFire i f cb (ArgErr e)])
      | [] => goto (GClose f) F
      end
  | GSetRes f v =>
      fu ← F !! f; goto (GSetFulfilled f v) (<[f := set_result v fu]> F)
  | GSetFulfilled f v =>
      fu ← F !! f; goto (GSnapS f v) (<[f := set_state Fulfilled fu]> F)
  | GSnapS f v =>
      fu ← F !! f; goto (GUnlockS f v (onSuccess fu)) F
  | GUnlockS f v cbs => unlock f F (GFireS f v cbs)
  | GFireS f v cbs =>
      match cbs with
      | cb :: rest => Some (Eff (GFireS f v rest) F [] [EvFire i f cb (ArgVal v)])
      | [] => goto (GClose f) F
      end
  | GClose f =>
      fu ← F !! f;
      if done fu then goto Crashed F
      else Some (Eff (Done RetUnit) (<[f := set_done true fu]> F) [] [EvClose f])
  (* the closure of Then *)
  | ThenErr c nextTask v e =>
      match e with
      | Some _ => goto (GLock c Nil e) F
      | None => goto (ThenCall c nextTask v) F
      end
  | ThenCall c nextTask v =>
      Some (Eff (GLock c (nextTask v).1 (nextTask v).2) F [] [EvNext c v])
  (* Result *)
  | ResCheck f r =>
      fu ← F !! f;
      if negb (started fu) then goto (StartLock f (SResult r)) F
      else goto (ResWait f r) F
  | ResWait f r =>
      fu ← F !! f;
      if done fu then goto (ResLock f r) F else None
  | ResLock f r => lock i f F (ResRead f r)
  | ResRead f r =>
      fu ← F !! f; goto (ResUnlock f r (result fu) (err fu)) F
  | ResUnlock f r v e => unlock f F (resume_result f r v e)
  (* Then *)
  | ThenStarted f nextTask =>
      fu ← F !! f;
      if negb (started fu)
      then Some (Eff (ThenNew f nextTask) F [StartLock f STop] [])
      else goto (ThenNew f nextTask) F
  | ThenNew f nextTask =>
      goto (ThenLock f (length F)) (F ++ [NewFuture Nil (ThenTask f nextTask)])
  | ThenLock f n => lock i f F (ThenSetNext f n)
  | ThenSetNext f n =>
      fu ← F !! f; goto (ThenUnlock f n) (<[f := set_next (Some n) fu]> F)
  | ThenUnlock f n => unlock f F (Done (RetThen f n))
  (* State *)
  | StLock f => lock i f F (StRead f)
  | StRead f => fu ← F !! f; goto (StUnlock f (state fu)) F
  | StUnlock f s => unlock f F (Done (RetState f s))
  (* GetNext *)
  | NxLock f => lock i f F (NxRead f)
  | NxRead f => fu ← F !! f; goto (NxUnlock f (next fu)) F
  | NxUnlock f n => unlock f F (Done (RetNext f n))
  (* OnSuccess *)
  | OSLock f cb => lock i f F (OSCheck f cb)
  | OSCheck f cb =>
      fu ← F !! f;
      if State_eqb (state fu) Fulfilled then goto (OSCall f cb) F
      else goto (OSAppend f cb) F
  | OSCall f cb =>
      fu ← F !! f;
      Some (Eff (OSUnlock f) F [] [EvLate i f cb (ArgVal (result fu))])
  | OSAppend f cb =>
      fu ← F !! f;
      goto (OSUnlock f) (<[f := set_onSuccess (onSuccess fu ++ [cb]) fu]> F)
  | OSUnlock f => unlock f F (Done RetUnit)
  (* OnFailure *)
  | OFLock f cb => lock i f F (OFCheck f cb)
  | OFCheck f cb =>
      fu ← F !! f;
      if State_eqb (state fu) Rejected then goto (OFCall f cb) F
      else goto (OFAppend f cb) F
  | OFCall f cb =>
      fu ← F !! f;
      Some (Eff (OFUnlock f) F [] [EvLate i f cb (ArgErr (err fu))])
  | OFAppend f cb =>
      fu ← F !! f;
      goto (OFUnlock f) (<[f := set_onFailure (onFailure fu ++ [cb]) fu]> F)
  | OFUnlock f => unlock f F (Done RetUnit)
  | Done _ => None
  | Crashed => None
  end.

(** Goroutine [i] executes its next statement. *)
Definition thread_step (c : Config) (i : tid) : option Config :=
  t ← pool c !! i;
  ef ← exec i (futs c) t;
  Some (mkConfig (e_futs ef)
                 (<[i := e_thread ef]> (pool c) ++ e_spawn ef)
                 (trace c ++ e_events ef)).

(** What callers of the package do: allocate a future around a computation of
    their own, or call a method of a future that exists, in a goroutine of
    their choice. *)
Inductive Call :=
| CallNew (z : any) (res : any) (e : error)
| CallStart (f : fid)
| CallResult (f : fid)
| CallThen (f : fid) (nextTask : any → any * error)
| CallState (f : fid)
| CallGetNext (f : fid)
| CallOnSuccess (f : fid) (cb : cbid)
| CallOnFailure (f : fid) (cb : cbid).

Definition entry (k : Call) : option (fid * Thread) :=
  match k with
  | CallNew _ _ _ => None
  | CallStart f => Some (f, StartLock f STop)
  | CallResult f => Some (f, ResCheck f RTop)
  | CallThen f nextTask => Some (f, ThenStarted f nextTask)
  | CallState f => Some (f, StLock f)
  | CallGetNext f => Some (f, NxLock f)
  | CallOnSuccess f cb => Some (f, OSLock f cb)
  | CallOnFailure f cb => Some (f, OFLock f cb)
  end.

Definition call (c : Config) (k : Call) : option Config :=
  match k with
  | CallNew z v e =>
      Some (mkConfig (futs c ++ [NewFuture z (Prim v e)]) (pool c) (trace c))
  | _ =>
      '(f, t) ← entry k;
      if decide (f < length (futs c))
      then Some (mkConfig (futs c) (pool c ++ [t]) (trace c))
      else None
  end.

Inductive step (c c' : Config) : Prop :=
| step_thread i : thread_step c i = Some c' → step c c'
| step_call k : call c k = Some c' → step c c'.

Definition init : Config := mkConfig [] [] [].

Definition reachable (c : Config) : Prop := rtc step init c.

(** ** Running the machine

    A schedule is a list of actions: a call by a caller, one statement of one
    goroutine, or letting the goroutines run (lowest index first) until none
    can move or the fuel is spent. *)
Inductive Action :=
| Do (k : Call)
| Run (i : tid)
| Settle (fuel : nat).

Fixpoint first_step (c : Config) (i n : nat) : option Config :=
  match n with
  | 0 => None
  | S n' =>
      match thread_step c i with
      | Some c' => Some c'
      | None => first_step c (S i) n'
      end
  end.

Fixpoint settle (fuel : nat) (c : Config) : Config :=
  match fuel with
  | 0 => c
  | S fuel' =>
      match first_step c 0 (length (pool c)) with
      | Some c' => settle fuel' c'
      | None => c
      end
  end.

Definition act (c : Config) (a : Action) : option Config :=
  match a with
  | Do k => call c k
  | Run i => thread_step c i
  | Settle fuel => Some (settle fuel c)
  end.

Fixpoint play (c : Config) (s : list Action) : option Config :=
  match s with
  | [] => Some c
  | a :: s' => c' ← act c a; play c' s'
  end.

(** ** What a goroutine holds

    [locks t] are the futures whose mutex the goroutine holds at [t];
    [tokens t] are the futures whose single run it is carrying out, with the
    phase that run is in. *)
Inductive phase := PhPending | PhRunning | PhErrSet | PhResSet | PhTerminal.

Definition rk_tokens (r : rkont) : list (fid * phase) :=
  match r with
  | RTop => []
  | RTask c _ => [(c, PhRunning)]
  end.

Definition sk_tokens (k : skont) : list (fid * phase) :=
  match k with
  | STop => []
  | SResult r => rk_tokens r
  end.

Definition tokens (t : Thread) : list (fid * phase) :=
  match t with
  | StartLock _ k | StartCheck _ k | StartBail _ k | StartSetStarted _ k => sk_tokens k
  | StartSetRunning f k => (f, PhPending) :: sk_tokens k
  | StartUnlock f k | StartGo f k => (f, PhRunning) :: sk_tokens k
  | GTask f | GLock f _ _ | GCheck f _ _ | GAbort f | GErrCheck f _ _
  | GSetErr f _ | GSetRes f _ => [(f, PhRunning)]
  | GSetRejected f _ => [(f, PhErrSet)]
  | GSetFulfilled f _ => [(f, PhResSet)]
  | GSnapF f _ | GUnlockF f _ _ | GFireF f _ _
  | GSnapS f _ | GUnlockS f _ _ | GFireS f _ _ | GClose f => [(f, PhTerminal)]
  | ThenErr c _ _ _ | ThenCall c _ _ => [(c, PhRunning)]
  | ResCheck _ r | ResWait _ r | ResLock _ r | ResRead _ r | ResUnlock _ r _ _ => rk_tokens r
  | _ => []
  end.

Definition locks (t : Thread) : list fid :=
  match t with
  | StartCheck f _ | StartBail f _ | StartSetStarted f _ | StartSetRunning f _
  | StartUnlock f _
  | GCheck f _ _ | GAbort f | GErrCheck f _ _ | GSetErr f _ | GSetRejected f _
  | GSnapF f _ | GUnlockF f _ _ | GSetRes f _ | GSetFulfilled f _ | GSnapS f _
  | GUnlockS f _ _
  | ResRead f _ | ResUnlock f _ _ _
  | ThenSetNext f _ | ThenUnlock f _
  | StRead f | StUnlock f _ | NxRead f | NxUnlock f _
  | OSCheck f _ | OSCall f _ | OSAppend f _ | OSUnlock f
  | OFCheck f _ | OFCall f _ | OFAppend f _ | OFUnlock f => [f]
  | _ => []
  end.

(** The future a goroutine is working on, when it must exist without the
    goroutine holding its mutex or its run. *)
Definition target (t : Thread) : list fid :=
  match t with
  | StartLock f _ | ResCheck f _ | ResWait f _ | ResLock f _
  | ThenStarted f _ | ThenNew f _ | StLock f | NxLock f | OSLock f _ | OFLock f _ => [f]
  | ThenLock f n | ThenSetNext f n | ThenUnlock f n => [f; n]
  | _ => []
  end.

Definition sat (F : list Future) (f : fid) (P : Future → Prop) : Prop :=
  ∃ fu, F !! f = Some fu ∧ P fu.

Definition in_phase (ph : phase) (fu : Future) : Prop :=
  started fu = true ∧ done fu = false ∧
  match ph with
  | PhPending => state fu = Pending
  | PhRunning => state fu = Running ∧ err fu = None ∧ result fu = zero fu
  | PhErrSet => state fu = Running ∧ err fu ≠ None ∧ result fu = zero fu
  | PhResSet => state fu = Running ∧ err fu = None
  | PhTerminal => terminal (state fu) = true
  end.

(** A frame of the closure of Then belongs to the future whose task that
    closure is. *)
Definition rk_link (F : list Future) (p : fid) (r : rkont) : Prop :=
  match r with
  | RTop => True
  | RTask c nextTask => sat F c (λ fu, task fu = ThenTask p nextTask)
  end.

Definition sk_link (F : list Future) (p : fid) (k : skont) : Prop :=
  match k with
  | STop => True
  | SResult r => rk_link F p r
  end.

Definition link (F : list Future) (t : Thread) : Prop :=
  match t with
  | StartLock f k | StartCheck f k | StartBail f k | StartSetStarted f k
  | StartSetRunning f k | StartUnlock f k | StartGo f k => sk_link F f k
  | ResCheck f r | ResWait f r | ResLock f r | ResRead f r | ResUnlock f r _ _ =>
      rk_link F f r
  | ThenErr c nextTask _ _ | ThenCall c nextTask _ =>
      sat F c (λ fu, ∃ p, task fu = ThenTask p nextTask)
  | _ => True
  end.

(** What the program point itself tells about the store. *)
Definition knows (F : list Future) (t : Thread) : Prop :=
  match t with
  | StartBail f _ | ResWait f _ => sat F f (λ fu, started fu = true)
  | StartSetStarted f _ => sat F f (λ fu, started fu = false)
  | ResLock f _ | ResRead f _ | ResUnlock f _ _ _ => sat F f (λ fu, done fu = true)
  | GSetErr f e => e ≠ None
  | GSetRejected f e | GSnapF f e | GUnlockF f e _ | GFireF f e _ =>
      e ≠ None ∧ sat F f (λ fu, err fu = e)
  | OSCall f _ => sat F f (λ fu, state fu = Fulfilled)
  | OSAppend f _ => sat F f (λ fu, state fu ≠ Fulfilled)
  | OFCall f _ => sat F f (λ fu, state fu = Rejected)
  | OFAppend f _ => sat F f (λ fu, state fu ≠ Rejected)
  | GAbort _ | Crashed => False
  | _ => True
  end.

Definition thread_ok (F : list Future) (i : tid) (t : Thread) : Prop :=
  Forall (λ f, sat F f (λ fu, mutex fu = Some i)) (locks t) ∧
  Forall (λ x, sat F x.1 (in_phase x.2)) (tokens t) ∧
  NoDup (tokens t).*1 ∧
  Forall (λ f, f < length F) (target t) ∧
  link F t ∧
  knows F t.

Definition fut_ok (f : fid) (fu : Future) : Prop :=
  (∀ p nextTask, task fu = ThenTask p nextTask → p < f ∧ zero fu = Nil) ∧
  (started fu = false → state fu = Pending) ∧
  (done fu = true → started fu = true ∧ terminal (state fu) = true) ∧
  (state fu = Pending → err fu = None ∧ result fu = zero fu) ∧
  (state fu = Fulfilled → err fu = None) ∧
  (state fu = Rejected → err fu ≠ None ∧ result fu = zero fu).

Record Inv (c : Config) : Prop := mkInv {
  inv_thread : ∀ i t, pool c !! i = Some t → thread_ok (futs c) i t;
  inv_unique : ∀ i j ti tj f,
    pool c !! i = Some ti → pool c !! j = Some tj →
    f ∈ (tokens ti).*1 → f ∈ (tokens tj).*1 → i = j;
  inv_fut : ∀ f fu, futs c !! f = Some fu → fut_ok f fu;
  inv_owner : ∀ f fu i, futs c !! f = Some fu → mutex fu = Some i →
    ∃ t, pool c !! i = Some t ∧ f ∈ locks t;
  inv_holder : ∀ f fu, futs c !! f = Some fu →
    started fu = true → done fu = false →
    ∃ i t, pool c !! i = Some t ∧ f ∈ (tokens t).*1
}.

(** How one statement of goroutine [i], at [t], may change a future. *)
Record fut_rel (i : tid) (t : Thread) (g : fid) (fu fu' : Future) : Prop := mkRel {
  rel_task : task fu' = task fu;
  rel_zero : zero fu' = zero fu;
  rel_mutex : mutex fu' = mutex fu ∨
              (mutex fu = None ∧ mutex fu' = Some i) ∨
              (mutex fu = Some i ∧ mutex fu' = None);
  rel_started : started fu' = started fu ∨
                (mutex fu = Some i ∧ started fu = false ∧ started fu' = true);
  rel_core : (state fu' = state fu ∧ result fu' = result fu ∧ err fu' = err fu) ∨
             (mutex fu = Some i ∧ g ∈ (tokens t).*1);
  rel_done : done fu' = done fu ∨
             (g ∈ (tokens t).*1 ∧ done fu = false ∧ done fu' = true);
  rel_onSuccess : onSuccess fu' = onSuccess fu ∨
                  (mutex fu = Some i ∧ state fu ≠ Fulfilled);
  rel_onFailure : onFailure fu' = onFailure fu ∨
                  (mutex fu = Some i ∧ state fu ≠ Rejected);
  rel_term : terminal (state fu) = true →
             state fu' = state fu ∧ result fu' = result fu ∧ err fu' = err fu
}.

Lemma fut_rel_refl i t g fu : fut_rel i t g fu fu.
Proof. split; auto. Qed.

Lemma sat_insert_eq F f fu fu' (P : Future → Prop) :
  F !! f = Some fu → P fu' → sat (<[f := fu']> F) f P.
Proof.
  intros Hf HP. exists fu'. split; [|done].
  apply list_lookup_insert_eq. by eapply lookup_lt_Some.
Qed.

Lemma sat_mono F f (P Q : Future → Prop) :
  sat F f P → (∀ fu, P fu → Q fu) → sat F f Q.
Proof. intros (fu & ? & ?) HPQ. exists fu. eauto. Qed.

Lemma sat_lt F f P : sat F f P → f < length F.
Proof. intros (fu & ? & _). by eapply lookup_lt_Some. Qed.

Lemma State_eqb_eq a b : State_eqb a b = true ↔ a = b.
Proof. destruct a, b; cbn; split; (done || discriminate). Qed.

Lemma State_eqb_neq a b : State_eqb a b = false ↔ a ≠ b.
Proof. destruct a, b; cbn; split; (done || discriminate). Qed.

(** ** One statement, seen from the store *)

Ltac exec_cases H :=
  cbn in H; unfold lock, unlock, goto in H; cbn in H;
  repeat match type of H with
  | context [?F !! ?f] =>
      let fu := fresh "fu" in let E := fresh "Hfu" in
      destruct (F !! f) as [fu|] eqn:E; cbn in H; [|discriminate H]
  | context [match mutex ?fu with _ => _ end] =>
      let E := fresh "Hmx" in destruct (mutex fu) eqn:E; cbn in H
  | context [if ?b then _ else _] =>
      let E := fresh "Hif" in destruct b eqn:E; cbn in H
  | context [match ?e with Some _ => _ | None => _ end] =>
      let E := fresh "Hopt" in destruct e eqn:E; cbn in H
  | context [match ?l with [] => _ | _ :: _ => _ end] =>
      let E := fresh "Hl" in destruct l eqn:E; cbn in H
  | context [match task ?fu with _ => _ end] =>
      let E := fresh "Htask" in destruct (task fu) eqn:E; cbn in H
  end;
  try discriminate H;
  try (injection H as <-).

Lemma exec_length i F t ef :
  exec i F t = Some ef → length F ≤ length (e_futs ef).
Proof.
  intros H. destruct t; exec_cases H; cbn;
    rewrite ?length_insert, ?length_app; lia.
Qed.

Lemma frame_insert i t (F : list Future) f fu0 fu0' :
  F !! f = Some fu0 → fut_rel i t f fu0 fu0' →
  ∀ g fu, F !! g = Some fu →
    ∃ fu', <[f := fu0']> F !! g = Some fu' ∧ fut_rel i t g fu fu'.
Proof.
  intros Hf Hrel g fu Hg. destruct (decide (g = f)) as [->|Hne].
  - simplify_eq. exists fu0'. split; [|done].
    apply list_lookup_insert_eq. by eapply lookup_lt_Some.
  - exists fu. split; [|apply fut_rel_refl].
    by rewrite list_lookup_insert_ne.
Qed.

Lemma frame_app i t (F : list Future) fu0 :
  ∀ g fu, F !! g = Some fu →
    ∃ fu', (F ++ [fu0]) !! g = Some fu' ∧ fut_rel i t g fu fu'.
Proof.
  intros g fu Hg. exists fu. split; [|apply fut_rel_refl].
  by apply lookup_app_l_Some.
Qed.

Lemma frame_id i t (F : list Future) :
  ∀ g fu, F !! g = Some fu →
    ∃ fu', F !! g = Some fu' ∧ fut_rel i t g fu fu'.
Proof. intros g fu Hg. exists fu. split; [done|apply fut_rel_refl]. Qed.

Ltac ok_inv H :=
  destruct H as (?Hlk & ?Htk & ?Hnd & ?Htg & ?Hln & ?Hkn);
  cbn [locks tokens target knows link rk_link sk_link fmap list_fmap fst snd
       rk_tokens sk_tokens] in *;
  repeat match goal with
  | H : Forall _ (_ :: _) |- _ => apply Forall_cons in H; destruct H as [? H]
  | H : Forall _ [] |- _ => clear H
  | H : _ ∧ _ |- _ => destruct H
  | H : sat _ _ _ |- _ => destruct H as (? & ? & ?)
  | H : in_phase _ _ |- _ => unfold in_phase in H; cbn [fst snd] in H
  end; cbn [fst snd] in *; simplify_eq.

Lemma exec_frame i F t ef :
  thread_ok F i t → exec i F t = Some ef →
  ∀ g fu, F !! g = Some fu →
    ∃ fu', e_futs ef !! g = Some fu' ∧ fut_rel i t g fu fu'.
Proof.
  intros Hok H. destruct t; exec_cases H; cbn [e_futs];
    try apply frame_id; try apply frame_app;
    (eapply frame_insert; [eassumption|]);
    ok_inv Hok; split; cbn; auto.
  all: try (right; split; [done|set_solver]).
  all: try (right; set_solver).
  all: intros Hterm; exfalso;
    match goal with H : state _ = _ |- _ => by rewrite H in Hterm end.
Qed.

Definition frame (i : tid) (t : Thread) (F F' : list Future) : Prop :=
  ∀ g fu, F !! g = Some fu →
    ∃ fu', F' !! g = Some fu' ∧ fut_rel i t g fu fu'.

Lemma frame_length i t F F' : frame i t F F' → length F ≤ length F'.
Proof.
  intros Hfr. destruct (decide (length F ≤ length F')) as [|Hn]; [done|].
  destruct (lookup_lt_is_Some_2 F (length F')) as [fu Hfu]; [lia|].
  destruct (Hfr _ _ Hfu) as (fu' & Hfu' & _).
  apply lookup_lt_Some in Hfu'. lia.
Qed.

Lemma thread_ok_stable i ti j tj F F' :
  j ≠ i → frame i ti F F' →
  thread_ok F i ti → thread_ok F j tj →
  (∀ f, f ∈ (tokens ti).*1 → f ∉ (tokens tj).*1) →
  thread_ok F' j tj.
Proof.
  intros Hji Hfr Hi Hj Hdisj.
  assert (Hlen := frame_length _ _ _ _ Hfr).
  assert (Hdone : ∀ g fu, F !! g = Some fu → g ∈ (tokens ti).*1 → done fu = false).
  { intros g fu Hg Hin. destruct Hi as (_ & Htk & _).
    apply list_elem_of_fmap in Hin as ([g' ph] & -> & Hin).
    rewrite Forall_forall in Htk. destruct (Htk _ Hin) as (fu' & Hfu' & Hph).
    cbn in *. simplify_eq. by destruct Hph as (_ & ? & _). }
  assert (Hlock : ∀ f, f ∈ locks tj → sat F' f (λ fu, mutex fu = Some j) ∧
     ∃ fu fu', F !! f = Some fu ∧ F' !! f = Some fu' ∧ started fu' = started fu ∧
       state fu' = state fu ∧ result fu' = result fu ∧ err fu' = err fu ∧
       onSuccess fu' = onSuccess fu ∧ onFailure fu' = onFailure fu).
  { intros f Hin. destruct Hj as (Hlk & _). rewrite Forall_forall in Hlk.
    destruct (Hlk _ Hin) as (fu & Hfu & Hm).
    destruct (Hfr _ _ Hfu) as (fu' & Hfu' & [Rtask Rzero Rmutex Rstarted Rcore Rdone RonS RonF Rterm]).
    assert (mutex fu' = Some j) by (destruct Rmutex as [|[[]|[]]]; congruence).
    split; [by exists fu'|]. exists fu, fu'.
    repeat split; try done.
    all: try (destruct Rcore as [(?&?&?)|[]]; congruence).
    - destruct Rstarted as [|(?&?&?)]; congruence.
    - destruct RonS as [|(?&?)]; congruence.
    - destruct RonF as [|(?&?)]; congruence. }
  assert (Htok : ∀ f, f ∈ (tokens tj).*1 →
     ∃ fu fu', F !! f = Some fu ∧ F' !! f = Some fu' ∧ started fu' = started fu ∧
       state fu' = state fu ∧ result fu' = result fu ∧ err fu' = err fu ∧
       done fu' = done fu ∧ zero fu' = zero fu ∧ task fu' = task fu).
  { intros f Hin. destruct Hj as (_ & Htk & _).
    pose proof Hin as Hin'.
    apply list_elem_of_fmap in Hin' as ([g' ph] & -> & Hin').
    rewrite Forall_forall in Htk. destruct (Htk _ Hin') as (fu & Hfu & Hst & Hph). cbn in *.
    destruct (Hfr _ _ Hfu) as (fu' & Hfu' & [Rtask Rzero Rmutex Rstarted Rcore Rdone RonS RonF Rterm]).
    exists fu, fu'. repeat split; try done.
    all: try (destruct Rcore as [(?&?&?)|[? Hc]]; [congruence|by apply Hdisj in Hc]).
    - destruct Rstarted as [|(?&?&?)]; congruence.
    - destruct Rdone as [|(Hc&_)]; [congruence|by apply Hdisj in Hc]. }
  assert (Hstarted : ∀ f, sat F f (λ fu, started fu = true) → sat F' f (λ fu, started fu = true)).
  { intros f (fu & Hfu & Hs). destruct (Hfr _ _ Hfu) as (fu' & Hfu' & [Rtask Rzero Rmutex Rstarted Rcore Rdone RonS RonF Rterm]).
    exists fu'. split; [done|]. destruct Rstarted as [|(?&?&?)]; congruence. }
  assert (Hdn : ∀ f, sat F f (λ fu, done fu = true) → sat F' f (λ fu, done fu = true)).
  { intros f (fu & Hfu & Hs). destruct (Hfr _ _ Hfu) as (fu' & Hfu' & [Rtask Rzero Rmutex Rstarted Rcore Rdone RonS RonF Rterm]).
    exists fu'. split; [done|]. destruct Rdone as [|(?&?&?)]; congruence. }
  destruct Hj as (Hlk & Htk & Hnd & Htg & Hln & Hkn).
  split; [|split; [|split; [done|split; [|split]]]].
  - rewrite Forall_forall. intros f Hin. by apply Hlock.
  - rewrite Forall_forall. intros [f ph] Hin. cbn.
    rewrite Forall_forall in Htk. destruct (Htk _ Hin) as (fu & Hfu & Hph). cbn in *.
    destruct (Htok f) as (fu1 & fu' & ? & ? & ? & ? & ? & ? & ? & ? & ?).
    { apply list_elem_of_fmap. by exists (f, ph). }
    simplify_eq. exists fu'. split; [done|].
    unfold in_phase in *. destruct ph; intuition congruence.
  - eapply Forall_impl; [done|]. cbn. intros. lia.
  - destruct tj;
      repeat match goal with
      | k : skont |- _ => destruct k
      | r : rkont |- _ => destruct r
      end; cbn [link sk_link rk_link] in *; try done.
    all: destruct Hln as (fu & Hfu & Hs);
      destruct (Hfr _ _ Hfu) as (fu' & Hfu' & [Rtask _ _ _ _ _ _ _ _]);
      exists fu'; split; [done|]; by rewrite Rtask.
  - destruct tj; cbn [knows] in *; try done; auto.
    all: try (destruct Hkn as [? Hkn]; split; [done|]).
    all: match goal with
    | |- sat _ ?f _ =>
        first [ destruct (Hlock f) as (? & fu & fu' & ? & ? & ? & ? & ? & ? & ? & ?);
                  [by left|]
              | destruct (Htok f) as (fu & fu' & ? & ? & ? & ? & ? & ? & ? & ? & ?);
                  [by left|] ];
        destruct Hkn as (fu2 & ? & ?); simplify_eq; exists fu'; split; [done|congruence]
    end.
Qed.

Lemma sat_insert_ne (F : list Future) f g fu' (P : Future → Prop) :
  g ≠ f → sat F g P → sat (<[f := fu']> F) g P.
Proof.
  intros Hne (fu & Hfu & HP). exists fu. split; [|done].
  by rewrite list_lookup_insert_ne.
Qed.

Lemma sat_app (F : list Future) g fu' (P : Future → Prop) :
  sat F g P → sat (F ++ [fu']) g P.
Proof.
  intros (fu & Hfu & HP). exists fu. split; [|done]. by apply lookup_app_l_Some.
Qed.

Lemma sat_new (F : list Future) fu' (P : Future → Prop) :
  P fu' → sat (F ++ [fu']) (length F) P.
Proof.
  intros HP. exists fu'. split; [|done]. by apply list_lookup_middle.
Qed.

Ltac facts :=
  repeat match goal with
  | H : State_eqb _ _ = true |- _ => apply State_eqb_eq in H
  | H : State_eqb _ _ = false |- _ => apply State_eqb_neq in H
  | H : negb _ = true |- _ => apply negb_true_iff in H
  | H : negb _ = false |- _ => apply negb_false_iff in H
  | H : _ || _ = true |- _ => apply orb_true_iff in H
  | H : _ || _ = false |- _ => apply orb_false_iff in H; destruct H
  | H : ?F !! ?f = Some ?x, Hfut : ∀ f fu, ?F !! f = Some fu → fut_ok f fu |- _ =>
      lazymatch goal with
      | _ : fut_ok f x |- _ => fail
      | _ => pose proof (Hfut _ _ H); pose proof (lookup_lt_Some _ _ _ H)
      end
  end.

Ltac finish_core :=
  unfold fut_ok, in_phase in *; cbn in *;
  rewrite ?length_insert, ?length_app in *; cbn in *;
  try done; try lia;
  repeat match goal with
  | H : _ ∧ _ |- _ => destruct H
  | H : ∀ p nx, task ?x = ThenTask p nx → _, Ht : task ?x = ThenTask _ _ |- _ =>
      specialize (H _ _ Ht); destruct H
  | |- _ ∧ _ => split
  | |- NoDup [_; _] =>
      apply NoDup_cons; split;
      [ rewrite list_elem_of_singleton; intros ?; simplify_eq | apply NoDup_singleton ]
  end;
  try done; try lia; try congruence;
  try (intuition (congruence || lia || eauto)).

Ltac finish :=
  finish_core;
  try match goal with
  | |- ?b = true => destruct b eqn:?; [done|exfalso]
  | |- ?b = false => destruct b eqn:?; [exfalso|done]
  end;
  facts; finish_core.

Lemma sat_insert (F : list Future) f g fu fu' (P : Future → Prop) :
  F !! f = Some fu → (g = f → P fu') → (g ≠ f → sat F g P) →
  sat (<[f := fu']> F) g P.
Proof.
  intros Hf H1 H2. destruct (decide (g = f)) as [->|Hne].
  - eapply sat_insert_eq; eauto.
  - apply sat_insert_ne; auto.
Qed.

Ltac solve_sat :=
  first
  [ eapply sat_insert;
    [ eassumption
    | intros ?; simplify_eq
    | intros ?; first [ exfalso; congruence | eexists; split; [eassumption|] ] ]
  | apply sat_new
  | apply sat_app; eexists; split; [eassumption|]
  | eexists; split; [eassumption|] ].

Ltac split_ok :=
  repeat first
  [ progress (unfold thread_ok;
      cbn beta iota delta [locks tokens target knows link rk_link sk_link fmap
        list_fmap fst snd rk_tokens sk_tokens resume_start resume_result
        e_thread e_futs e_spawn])
  | match goal with
    | |- _ ∧ _ => split
    | |- Forall _ [] => apply Forall_nil_2
    | |- Forall _ (_ :: _) => apply Forall_cons_2
    | |- True => exact I
    | |- NoDup [] => apply NoDup_nil_2
    | |- NoDup [_] => apply NoDup_singleton
    end ].

Lemma exec_self_ok i F t ef n :
  thread_ok F i t → (∀ f fu, F !! f = Some fu → fut_ok f fu) →
  exec i F t = Some ef →
  thread_ok (e_futs ef) i (e_thread ef) ∧
  Forall (thread_ok (e_futs ef) n) (e_spawn ef).
Proof.
  intros Hok Hfut H.
  destruct t;
    repeat match goal with
    | k : skont |- _ => destruct k
    | r : rkont |- _ => destruct r
    end;
    exec_cases H; ok_inv Hok.
  all: split_ok.
  all: try solve_sat.
  all: facts; finish.
Qed.

Lemma exec_fut_ok i F t ef :
  thread_ok F i t → (∀ f fu, F !! f = Some fu → fut_ok f fu) →
  exec i F t = Some ef →
  ∀ g fu, e_futs ef !! g = Some fu → fut_ok g fu.
Proof.
  intros Hok Hfut H.
  destruct t; exec_cases H; ok_inv Hok; cbn [e_futs]; try done.
  all: intros g fu' Hg.
  all: try (apply lookup_app_Some in Hg as [Hg|[Hlen Hg]];
            [by eauto|apply list_lookup_singleton_Some in Hg as [Hz <-];
             assert (g = length F) as -> by lia]).
  all: try (apply list_lookup_insert_Some in Hg as [(<- & <- & ?)|[? Hg]];
            [|by eauto]).
  all: facts; finish.
Qed.

Lemma exec_tokens i F t ef :
  thread_ok F i t → (∀ f fu, F !! f = Some fu → fut_ok f fu) →
  exec i F t = Some ef →
  NoDup ((tokens (e_thread ef) ++ (e_spawn ef ≫= tokens)).*1) ∧
  ∀ g, g ∈ (tokens (e_thread ef) ++ (e_spawn ef ≫= tokens)).*1 →
       g ∈ (tokens t).*1 ∨ sat F g (λ fu, started fu = false).
Proof.
  intros Hok Hfut H.
  destruct t;
    repeat match goal with
    | k : skont |- _ => destruct k
    | r : rkont |- _ => destruct r
    end;
    exec_cases H; pose proof Hok as Hok'; ok_inv Hok'.
  all: cbn [e_thread e_spawn tokens rk_tokens sk_tokens resume_start resume_result
            mbind list_bind app fmap list_fmap fst snd].
  all: split;
    [ repeat match goal with
      | H : NoDup (_ :: _) |- _ => apply NoDup_cons in H; destruct H
      end;
      repeat (apply NoDup_cons; split); try apply NoDup_nil_2;
      try (rewrite ?not_elem_of_cons in *; intuition congruence); try set_solver;
      try (rewrite list_elem_of_singleton; intros ?; simplify_eq; congruence)
    | intros g Hg;
      repeat (apply elem_of_cons in Hg; destruct Hg as [->|Hg]);
      try (by apply elem_of_nil in Hg);
      first [ left; set_solver | right; eexists; split; [eassumption|done] ] ].
Qed.

Lemma pool_lookup (pool : list Thread) i t' spawn j tj :
  i < length pool →
  (<[i := t']> pool ++ spawn) !! j = Some tj →
  (j = i ∧ tj = t') ∨ (j ≠ i ∧ pool !! j = Some tj) ∨
  (length pool ≤ j ∧ j - length pool < length spawn ∧ tj ∈ spawn).
Proof.
  intros Hi Hj. apply lookup_app_Some in Hj as [Hj|[Hlen Hj]].
  - apply list_lookup_insert_Some in Hj as [(<- & <- & ?)|[? Hj]]; auto.
  - rewrite length_insert in Hlen, Hj. right; right. split; [done|].
    split; [by eapply lookup_lt_Some|by eapply list_elem_of_lookup_2].
Qed.

Lemma token_started F i t g :
  thread_ok F i t → g ∈ (tokens t).*1 → sat F g (λ fu, started fu = true).
Proof.
  intros (_ & Htk & _) Hin.
  apply list_elem_of_fmap in Hin as ([g' ph] & -> & Hin).
  rewrite Forall_forall in Htk. eapply sat_mono; [by apply Htk|].
  by intros fu (? & _).
Qed.

Lemma exec_owner i F t ef :
  thread_ok F i t →
  (∀ g fu, F !! g = Some fu → mutex fu = Some i → g ∈ locks t) →
  exec i F t = Some ef →
  ∀ g fu' j, e_futs ef !! g = Some fu' → mutex fu' = Some j →
    (j = i ∧ g ∈ locks (e_thread ef)) ∨
    (j ≠ i ∧ ∃ fu, F !! g = Some fu ∧ mutex fu = Some j).
Proof.
  intros Hok Hown H g fu' j Hg Hm.
  destruct (decide (j = i)) as [->|Hji]; [left; split; [done|]|right; split; [done|]].
  - destruct t; exec_cases H; cbn [e_futs e_thread locks resume_start resume_result] in *.
    all: try (apply lookup_app_Some in Hg as [Hg|[Hlen Hg]];
            [|apply list_lookup_singleton_Some in Hg as [Hz <-]; done]).
    all: try (apply list_lookup_insert_Some in Hg as [(<- & <- & ?)|[? Hg]]).
    all: try (by left).
    all: try (specialize (Hown _ _ Hg Hm); cbn in Hown; set_solver).
    all: try done.
    all: cbn in Hm; specialize (Hown _ _ ltac:(eassumption) Hm); set_solver.
  - destruct t; exec_cases H; cbn [e_futs e_thread] in *; eauto.
    all: try (apply lookup_app_Some in Hg as [Hg|[Hlen Hg]];
            [by eauto|apply list_lookup_singleton_Some in Hg as [Hz <-]; done]).
    all: apply list_lookup_insert_Some in Hg as [(<- & <- & ?)|[? Hg]]; eauto.
    all: cbn in Hm; congruence.
Qed.

Lemma exec_holder i F t ef :
  thread_ok F i t →
  exec i F t = Some ef →
  ∀ g fu', e_futs ef !! g = Some fu' → started fu' = true → done fu' = false →
    g ∈ (tokens (e_thread ef) ++ (e_spawn ef ≫= tokens)).*1 ∨
    (¬ g ∈ (tokens t).*1 ∧
     ∃ fu, F !! g = Some fu ∧ started fu = true ∧ done fu = false).
Proof.
  intros Hok H g fu' Hg Hs Hd.
  destruct (decide (g ∈ (tokens t).*1)) as [Hin|Hnin].
  - left. destruct t;
    repeat match goal with
    | k : skont |- _ => destruct k
    | r : rkont |- _ => destruct r
    end;
    exec_cases H;
    cbn [e_futs e_thread e_spawn tokens rk_tokens sk_tokens resume_start resume_result
            mbind list_bind app fmap list_fmap fst snd] in *; try done.
    all: try set_solver.
    all: ok_inv Hok; try congruence.
    all: try (apply elem_of_cons in Hin as [->|Hin]; [|by apply elem_of_nil in Hin]).
    all: try (rewrite list_lookup_insert_eq in Hg by (by eapply lookup_lt_Some);
              injection Hg as <-; cbn in *; congruence).
    all: facts; finish.
  - destruct t; exec_cases H; cbn [e_futs e_thread] in *.
    all: try (right; split; [done|]; by eauto).
    all: try (apply lookup_app_Some in Hg as [Hg|[Hlen Hg]];
            [right; split; [done|]; by eauto
            |apply list_lookup_singleton_Some in Hg as [Hz <-]; done]).
    all: apply list_lookup_insert_Some in Hg as [(<- & <- & ?)|[? Hg]];
      [|right; split; [done|]; by eauto].
    all: cbn in *; try (right; split; [done|]; by eauto).
    left. by left.
Qed.



Lemma thread_step_inv c i c' :
  Inv c → thread_step c i = Some c' → Inv c'.
Proof.
  intros [Hth Hun Hfu Hown Hhold] Hstep. unfold thread_step in Hstep.
  destruct (pool c !! i) as [t|] eqn:Hi; [|done]. cbn in Hstep.
  destruct (exec i (futs c) t) as [ef|] eqn:Hex; [|done]. cbn in Hstep.
  injection Hstep as <-.
  pose proof (Hth _ _ Hi) as Hok.
  pose proof (exec_frame _ _ _ _ Hok Hex) as Hfr.
  pose proof (exec_tokens _ _ _ _ Hok Hfu Hex) as [Hnd Htok].
  assert (Hilt : i < length (pool c)) by by eapply lookup_lt_Some.
  assert (Hdisj : ∀ j tj, j ≠ i → pool c !! j = Some tj →
            ∀ g, g ∈ (tokens (e_thread ef) ++ (e_spawn ef ≫= tokens)).*1 →
                 g ∉ (tokens tj).*1).
  { intros j tj Hji Hj g Hg Hg'. destruct (Htok _ Hg) as [Hin|(fu & Hfu1 & Hs)].
    - by specialize (Hun _ _ _ _ _ Hi Hj Hin Hg').
    - destruct (token_started _ _ _ _ (Hth _ _ Hj) Hg') as (fu' & ? & ?).
      simplify_eq. congruence. }
  assert (Hspawn : ∀ tj, tj ∈ e_spawn ef →
            ∀ g, g ∈ (tokens tj).*1 →
                 g ∈ (tokens (e_thread ef) ++ (e_spawn ef ≫= tokens)).*1).
  { intros tj Hin g Hg. rewrite fmap_app, elem_of_app. right.
    apply list_elem_of_fmap in Hg as (x & -> & Hx).
    apply list_elem_of_fmap_2, list_elem_of_bind. eauto. }
  assert (Hself : ∀ g, g ∈ (tokens (e_thread ef)).*1 →
                 g ∈ (tokens (e_thread ef) ++ (e_spawn ef ≫= tokens)).*1).
  { intros g Hg. rewrite fmap_app, elem_of_app. by left. }
  assert (Hone : length (e_spawn ef) ≤ 1).
  { clear -Hex. destruct t; exec_cases Hex; cbn; lia. }
  assert (Hown' : ∀ g fu, futs c !! g = Some fu → mutex fu = Some i → g ∈ locks t).
  { intros g fu Hg Hm. destruct (Hown _ _ _ Hg Hm) as (t' & ? & ?). by simplify_eq. }
  split; cbn.
  - intros j tj Hj. apply pool_lookup in Hj as [[-> ->]|[[Hji Hj]|(Hlen & Hlt & Hin)]]; [| | |done].
    + by eapply exec_self_ok.
    + eapply thread_ok_stable; [done|exact Hfr|done|by eauto|].
      intros g Hg Hg'. specialize (Hun _ _ _ _ _ Hi Hj Hg Hg'). congruence.
    + destruct (exec_self_ok _ _ _ _ j Hok Hfu Hex) as [_ Hsp].
      rewrite Forall_forall in Hsp. by apply Hsp.
  - intros j1 j2 t1 t2 g Hj1 Hj2 Hg1 Hg2.
    apply pool_lookup in Hj1 as [[-> ->]|[[Hji1 Hj1]|(Hlen1 & Hlt1 & Hin1)]]; [| | |done];
    apply pool_lookup in Hj2 as [[-> ->]|[[Hji2 Hj2]|(Hlen2 & Hlt2 & Hin2)]]; try done.
    all: try (exfalso; eapply Hdisj; [| |eauto|]; eauto; fail).
    + exfalso. rewrite fmap_app in Hnd. apply NoDup_app in Hnd as (_ & Hnd & _).
      eapply Hnd; [done|].
      apply list_elem_of_fmap in Hg2 as (x & -> & Hx).
      apply list_elem_of_fmap_2, list_elem_of_bind. eauto.
    + by eauto.
    + exfalso. rewrite fmap_app in Hnd. apply NoDup_app in Hnd as (_ & Hnd & _).
      eapply Hnd; [done|].
      apply list_elem_of_fmap in Hg1 as (x & -> & Hx).
      apply list_elem_of_fmap_2, list_elem_of_bind. eauto.
    + lia.
  - by eapply exec_fut_ok.
  - intros g fu' j Hg Hm.
    destruct (exec_owner _ _ _ _ Hok (λ g fu, Hown' g fu) Hex _ _ _ Hg Hm)
      as [[-> Hin]|(Hji & fu & Hfu0 & Hm0)].
    + exists (e_thread ef). split; [|done].
      rewrite lookup_app_l by (by rewrite length_insert).
      by apply list_lookup_insert_eq.
    + destruct (Hown _ _ _ Hfu0 Hm0) as (tj & Hj & Hin). exists tj. split; [|done].
      apply lookup_app_l_Some. by rewrite list_lookup_insert_ne.
  - intros g fu' Hg Hs Hd.
    destruct (exec_holder _ _ _ _ Hok Hex _ _ Hg Hs Hd)
      as [Hin|(Hnin & fu & Hfu0 & Hs0 & Hd0)].
    + rewrite fmap_app, elem_of_app in Hin. destruct Hin as [Hin|Hin].
      * exists i, (e_thread ef). split; [|done].
        rewrite lookup_app_l by (by rewrite length_insert).
        by apply list_lookup_insert_eq.
      * apply list_elem_of_fmap in Hin as (x & -> & Hx).
        apply list_elem_of_bind in Hx as (tj & Hx & Htj).
        apply list_elem_of_lookup_1 in Htj as [m Hm].
        exists (length (<[i:=e_thread ef]> (pool c)) + m), tj.
        split; [|by apply list_elem_of_fmap_2].
        by rewrite lookup_app_r, Nat.add_comm, Nat.add_sub by lia.
    + destruct (Hhold _ _ Hfu0 Hs0 Hd0) as (j & tj & Hj & Hin).
      exists j, tj. split; [|done].
      apply lookup_app_l_Some. rewrite list_lookup_insert_ne; [done|].
      intros ->. simplify_eq. done.
Qed.

Lemma call_inv c k c' : Inv c → call c k = Some c' → Inv c'.
Proof.
  intros [Hth Hun Hfu Hown Hhold] Hcall.
  assert (Happ : ∀ fu j tj, pool c !! j = Some tj →
            thread_ok (futs c) j tj → thread_ok (futs c ++ [fu]) j tj).
  { intros fu j tj Hj Hok.
    eapply (thread_ok_stable (S j) (Done RetUnit) j tj (futs c));
      [lia|intros g fu0 Hg; by apply frame_app|split_ok|done|cbn; set_solver]. }
  destruct k; cbn in Hcall;
    try (case_decide; [|done]); injection Hcall as <-; split; cbn; eauto.
  all: try (intros j tj Hj; apply lookup_app_Some in Hj as [Hj|[Hlen Hj]]; [by eauto|];
            apply list_lookup_singleton_Some in Hj as [Hz <-]; split_ok; done).
  all: try (intros j1 j2 t1 t2 g Hj1 Hj2 Hg1 Hg2;
            apply lookup_app_Some in Hj1 as [Hj1|[Hlen1 Hj1]];
            [|apply list_lookup_singleton_Some in Hj1 as [Hz1 <-]; cbn in Hg1; set_solver];
            apply lookup_app_Some in Hj2 as [Hj2|[Hlen2 Hj2]];
            [|apply list_lookup_singleton_Some in Hj2 as [Hz2 <-]; cbn in Hg2; set_solver];
            eauto).
  all: try (intros g fu j Hg Hm;
            try (apply lookup_app_Some in Hg as [Hg|[Hlen Hg]];
                 [|apply list_lookup_singleton_Some in Hg as [Hz <-]; done]);
            destruct (Hown _ _ _ Hg Hm) as (t & ? & ?); exists t;
            split; [by apply lookup_app_l_Some || done|done]).
  all: intros g fu Hg Hs Hd;
       try (apply lookup_app_Some in Hg as [Hg|[Hlen Hg]];
            [|apply list_lookup_singleton_Some in Hg as [Hz <-]; done]);
       destruct (Hhold _ _ Hg Hs Hd) as (j & t & ? & ?); exists j, t;
       split; [by apply lookup_app_l_Some || done|done].
Qed.

Lemma init_inv : Inv init.
Proof. split; cbn; intros; simplify_list_eq. Qed.

Lemma step_inv c c' : Inv c → step c c' → Inv c'.
Proof. intros HI [i Hs|k Hs]; eauto using thread_step_inv, call_inv. Qed.

Theorem reachable_inv c : reachable c → Inv c.
Proof.
  unfold reachable. intros H. apply rtc_nsteps in H as [n H].
  revert c H. induction n as [|n IH]; intros c H.
  - inversion H; subst. apply init_inv.
  - apply nsteps_inv_r in H as (c0 & H0 & Hs). eauto using step_inv.
Qed.


(** ** The history

    Projections of the history on one future. *)
Fixpoint ntask (f : fid) (tr : list Event) : nat :=
  match tr with
  | [] => 0
  | EvTask g :: tr' => (if decide (g = f) then 1 else 0) + ntask f tr'
  | _ :: tr' => ntask f tr'
  end.

Fixpoint nclose (f : fid) (tr : list Event) : nat :=
  match tr with
  | [] => 0
  | EvClose g :: tr' => (if decide (g = f) then 1 else 0) + nclose f tr'
  | _ :: tr' => nclose f tr'
  end.

(** The callbacks fired by the completion path of [f], oldest first. *)
Fixpoint fires (f : fid) (tr : list Event) : list (cbid * cbarg) :=
  match tr with
  | [] => []
  | EvFire _ g cb a :: tr' => (if decide (g = f) then [(cb, a)] else []) ++ fires f tr'
  | _ :: tr' => fires f tr'
  end.

(** The arguments with which the continuation of [f]'s task was called. *)
Fixpoint nexts (f : fid) (tr : list Event) : list any :=
  match tr with
  | [] => []
  | EvNext g v :: tr' => (if decide (g = f) then [v] else []) ++ nexts f tr'
  | _ :: tr' => nexts f tr'
  end.

(** The arguments every callback of [f] was called with, on either path. *)
Fixpoint cbargs (f : fid) (tr : list Event) : list cbarg :=
  match tr with
  | [] => []
  | EvFire _ g _ a :: tr' | EvLate _ g _ a :: tr' =>
      (if decide (g = f) then [a] else []) ++ cbargs f tr'
  | _ :: tr' => cbargs f tr'
  end.

Lemma ntask_app f tr1 tr2 : ntask f (tr1 ++ tr2) = ntask f tr1 + ntask f tr2.
Proof. induction tr1 as [|[] tr1 IH]; cbn; rewrite ?IH; lia. Qed.

Lemma nclose_app f tr1 tr2 : nclose f (tr1 ++ tr2) = nclose f tr1 + nclose f tr2.
Proof. induction tr1 as [|[] tr1 IH]; cbn; rewrite ?IH; lia. Qed.

Lemma fires_app f tr1 tr2 : fires f (tr1 ++ tr2) = fires f tr1 ++ fires f tr2.
Proof. induction tr1 as [|[] tr1 IH]; cbn; rewrite ?IH, ?app_assoc; done. Qed.

Lemma nexts_app f tr1 tr2 : nexts f (tr1 ++ tr2) = nexts f tr1 ++ nexts f tr2.
Proof. induction tr1 as [|[] tr1 IH]; cbn; rewrite ?IH, ?app_assoc; done. Qed.

Lemma cbargs_app f tr1 tr2 : cbargs f (tr1 ++ tr2) = cbargs f tr1 ++ cbargs f tr2.
Proof. induction tr1 as [|[] tr1 IH]; cbn; rewrite ?IH, ?app_assoc; done. Qed.

(** What the completion path of a future calls: the callbacks of the list
    that matches its terminal state, in the order of the list, each with the
    stored outcome. *)
Definition completions (fu : Future) : list (cbid * cbarg) :=
  match state fu with
  | Fulfilled => (λ cb, (cb, ArgVal (result fu))) <$> onSuccess fu
  | Rejected => (λ cb, (cb, ArgErr (err fu))) <$> onFailure fu
  | _ => []
  end.

(** The argument a callback of [fu] may be called with. *)
Definition cbarg_ok (fu : Future) (a : cbarg) : Prop :=
  (state fu = Fulfilled ∧ a = ArgVal (result fu)) ∨
  (state fu = Rejected ∧ a = ArgErr (err fu)).

(** [task_res F fu v e]: the task of [fu] returns [(v, e)].  For the closure of
    Then (lines 40-49) this is decided by the outcome of the parent, which
    the closure reads once the parent's channel is closed. *)
Definition task_res (F : list Future) (fu : Future) (v : any) (e : error) : Prop :=
  match task fu with
  | Prim v0 e0 => v = v0 ∧ e = e0
  | ThenTask p nextTask =>
      sat F p (λ pu, done pu = true ∧
        match err pu with
        | Some _ => v = Nil ∧ e = err pu
        | None => v = (nextTask (result pu)).1 ∧ e = (nextTask (result pu)).2
        end)
  end.

(** The stored outcome of a completed future is what its task returned. *)
Definition outcome_ok (F : list Future) (fu : Future) : Prop :=
  ∃ v e, task_res F fu v e ∧
    match e with
    | None => state fu = Fulfilled ∧ result fu = v
    | Some _ => state fu = Rejected ∧ err fu = e
    end.

(** What a program point tells about the history and about the values it
    carries. *)
Definition hknows (F : list Future) (tr : list Event) (t : Thread) : Prop :=
  match t with
  | StartSetRunning f _ | StartUnlock f _ | StartGo f _ | GTask f => ntask f tr = 0
  | GLock f v e | GCheck f v e | GErrCheck f v e =>
      sat F f (λ fu, task_res F fu v e)
  | GSetErr f e | GSetRejected f e => sat F f (λ fu, ∃ v, task_res F fu v e)
  | GSetRes f v => sat F f (λ fu, task_res F fu v None)
  | GSetFulfilled f v => sat F f (λ fu, task_res F fu v None ∧ result fu = v)
  | GSnapF f e => sat F f (λ fu, state fu = Rejected) ∧ fires f tr = []
  | GUnlockF f e cbs =>
      sat F f (λ fu, state fu = Rejected ∧ cbs = onFailure fu) ∧ fires f tr = []
  | GFireF f e cbs =>
      sat F f (λ fu, state fu = Rejected ∧
        fires f tr ++ ((λ cb, (cb, ArgErr e)) <$> cbs) = completions fu)
  | GSnapS f v => sat F f (λ fu, state fu = Fulfilled ∧ result fu = v) ∧ fires f tr = []
  | GUnlockS f v cbs =>
      sat F f (λ fu, state fu = Fulfilled ∧ result fu = v ∧ cbs = onSuccess fu) ∧
      fires f tr = []
  | GFireS f v cbs =>
      sat F f (λ fu, state fu = Fulfilled ∧ result fu = v ∧
        fires f tr ++ ((λ cb, (cb, ArgVal v)) <$> cbs) = completions fu)
  | GClose f => sat F f (λ fu, fires f tr = completions fu)
  | ThenErr c nextTask v e =>
      sat F c (λ cu, ∃ p, task cu = ThenTask p nextTask ∧
        sat F p (λ pu, done pu = true ∧ result pu = v ∧ err pu = e))
  | ThenCall c nextTask v =>
      sat F c (λ cu, ∃ p, task cu = ThenTask p nextTask ∧
        sat F p (λ pu, done pu = true ∧ result pu = v ∧ err pu = None))
  | ResUnlock f _ v e | Done (RetResult f v e) =>
      sat F f (λ fu, done fu = true ∧ result fu = v ∧ err fu = e)
  | StUnlock f s | Done (RetState f s) =>
      terminal s = true → sat F f (λ fu, state fu = s)
  | _ => True
  end.

Definition fut_hist (F : list Future) (tr : list Event) (f : fid) (fu : Future) : Prop :=
  (started fu = false → ntask f tr = 0) ∧
  ntask f tr ≤ 1 ∧
  nclose f tr = (if done fu then 1 else 0) ∧
  (terminal (state fu) = false → fires f tr = []) ∧
  (done fu = true → fires f tr = completions fu) ∧
  (terminal (state fu) = true → outcome_ok F fu) ∧
  (∀ v, v ∈ nexts f tr → ∃ p nextTask, task fu = ThenTask p nextTask ∧
      sat F p (λ pu, done pu = true ∧ err pu = None ∧ result pu = v)) ∧
  (∀ a, a ∈ cbargs f tr → cbarg_ok fu a) ∧
  (∀ pre post, tr = pre ++ EvClose f :: post →
      fires f pre = completions fu ∧ fires f post = []).

(** The future a goroutine is working on. *)
Definition pc_fut (t : Thread) : option fid :=
  match t with
  | StartLock f _ | StartCheck f _ | StartBail f _ | StartSetStarted f _
  | StartSetRunning f _ | StartUnlock f _ | StartGo f _
  | GTask f | GLock f _ _ | GCheck f _ _ | GAbort f | GErrCheck f _ _
  | GSetErr f _ | GSetRejected f _ | GSnapF f _ | GUnlockF f _ _ | GFireF f _ _
  | GSetRes f _ | GSetFulfilled f _ | GSnapS f _ | GUnlockS f _ _ | GFireS f _ _
  | GClose f
  | ThenErr f _ _ _ | ThenCall f _ _
  | ResCheck f _ | ResWait f _ | ResLock f _ | ResRead f _ | ResUnlock f _ _ _
  | ThenStarted f _ | ThenNew f _ | ThenLock f _ | ThenSetNext f _ | ThenUnlock f _
  | StLock f | StRead f | StUnlock f _
  | NxLock f | NxRead f | NxUnlock f _
  | OSLock f _ | OSCheck f _ | OSCall f _ | OSAppend f _ | OSUnlock f
  | OFLock f _ | OFCheck f _ | OFCall f _ | OFAppend f _ | OFUnlock f => Some f
  | Done _ | Crashed => None
  end.

(** Nothing is recorded about a future that is not allocated yet. *)
Definition unborn (g : fid) (tr : list Event) : Prop :=
  ntask g tr = 0 ∧ nclose g tr = 0 ∧ fires g tr = [] ∧ nexts g tr = [] ∧
  cbargs g tr = [].

Record Hist (c : Config) : Prop := mkHist {
  hist_thread : ∀ i t, pool c !! i = Some t → hknows (futs c) (trace c) t;
  hist_fut : ∀ f fu, futs c !! f = Some fu → fut_hist (futs c) (trace c) f fu;
  hist_unborn : ∀ g, length (futs c) ≤ g → unborn g (trace c)
}.

(** Every entry of the history is written by the goroutine that holds the
    run, or the mutex, of the future it is about. *)
Definition ev_by (t : Thread) (i : tid) (ev : Event) : Prop :=
  match ev with
  | EvTask g | EvClose g | EvNext g _ => g ∈ (tokens t).*1
  | EvFire j g _ _ => j = i ∧ g ∈ (tokens t).*1 ∧ g ∉ locks t
  | EvLate j g _ _ => j = i ∧ g ∈ locks t
  end.

Lemma exec_events i F t ef :
  exec i F t = Some ef → Forall (ev_by t i) (e_events ef).
Proof.
  intros H. destruct t; exec_cases H; cbn; repeat constructor; set_solver.
Qed.

Lemma events_quiet t i evs g :
  Forall (ev_by t i) evs → g ∉ (tokens t).*1 →
  ntask g evs = 0 ∧ nclose g evs = 0 ∧ fires g evs = [] ∧ nexts g evs = [].
Proof.
  intros Hev Hg. induction Hev as [|ev evs Hev _ IH]; [done|].
  destruct IH as (? & ? & ? & ?).
  destruct ev; cbn in *; repeat case_decide; subst; try done; exfalso; tauto.
Qed.

Lemma events_quiet_cb t i evs g :
  Forall (ev_by t i) evs → g ∉ (tokens t).*1 → g ∉ locks t → cbargs g evs = [].
Proof.
  intros Hev Hg Hl. induction Hev as [|ev evs Hev _ IH]; [done|].
  destruct ev; cbn in *; repeat case_decide; subst; try done; exfalso; tauto.
Qed.

Lemma split_close g tr evs pre post :
  tr ++ evs = pre ++ EvClose g :: post → nclose g evs = 0 →
  ∃ post', post = post' ++ evs ∧ tr = pre ++ EvClose g :: post'.
Proof.
  revert pre. induction tr as [|x tr IH]; intros pre Heq Hn.
  - cbn in Heq. subst evs. rewrite nclose_app in Hn. cbn in Hn.
    case_decide; [lia|done].
  - destruct pre as [|y pre]; cbn in Heq.
    + injection Heq as -> <-. by exists tr.
    + injection Heq as -> Heq. destruct (IH _ Heq Hn) as (post' & -> & ->).
      by exists post'.
Qed.

Lemma completions_eq fu fu' :
  state fu' = state fu → result fu' = result fu → err fu' = err fu →
  (state fu = Fulfilled → onSuccess fu' = onSuccess fu) →
  (state fu = Rejected → onFailure fu' = onFailure fu) →
  completions fu' = completions fu.
Proof.
  intros Hs Hr He H1 H2. unfold completions. rewrite Hs, Hr, He.
  destruct (state fu); try done; by rewrite ?H1, ?H2.
Qed.

(** A future in a terminal state keeps its outcome and the list that its
    completion fires. *)
Lemma frame_term i t F F' p pu :
  frame i t F F' → F !! p = Some pu → terminal (state pu) = true →
  ∃ pu', F' !! p = Some pu' ∧ task pu' = task pu ∧ state pu' = state pu ∧
    result pu' = result pu ∧ err pu' = err pu ∧
    completions pu' = completions pu ∧ (done pu = true → done pu' = true).
Proof.
  intros Hfr Hp Ht.
  destruct (Hfr _ _ Hp) as (pu' & Hp' & [Rtask Rzero Rmutex Rstarted Rcore Rdone RonS RonF Rterm]).
  destruct (Rterm Ht) as (Hs & Hr & He).
  exists pu'. repeat split; try done.
  - apply completions_eq; try done.
    + intros Hf. destruct RonS as [|[_ ?]]; done.
    + intros Hf. destruct RonF as [|[_ ?]]; done.
  - destruct Rdone as [->|(_ & ? & _)]; congruence.
Qed.

Lemma frame_done i t F F' p (P : any → error → Prop) :
  frame i t F F' → (∀ f fu, F !! f = Some fu → fut_ok f fu) →
  sat F p (λ pu, done pu = true ∧ P (result pu) (err pu)) →
  sat F' p (λ pu, done pu = true ∧ P (result pu) (err pu)).
Proof.
  intros Hfr Hok (pu & Hp & Hd & HP).
  destruct (Hok _ _ Hp) as (_ & _ & Hdt & _). destruct (Hdt Hd) as [_ Ht].
  destruct (frame_term _ _ _ _ _ _ Hfr Hp Ht) as (pu' & ? & ? & ? & Hr & He & ? & Hd').
  exists pu'. split; [done|]. rewrite Hr, He. auto.
Qed.

Lemma task_res_frame i t F F' fu fu' v e :
  frame i t F F' → (∀ f fu, F !! f = Some fu → fut_ok f fu) →
  task fu' = task fu → task_res F fu v e → task_res F' fu' v e.
Proof.
  intros Hfr Hok Ht. unfold task_res. rewrite Ht.
  destruct (task fu) as [|p nx]; [done|].
  apply (frame_done i t F F' p
    (λ r er, match er with Some _ => v = Nil ∧ e = er
             | None => v = (nx r).1 ∧ e = (nx r).2 end)); done.
Qed.

Lemma outcome_ok_frame i t F F' fu fu' :
  frame i t F F' → (∀ f fu, F !! f = Some fu → fut_ok f fu) →
  task fu' = task fu → state fu' = state fu → result fu' = result fu →
  err fu' = err fu → outcome_ok F fu → outcome_ok F' fu'.
Proof.
  intros Hfr Hok Ht Hs Hr He (v & e & Hres & Hm). exists v, e.
  rewrite Hs, Hr, He. split; [|done]. by eapply task_res_frame.
Qed.

(** A step that closes no channel and leaves the outcome of [g] alone keeps
    what the history says about [g]. *)
Lemma fut_hist_frame i t F F' tr evs g fu fu' :
  frame i t F F' → (∀ f fu, F !! f = Some fu → fut_ok f fu) →
  fut_hist F tr g fu →
  task fu' = task fu → (started fu' = false → started fu = false) →
  done fu' = done fu →
  terminal (state fu') = terminal (state fu) →
  (terminal (state fu) = true →
     state fu' = state fu ∧ result fu' = result fu ∧ err fu' = err fu) →
  completions fu' = completions fu →
  (started fu' = false → ntask g evs = 0) → ntask g tr + ntask g evs ≤ 1 →
  nclose g evs = 0 →
  (fires g evs = [] ∨ (terminal (state fu) = true ∧ done fu = false)) →
  (∀ v, v ∈ nexts g evs → ∃ p nextTask, task fu = ThenTask p nextTask ∧
      sat F p (λ pu, done pu = true ∧ err pu = None ∧ result pu = v)) →
  (∀ a, a ∈ cbargs g evs → cbarg_ok fu' a) →
  fut_hist F' (tr ++ evs) g fu'.
Proof.
  intros Hfr Hok (H1 & H2 & H3 & H4 & H5 & H6 & H7 & H8 & H9)
    Ht Hst Hd Hs Hcore Hc E1 E1' E2 E3 E4 E5.
  assert (Hnx : ∀ v p, sat F p (λ pu, done pu = true ∧ err pu = None ∧ result pu = v) →
                       sat F' p (λ pu, done pu = true ∧ err pu = None ∧ result pu = v)).
  { intros v p Hp. apply (frame_done i t F F' p (λ r er, er = None ∧ r = v)); done. }
  unfold fut_hist.
  rewrite ntask_app, nclose_app, fires_app, nexts_app, cbargs_app, E2.
  rewrite Hd, Hs, Hc, Ht, !Nat.add_0_r.
  split; [|split; [|split; [|split; [|split; [|split; [|split; [|split]]]]]]].
  - intros Hf. rewrite E1, Nat.add_0_r by done. auto.
  - done.
  - done.
  - intros Hterm. destruct E3 as [->|[? _]]; [|congruence]. rewrite app_nil_r. auto.
  - intros Hdn. destruct E3 as [->|[_ ?]]; [|congruence]. rewrite app_nil_r. auto.
  - intros Hterm. destruct (Hcore Hterm) as (? & ? & ?).
    eapply outcome_ok_frame; eauto.
  - intros v Hv. apply elem_of_app in Hv as [Hv|Hv].
    + destruct (H7 v Hv) as (p & nx & Htask & Hp). exists p, nx. auto.
    + destruct (E4 v Hv) as (p & nx & Htask & Hp). exists p, nx. auto.
  - intros a Ha. apply elem_of_app in Ha as [Ha|Ha]; [|by apply E5].
    assert (Hterm : terminal (state fu) = true).
    { destruct (H8 a Ha) as [[-> _]|[-> _]]; done. }
    destruct (Hcore Hterm) as (Hs' & Hr & He).
    destruct (H8 a Ha) as [[? ->]|[? ->]]; [left|right]; rewrite Hs', ?Hr, ?He; done.
  - intros pre post Heq.
    destruct (split_close _ _ _ _ _ Heq E2) as (post' & -> & ->).
    destruct (H9 _ _ eq_refl) as [Hpre Hpost]. split; [done|].
    rewrite fires_app, Hpost. destruct E3 as [->|[_ Hdf]]; [done|].
    rewrite Hdf, nclose_app in H3. cbn in H3. rewrite decide_True in H3 by done. lia.
Qed.

(** What a step of another goroutine leaves untouched in a future whose run
    this goroutine holds. *)
Lemma token_frame i ti j tj F F' f :
  frame i ti F F' → thread_ok F i ti → thread_ok F j tj →
  (∀ g, g ∈ (tokens ti).*1 → g ∉ (tokens tj).*1) →
  f ∈ (tokens tj).*1 →
  ∃ fu fu', F !! f = Some fu ∧ F' !! f = Some fu' ∧
    task fu' = task fu ∧ started fu' = started fu ∧ done fu' = done fu ∧
    state fu' = state fu ∧ result fu' = result fu ∧ err fu' = err fu ∧
    completions fu' = completions fu ∧
    (state fu = Fulfilled → onSuccess fu' = onSuccess fu) ∧
    (state fu = Rejected → onFailure fu' = onFailure fu).
Proof.
  intros Hfr Hi Hj Hdisj Hin.
  destruct (token_started _ _ _ _ Hj Hin) as (fu & Hfu & Hst).
  destruct (Hfr _ _ Hfu) as (fu' & Hfu' & [Rtask Rzero Rmutex Rstarted Rcore Rdone RonS RonF Rterm]).
  assert (Hcore : state fu' = state fu ∧ result fu' = result fu ∧ err fu' = err fu).
  { destruct Rcore as [|[_ Hc]]; [done|]. by apply Hdisj in Hc. }
  destruct Hcore as (Hs & Hr & He).
  exists fu, fu'. repeat split; try done.
  - destruct Rstarted as [|(_ & ? & _)]; congruence.
  - destruct Rdone as [|(Hc & _)]; [done|]. by apply Hdisj in Hc.
  - apply completions_eq; try done.
    + intros Hf. destruct RonS as [|[_ ?]]; done.
    + intros Hf. destruct RonF as [|[_ ?]]; done.
  - intros Hf. destruct RonS as [|[_ ?]]; done.
  - intros Hf. destruct RonF as [|[_ ?]]; done.
Qed.

Lemma hknows_stable i ti j tj F F' tr evs :
  frame i ti F F' → (∀ f fu, F !! f = Some fu → fut_ok f fu) →
  thread_ok F i ti → thread_ok F j tj →
  (∀ g, g ∈ (tokens ti).*1 → g ∉ (tokens tj).*1) →
  Forall (ev_by ti i) evs →
  hknows F tr tj → hknows F' (tr ++ evs) tj.
Proof.
  intros Hfr Hok Hi Hj Hdisj Hev Hk.
  assert (Hq : ∀ g, g ∈ (tokens tj).*1 →
    ntask g evs = 0 ∧ nclose g evs = 0 ∧ fires g evs = [] ∧ nexts g evs = []).
  { intros g Hg. eapply events_quiet; [done|]. intros Hg'. by eapply Hdisj. }
  assert (Htf := λ f, token_frame i ti j tj F F' f Hfr Hi Hj Hdisj).
  assert (Hdn := λ p P, frame_done i ti F F' p P Hfr Hok).
  assert (Hst : ∀ f s, terminal s = true →
    sat F f (λ fu, state fu = s) → sat F' f (λ fu, state fu = s)).
  { intros f s Hs (fu & Hfu & <-).
    destruct (frame_term _ _ _ _ _ _ Hfr Hfu Hs) as (fu' & ? & ? & ? & _).
    by exists fu'. }
  destruct tj; try match goal with r : retval |- _ => destruct r end;
    cbn [hknows] in *; try done.
  all: try (rewrite ntask_app; destruct (Hq f) as (-> & _); [by left|lia]).
  all: try (intros Hs; by apply Hst, Hk).
  all: try (by apply (Hdn f (λ r er, r = _ ∧ er = _))).
  all: try (destruct Hk as [Hk Hfi]; split;
            [|rewrite fires_app, Hfi; by destruct (Hq f) as (_ & _ & -> & _); [by left|]]).
  all: try (destruct (Htf f) as (fu & fu' & Hfu & Hfu' & Ht & Hst' & Hd & Hs & Hr & He & Hc
                                   & HoS & HoF);
            [by left|];
            destruct Hk as (fu0 & ? & Hk); simplify_eq; exists fu'; split; [done|];
            rewrite ?fires_app, ?Hs, ?Hr, ?He, ?Hc;
            try (destruct (Hq f) as (_ & _ & -> & _); [by left|]);
            rewrite ?app_nil_r).
  all: try done.
  all: try (by eapply task_res_frame).
  all: try (destruct Hk as [v Hk]; exists v; by eapply task_res_frame).
  all: try (destruct Hk as [Hk ?]; split; [by eapply task_res_frame|done]).
  all: try (destruct Hk as (Hk1 & Hk2); rewrite HoF by done; done).
  all: try (destruct Hk as (Hk1 & Hk2 & Hk3); rewrite HoS by done; done).
  all: destruct (Htf c) as (fu & fu' & Hfu & Hfu' & Ht & _); [by left|];
       destruct Hk as (fu0 & ? & p & Htask & Hp); simplify_eq; exists fu';
       split; [done|]; exists p; split; [congruence|];
       by apply (Hdn p (λ r er, r = _ ∧ er = _)).
Qed.

Ltac hist_simpl :=
  rewrite ?ntask_app, ?nclose_app, ?fires_app, ?nexts_app, ?cbargs_app;
  cbn [ntask nclose fires nexts cbargs app];
  repeat (rewrite decide_True by done);
  rewrite ?app_nil_r, ?Nat.add_0_r.

Lemma hknows_self i F tr t ef :
  thread_ok F i t → (∀ f fu, F !! f = Some fu → fut_ok f fu) →
  hknows F tr t → (∀ f fu, F !! f = Some fu → fut_hist F tr f fu) →
  exec i F t = Some ef →
  hknows (e_futs ef) (tr ++ e_events ef) (e_thread ef) ∧
  Forall (hknows (e_futs ef) (tr ++ e_events ef)) (e_spawn ef).
Proof.
  intros Hok Hfut Hk Hh H.
  pose proof (exec_frame _ _ _ _ Hok H) as Hfr.
  assert (Htr := λ fu fu' v e, task_res_frame i t F (e_futs ef) fu fu' v e Hfr Hfut).
  destruct t;
    repeat match goal with
    | k : skont |- _ => destruct k
    | r : rkont |- _ => destruct r
    end;
    exec_cases H; ok_inv Hok;
    cbn [e_thread e_futs e_spawn e_events resume_start resume_result hknows] in *;
    rewrite ?app_nil_r.
  all: repeat match goal with
       | |- _ ∧ _ => split
       | |- Forall _ [] => apply Forall_nil_2
       | |- Forall _ (_ :: _) => apply Forall_cons_2
       | |- True => exact I
       end; cbn [hknows].
  all: try done.
  all: repeat match goal with
       | H : _ ∧ _ |- _ => destruct H
       | H : sat _ _ _ |- _ => destruct H as (? & ? & ?)
       | H : ∃ _, _ |- _ => destruct H
       end; simplify_eq.
  all: try solve_sat.
  all: hist_simpl.
  all: try done.
  all: try (intros ?; solve_sat; done).
  all: repeat match goal with
       | H : ?F !! ?f = Some ?x, Hh : ∀ f fu, ?F !! f = Some fu → fut_hist ?F _ f fu |- _ =>
           lazymatch goal with
           | _ : fut_hist F _ f x |- _ => fail
           | _ => pose proof (Hh _ _ H)
           end
       end.
  all: try (unfold fut_hist in *;
            match goal with
            | |- ntask _ _ = 0 => intuition
            | |- fires _ _ = [] =>
                repeat match goal with H : _ ∧ _ |- _ => destruct H end;
                match goal with
                | H : terminal _ = false → fires _ _ = [] |- _ =>
                    apply H; by match goal with Hs : state _ = _ |- _ => rewrite Hs end
                end
            end).
  all: try (eexists; split; [eassumption || (cbn; eassumption)|]; solve_sat; done).
  all: try (try eexists; try split; try (eapply Htr; [reflexivity|]); try eassumption;
            try done; unfold task_res;
            match goal with Ht : task _ = _ |- _ => rewrite Ht end;
            try done; solve_sat;
            match goal with He : err _ = _ |- _ => rewrite He end; done).
  all: unfold completions in *; cbn [state result err onSuccess onFailure set_mutex] in *.
  all: repeat match goal with Hs : state _ = _ |- _ => rewrite Hs in * end.
  all: rewrite <- ?app_assoc; cbn [app fmap list_fmap] in *; try done.
  all: rewrite ?app_nil_r in *.
  all: repeat match goal with Hf : fires _ _ = [] |- _ => rewrite Hf end; try done.
  intros Hs. destruct (Hk Hs) as (? & ? & ?). simplify_eq. by solve_sat.
Qed.

Definition ev_fid (ev : Event) : fid :=
  match ev with
  | EvTask f | EvNext f _ | EvFire _ f _ _ | EvLate _ f _ _ | EvClose f => f
  end.

Lemma exec_events_fut i F t ef :
  exec i F t = Some ef → Forall (λ ev, pc_fut t = Some (ev_fid ev)) (e_events ef).
Proof. intros H. destruct t; exec_cases H; cbn; repeat constructor. Qed.

Lemma unborn_other g evs : Forall (λ ev, ev_fid ev ≠ g) evs → unborn g evs.
Proof.
  unfold unborn. induction 1 as [|ev evs Hev _ IH]; [done|].
  destruct ev; cbn in *; rewrite ?decide_False by done; cbn; tauto.
Qed.

Lemma unborn_app g tr evs : unborn g tr → unborn g evs → unborn g (tr ++ evs).
Proof.
  unfold unborn. intros (T1 & T2 & T3 & T4 & T5) (E1 & E2 & E3 & E4 & E5).
  by rewrite ntask_app, nclose_app, fires_app, nexts_app, cbargs_app,
    T1, T2, T3, T4, T5, E1, E2, E3, E4, E5.
Qed.

Lemma exec_other i F t ef g :
  exec i F t = Some ef → pc_fut t ≠ Some g → g < length F →
  e_futs ef !! g = F !! g.
Proof.
  intros H Hne Hlt. destruct t; exec_cases H; cbn in *; try done.
  all: try (rewrite list_lookup_insert_ne; [done|congruence]).
  by rewrite lookup_app_l.
Qed.

Lemma exec_new i F t ef g fu' :
  thread_ok F i t →
  exec i F t = Some ef → length F ≤ g → e_futs ef !! g = Some fu' →
  ∃ f nx, f < length F ∧ fu' = NewFuture Nil (ThenTask f nx) ∧ e_events ef = [].
Proof.
  intros Hok H Hge Hg. destruct t; exec_cases H; cbn in *.
  all: try (apply lookup_lt_Some in Hg; rewrite ?length_insert in Hg; lia).
  apply lookup_app_Some in Hg as [Hg|[_ Hg]].
  - apply lookup_lt_Some in Hg. lia.
  - apply list_lookup_singleton_Some in Hg as [_ <-]. exists f, nextTask.
    ok_inv Hok. done.
Qed.

Lemma snoc_split {A} (tr : list A) x pre post :
  tr ++ [x] = pre ++ x :: post →
  (post = [] ∧ pre = tr) ∨ (∃ post', post = post' ++ [x] ∧ tr = pre ++ x :: post').
Proof.
  revert pre. induction tr as [|y tr IH]; intros pre Heq.
  - destruct pre as [|z pre]; cbn in Heq.
    + injection Heq as <-. by left.
    + injection Heq as _ Heq. by destruct pre.
  - destruct pre as [|z pre]; cbn in Heq.
    + injection Heq as -> <-. right. by exists tr.
    + injection Heq as -> Heq. destruct (IH _ Heq) as [[-> ->]|(post' & -> & ->)].
      * by left.
      * right. by exists post'.
Qed.

(** Lines 81 and 93: the future enters its terminal state. *)
Lemma fut_hist_commit i t F F' tr g fu s :
  frame i t F F' → (∀ f fu, F !! f = Some fu → fut_ok f fu) →
  fut_hist F tr g fu → state fu = Running → done fu = false →
  outcome_ok F' (set_state s fu) →
  fut_hist F' (tr ++ []) g (set_state s fu).
Proof.
  intros Hfr Hok (H1 & H2 & H3 & H4 & H5 & H6 & H7 & H8 & H9) Hs Hd Hout.
  rewrite app_nil_r. unfold fut_hist. cbn [started done task set_state].
  rewrite Hd in *.
  split; [|split; [|split; [|split; [|split; [|split; [|split; [|split]]]]]]];
    try done.
  - intros _. rewrite H4 by (by rewrite Hs).
    unfold completions. cbn. by destruct s.
  - intros v Hv. destruct (H7 v Hv) as (p & nx & Htask & Hp). exists p, nx.
    split; [done|].
    apply (frame_done i t F F' p (λ r er, er = None ∧ r = v)); done.
  - intros a Ha. destruct (H8 a Ha) as [[? _]|[? _]]; congruence.
  - intros pre post ->. rewrite nclose_app in H3. cbn in H3.
    rewrite decide_True in H3 by done. lia.
Qed.

(** Line 106: the channel is closed. *)
Lemma fut_hist_close i t F F' tr g fu :
  frame i t F F' → (∀ f fu, F !! f = Some fu → fut_ok f fu) →
  fut_hist F tr g fu → terminal (state fu) = true → done fu = false →
  fires g tr = completions fu →
  fut_hist F' (tr ++ [EvClose g]) g (set_done true fu).
Proof.
  intros Hfr Hok (H1 & H2 & H3 & H4 & H5 & H6 & H7 & H8 & H9) Hs Hd Hfi.
  unfold fut_hist. hist_simpl. cbn [started done task state set_done].
  rewrite Hd in *. rewrite H3.
  assert (Hc : completions (set_done true fu) = completions fu) by done.
  split; [|split; [|split; [|split; [|split; [|split; [|split; [|split]]]]]]];
    try done.
  - intros _. eapply outcome_ok_frame; eauto.
  - intros v Hv. destruct (H7 v Hv) as (p & nx & Htask & Hp). exists p, nx.
    split; [done|].
    apply (frame_done i t F F' p (λ r er, er = None ∧ r = v)); done.
  - intros pre post Heq. rewrite Hc.
    apply snoc_split in Heq as [[-> ->]|(post' & -> & ->)]; [done|].
    rewrite nclose_app in H3. cbn in H3. rewrite decide_True in H3 by done. lia.
Qed.

Lemma fut_hist_own i F tr t ef g fu' :
  thread_ok F i t → (∀ f fu, F !! f = Some fu → fut_ok f fu) →
  hknows F tr t → (∀ f fu, F !! f = Some fu → fut_hist F tr f fu) →
  exec i F t = Some ef → pc_fut t = Some g →
  e_futs ef !! g = Some fu' → fut_hist (e_futs ef) (tr ++ e_events ef) g fu'.
Proof.
  intros Hok Hfut Hk Hh H Hpc Hg.
  pose proof (exec_frame _ _ _ _ Hok H) as Hfr.
  destruct t; cbn in Hpc; simplify_eq; exec_cases H; pose proof Hok as Hok'; ok_inv Hok';
    cbn [e_futs e_events hknows] in *.
  all: try (rewrite list_lookup_insert_eq in Hg by (by eapply lookup_lt_Some)).
  all: try (rewrite lookup_app_l in Hg by done).
  all: simplify_eq.
  all: repeat match goal with
       | H : sat _ _ _ |- _ => destruct H as (? & ? & ?)
       | H : _ ∧ _ |- _ => destruct H
       | H : ∃ _, _ |- _ => destruct H
       end; simplify_eq.
  all: try match goal with
       | H : ?F !! ?f = Some ?x |- fut_hist _ (?tr ++ ?evs) ?f ?fu' =>
           let Hold := fresh "Hold" in
           pose proof (Hh _ _ H) as Hold;
           solve [ eapply (fut_hist_frame _ _ F _ tr evs f x fu');
                   [ exact Hfr | exact Hfut | exact Hold | .. ];
                   destruct Hold as (_ & ? & _);
                   unfold completions, cbarg_ok; hist_simpl; cbn; try done;
                   try (by left); try (right; cbn; split; congruence);
                   try (intros ? Hin; by apply elem_of_nil in Hin);
                   try (intros ? Hin; apply list_elem_of_singleton in Hin; subst);
                   repeat match goal with
                          | Hs : state _ = _ |- _ => rewrite Hs in *
                          end;
                   try done; try lia; try (by eauto 6); facts; finish;
                   try (destruct (state x); done) ]
       end.
  - eapply fut_hist_commit; eauto.
    match goal with Hres : task_res _ _ ?v _ |- _ => exists v, (err x) end.
    split; [by eapply task_res_frame|]. cbn. by destruct (err x).
  - eapply fut_hist_commit; eauto.
    exists (result x), None. split; [by eapply task_res_frame|]. done.
  - eapply fut_hist_close; eauto.
  - pose proof (Hh _ _ H) as Hold.
    eapply (fut_hist_frame _ _ F _ tr _ g x x);
      [ exact Hfr | exact Hfut | exact Hold | .. ]; try done.
    + destruct Hold as (_ & ? & _). cbn. lia.
    + by left.
    + cbn. rewrite decide_True by done. intros v Hin.
      apply list_elem_of_singleton in Hin as ->.
      match goal with
      | Ht : task x = ThenTask ?p _, Hp : F !! ?p = Some x2 |- _ => exists p, nextTask
      end. split; [done|]. exists x2. by repeat split.
    + cbn. intros ? Hin. by apply elem_of_nil in Hin.
Qed.

Lemma fut_hist_step i F tr t ef :
  thread_ok F i t → (∀ f fu, F !! f = Some fu → fut_ok f fu) →
  hknows F tr t → (∀ f fu, F !! f = Some fu → fut_hist F tr f fu) →
  (∀ g, length F ≤ g → unborn g tr) →
  exec i F t = Some ef →
  ∀ g fu', e_futs ef !! g = Some fu' → fut_hist (e_futs ef) (tr ++ e_events ef) g fu'.
Proof.
  intros Hok Hfut Hk Hh Hun H g fu' Hg.
  pose proof (exec_frame _ _ _ _ Hok H) as Hfr.
  destruct (decide (pc_fut t = Some g)) as [Hpc|Hpc].
  - by eapply fut_hist_own.
  - assert (Hq : unborn g (e_events ef)).
    { apply unborn_other. eapply Forall_impl; [by eapply exec_events_fut|].
      cbn. intros ev Hev Heq. apply Hpc. by rewrite Hev, Heq. }
    destruct Hq as (E1 & E2 & E3 & E4 & E5).
    destruct (decide (g < length F)) as [Hlt|Hge].
    + rewrite (exec_other _ _ _ _ _ H Hpc Hlt) in Hg.
      pose proof (Hh _ _ Hg) as Hold.
      eapply (fut_hist_frame i t F _ tr _ g fu' fu'); try done.
      * rewrite E1, Nat.add_0_r. by destruct Hold as (_ & ? & _).
      * by left.
      * rewrite E4. intros ? Hin. by apply elem_of_nil in Hin.
      * rewrite E5. intros ? Hin. by apply elem_of_nil in Hin.
    + assert (Hge' : length F ≤ g) by lia.
      destruct (exec_new _ _ _ _ _ _ Hok H Hge' Hg) as (f & nx & Hf & -> & Hev).
      rewrite Hev, app_nil_r. destruct (Hun g Hge') as (T1 & T2 & T3 & T4 & T5).
      unfold fut_hist. rewrite T1, T2, T3, T4, T5. cbn.
      repeat split; try done; try lia.
      1,2: intros ? Hin; by apply elem_of_nil in Hin.
      all: subst tr; rewrite nclose_app in T2; cbn in T2;
        rewrite decide_True in T2 by done; lia.
Qed.

Lemma fut_hist_new F tr g z tk :
  unborn g tr → fut_hist F tr g (NewFuture z tk).
Proof.
  intros (T1 & T2 & T3 & T4 & T5).
  unfold fut_hist. rewrite T1, T2, T3, T4, T5. cbn.
  repeat split; try done; try lia.
  1,2: intros ? Hin; by apply elem_of_nil in Hin.
  all: subst tr; rewrite nclose_app in T2; cbn in T2;
    rewrite decide_True in T2 by done; lia.
Qed.

Lemma exec_events_valid i F t ef :
  thread_ok F i t → exec i F t = Some ef →
  Forall (λ ev, ev_fid ev < length F) (e_events ef).
Proof.
  intros Hok H. destruct t; exec_cases H; ok_inv Hok; cbn;
    repeat constructor; cbn; by eapply lookup_lt_Some.
Qed.

Lemma thread_step_hist c i c' :
  Inv c → Hist c → thread_step c i = Some c' → Hist c'.
Proof.
  intros [Hth Hun Hfu Hown Hhold] [Hht Hhf Hhu] Hstep. unfold thread_step in Hstep.
  destruct (pool c !! i) as [t|] eqn:Hi; [|done]. cbn in Hstep.
  destruct (exec i (futs c) t) as [ef|] eqn:Hex; [|done]. cbn in Hstep.
  injection Hstep as <-.
  pose proof (Hth _ _ Hi) as Hok.
  pose proof (exec_frame _ _ _ _ Hok Hex) as Hfr.
  assert (Hilt : i < length (pool c)) by by eapply lookup_lt_Some.
  destruct (hknows_self _ _ _ _ _ Hok Hfu (Hht _ _ Hi) Hhf Hex) as [Hself Hsp].
  split; cbn.
  - intros j tj Hj.
    apply pool_lookup in Hj as [[-> ->]|[[Hji Hj]|(Hlen & Hlt & Hin)]]; [done| |by eapply Forall_forall in Hsp|done].
    eapply (hknows_stable i t j tj (futs c));
      [exact Hfr|exact Hfu|exact Hok|exact (Hth _ _ Hj)| |by eapply exec_events|exact (Hht _ _ Hj)].
    intros g Hg Hg'. specialize (Hun _ _ _ _ _ Hi Hj Hg Hg'). congruence.
  - exact (fut_hist_step i (futs c) (trace c) t ef Hok Hfu (Hht _ _ Hi) Hhf Hhu Hex).
  - intros g Hg. apply unborn_app.
    + apply Hhu. pose proof (exec_length _ _ _ _ Hex). lia.
    + apply unborn_other. eapply Forall_impl; [by eapply exec_events_valid|].
      cbn. intros ev Hev. pose proof (exec_length _ _ _ _ Hex). lia.
Qed.

Lemma call_hist c k c' : Inv c → Hist c → call c k = Some c' → Hist c'.
Proof.
  intros [Hth Hun Hfu Hown Hhold] [Hht Hhf Hhu] Hcall.
  destruct k; cbn in Hcall;
    try (case_decide; [|done]); injection Hcall as <-; split; cbn; eauto.
  all: try (intros j tj Hj; apply lookup_app_Some in Hj as [Hj|[Hlen Hj]]; [by eauto|];
            by apply list_lookup_singleton_Some in Hj as [Hz <-]).
  - intros j tj Hj. rewrite <- (app_nil_r (trace c)).
    eapply (hknows_stable (S j) (Done RetUnit) j tj (futs c));
      [|exact Hfu| |exact (Hth _ _ Hj)| |by apply Forall_nil_2|exact (Hht _ _ Hj)].
    + intros g fu0 Hg. by apply frame_app.
    + split_ok.
    + cbn. intros g Hg. by apply elem_of_nil in Hg.
  - intros g fu Hg. apply lookup_app_Some in Hg as [Hg|[Hlen Hg]].
    + rewrite <- (app_nil_r (trace c)).
      pose proof (Hhf _ _ Hg) as Hold.
      eapply (fut_hist_frame 0 (Done RetUnit) (futs c) _ _ [] g fu fu); eauto.
      * intros g' fu0 Hg'. by apply frame_app.
      * cbn. destruct Hold as (_ & ? & _). lia.
      * cbn. intros ? Hin. by apply elem_of_nil in Hin.
      * cbn. intros ? Hin. by apply elem_of_nil in Hin.
    + apply list_lookup_singleton_Some in Hg as [Hz <-].
      apply fut_hist_new, Hhu. lia.
  - intros g Hg. apply Hhu. rewrite length_app in Hg. lia.
Qed.

Lemma init_hist : Hist init.
Proof. split; cbn; intros; simplify_list_eq. done. Qed.

Theorem reachable_hist c : reachable c → Inv c ∧ Hist c.
Proof.
  unfold reachable. intros H. apply rtc_nsteps in H as [n H].
  revert c H. induction n as [|n IH]; intros c H.
  - inversion H; subst. split; [apply init_inv|apply init_hist].
  - apply nsteps_inv_r in H as (c0 & H0 & Hs).
    destruct (IH _ H0) as [HI HH]. split; [by eapply step_inv|].
    destruct Hs as [i Hs|k Hs]; eauto using thread_step_hist, call_hist.
Qed.

(** ** Schedules stay within the reachable configurations *)

Lemma reachable_step c c' : reachable c → step c c' → reachable c'.
Proof. intros H Hs. eapply rtc_r; eauto. Qed.

Lemma reachable_rtc c c' : reachable c → rtc step c c' → reachable c'.
Proof. intros H Hs. by eapply rtc_trans. Qed.

Lemma first_step_some c i n c' :
  first_step c i n = Some c' → ∃ j, thread_step c j = Some c'.
Proof.
  revert i. induction n as [|n IH]; intros i H; [done|]. cbn in H.
  destruct (thread_step c i) eqn:E; [|by eauto]. simplify_eq. eauto.
Qed.

Lemma settle_rtc fuel c : rtc step c (settle fuel c).
Proof.
  revert c. induction fuel as [|n IH]; intros c; cbn; [done|].
  destruct (first_step c 0 (length (pool c))) as [c'|] eqn:E; [|done].
  destruct (first_step_some _ _ _ _ E) as [j Hj].
  eapply rtc_l; [by eapply step_thread|]. apply IH.
Qed.

Lemma act_rtc c a c' : act c a = Some c' → rtc step c c'.
Proof.
  destruct a; cbn; intros H.
  - apply rtc_once. by eapply step_call.
  - apply rtc_once. by eapply step_thread.
  - simplify_eq. apply settle_rtc.
Qed.

Lemma play_rtc c s c' : play c s = Some c' → rtc step c c'.
Proof.
  revert c. induction s as [|a s IH]; intros c H; cbn in H.
  - by simplify_eq.
  - destruct (act c a) as [c1|] eqn:E; [|done]. cbn in H.
    eapply rtc_trans; [by eapply act_rtc|by apply IH].
Qed.

Lemma play_reachable s c : play init s = Some c → reachable c.
Proof. apply play_rtc. Qed.

(** Everything but the mutex. *)
Definition same_data (fu fu' : Future) : Prop :=
  set_mutex None fu' = set_mutex None fu.

(** C1.  The task of a future is invoked at most once, however many calls of
    Start are made, directly, by Result or by Then: the history of a reachable
    configuration holds at most one invocation per future.  And a call of Start
    on a future whose [started] is already set has no effect: each of its
    statements (the lock, the check of line 62 and the unlock of line 63)
    records nothing, spawns nothing, allocates nothing and leaves every field
    of every future as it is, the mutex apart, then returns to its caller. *)
Theorem Start_runs_task_once c :
  reachable c →
  (∀ f, ntask f (trace c) ≤ 1) ∧
  (∀ i f k t c',
     pool c !! i = Some t →
     t ∈ [StartLock f k; StartCheck f k; StartBail f k] →
     sat (futs c) f (λ fu, started fu = true) →
     thread_step c i = Some c' →
     trace c' = trace c ∧
     (∃ t', pool c' = <[i := t']> (pool c) ∧
            t' ∈ [StartCheck f k; StartBail f k; resume_start f k]) ∧
     length (futs c') = length (futs c) ∧
     ∀ g fu, futs c !! g = Some fu →
       ∃ fu', futs c' !! g = Some fu' ∧ same_data fu fu').
Proof.
  intros Hr. destruct (reachable_hist _ Hr) as [HI HH]. split.
  - intros f. destruct (decide (f < length (futs c))) as [Hlt|Hge].
    + destruct (lookup_lt_is_Some_2 _ _ Hlt) as [fu Hfu].
      by destruct (hist_fut _ HH _ _ Hfu) as (_ & ? & _).
    + destruct (hist_unborn _ HH f) as (-> & _); lia.
  - intros i f k t c' Hi Ht (fu & Hfu & Hst) Hstep.
    unfold thread_step in Hstep. rewrite Hi in Hstep. cbn in Hstep.
    destruct (exec i (futs c) t) as [ef|] eqn:Hex; [|done]. cbn in Hstep.
    injection Hstep as <-. cbn.
    pose proof (inv_thread _ HI _ _ Hi) as Hok.
    assert (Hsame : ∀ (F : list Future) x, F !! f = Some fu → same_data fu x →
      ∀ g fu0, F !! g = Some fu0 → ∃ fu', <[f:=x]> F !! g = Some fu' ∧ same_data fu0 fu').
    { intros F x HF Hx g fu0 Hg. destruct (decide (g = f)) as [->|Hne].
      - simplify_eq. exists x. split; [|done].
        apply list_lookup_insert_eq. by eapply lookup_lt_Some.
      - exists fu0. by rewrite list_lookup_insert_ne. }
    repeat (apply elem_of_cons in Ht as [->|Ht]); [| | |by apply elem_of_nil in Ht].
    all: exec_cases Hex; ok_inv Hok; cbn; rewrite ?app_nil_r, ?length_insert.
    all: try (rewrite Hst in *; cbn in *; rewrite ?orb_true_r in *; done).
    all: try congruence.
    all: split; [done|split; [eexists; split; [done|set_solver]|split; [done|]]].
    all: try (by apply Hsame).
    all: intros g fu0 Hg; eauto.
    all: exists fu0; done.
Qed.

(** ** The state only moves forward *)

Definition state_step (s s' : State) : Prop :=
  s' = s ∨ (s = Pending ∧ s' = Running) ∨
  (s = Running ∧ s' = Fulfilled) ∨ (s = Running ∧ s' = Rejected).

Lemma exec_state i F t ef :
  thread_ok F i t → exec i F t = Some ef →
  ∀ g fu, F !! g = Some fu →
    ∃ fu', e_futs ef !! g = Some fu' ∧ state_step (state fu) (state fu').
Proof.
  intros Hok H g fu Hg.
  assert (Hins : ∀ f x x', F !! f = Some x → state_step (state x) (state x') →
    ∃ fu', <[f:=x']> F !! g = Some fu' ∧ state_step (state fu) (state fu')).
  { intros f x x' Hf Hx. destruct (decide (g = f)) as [->|Hne].
    - simplify_eq. exists x'. split; [|done].
      apply list_lookup_insert_eq. by eapply lookup_lt_Some.
    - exists fu. rewrite list_lookup_insert_ne by done. split; [done|by left]. }
  destruct t; exec_cases H; ok_inv Hok; cbn [e_futs].
  all: try (exists fu; split; [done || by apply lookup_app_l_Some|by left]).
  all: eapply Hins; [eassumption|]; unfold state_step; cbn; auto.
Qed.

Lemma step_state c c' :
  reachable c → step c c' →
  ∀ f fu, futs c !! f = Some fu →
    ∃ fu', futs c' !! f = Some fu' ∧ state_step (state fu) (state fu').
Proof.
  intros Hr Hs f fu Hf. destruct (reachable_inv _ Hr) as [Hth _ _ _ _].
  destruct Hs as [i Hs|k Hs].
  - unfold thread_step in Hs.
    destruct (pool c !! i) as [t|] eqn:Hi; [|done]. cbn in Hs.
    destruct (exec i (futs c) t) as [ef|] eqn:Hex; [|done]. cbn in Hs.
    injection Hs as <-. cbn. eapply exec_state; eauto.
  - exists fu. split; [|by left].
    destruct k; cbn in Hs; try (case_decide; [|done]); injection Hs as <-; cbn;
      done || by apply lookup_app_l_Some.
Qed.

Lemma steps_terminal c c' :
  reachable c → rtc step c c' →
  ∀ f fu, futs c !! f = Some fu → terminal (state fu) = true →
    ∃ fu', futs c' !! f = Some fu' ∧ state fu' = state fu.
Proof.
  intros Hr Hs. induction Hs as [c|c c1 c2 Hs1 Hs2 IH]; intros f fu Hf Ht.
  - by exists fu.
  - destruct (step_state _ _ Hr Hs1 _ _ Hf) as (fu1 & Hf1 & Hst).
    assert (state fu1 = state fu) as Heq.
    { destruct Hst as [|[[E _]|[[E _]|[E _]]]]; [done|..]; by rewrite E in Ht. }
    destruct (IH (reachable_step _ _ Hr Hs1) _ _ Hf1) as (fu2 & ? & ?);
      [by rewrite Heq|].
    exists fu2. split; [done|congruence].
Qed.

(** C2.  The state of a future only moves forward.  One step of any goroutine
    or caller leaves it as it is or takes it from Pending to Running, from
    Running to Fulfilled or from Running to Rejected; a terminal state is never
    left; and once a call of State has returned Fulfilled or Rejected, the
    future stays in that state and every later read of line 129 yields it
    again. *)
Theorem state_only_moves_forward c :
  reachable c →
  (∀ c' f fu, step c c' → futs c !! f = Some fu →
     ∃ fu', futs c' !! f = Some fu' ∧ state_step (state fu) (state fu')) ∧
  (∀ c' f fu, rtc step c c' → futs c !! f = Some fu → terminal (state fu) = true →
     ∃ fu', futs c' !! f = Some fu' ∧ state fu' = state fu) ∧
  (∀ i f s, pool c !! i = Some (Done (RetState f s)) → terminal s = true →
     ∀ c', rtc step c c' →
       sat (futs c') f (λ fu, state fu = s) ∧
       ∀ j c'', pool c' !! j = Some (StRead f) → thread_step c' j = Some c'' →
         pool c'' !! j = Some (StUnlock f s)).
Proof.
  intros Hr. split; [|split].
  - intros c' f fu Hs Hf. by eapply step_state.
  - intros c' f fu Hs Hf Ht. by eapply steps_terminal.
  - intros i f s Hi Ht c' Hs.
    destruct (reachable_hist _ Hr) as [HI HH].
    destruct (hist_thread _ HH _ _ Hi Ht) as (fu & Hfu & <-).
    destruct (steps_terminal _ _ Hr Hs _ _ Hfu Ht) as (fu' & Hfu' & Hst).
    split; [by exists fu'|].
    intros j c'' Hj Hstep. unfold thread_step in Hstep. rewrite Hj in Hstep.
    cbn in Hstep. rewrite Hfu' in Hstep. cbn in Hstep. injection Hstep as <-. cbn.
    rewrite app_nil_r, Hst. apply list_lookup_insert_eq. by eapply lookup_lt_Some.
Qed.

(** ** Outcomes *)

(** What lines 79-103 store for a task that returned [(v, e)]: the value is
    dropped when the error is not nil, and [result] keeps its zero value. *)
Definition stored (z v : any) (e : error) : any * error :=
  match e with
  | Some _ => (z, e)
  | None => (v, None)
  end.

(** The outcome a future ends with, following the chain of Then closures. *)
Fixpoint outcome (n : nat) (F : list Future) (f : fid) : option (any * error) :=
  match n with
  | 0 => None
  | S n' =>
      fu ← F !! f;
      match task fu with
      | Prim v e => Some (stored (zero fu) v e)
      | ThenTask p nextTask =>
          o ← outcome n' F p;
          match o.2 with
          | Some _ => Some (stored (zero fu) Nil o.2)
          | None => Some (stored (zero fu) (nextTask o.1).1 (nextTask o.1).2)
          end
      end
  end.

Definition expected (F : list Future) (f : fid) : option (any * error) :=
  outcome (S f) F f.

Lemma outcome_correct c :
  reachable c →
  ∀ n f fu, f < n → futs c !! f = Some fu → terminal (state fu) = true →
    outcome n (futs c) f = Some (result fu, err fu).
Proof.
  intros Hr. destruct (reachable_hist _ Hr) as [HI HH].
  induction n as [|n IH]; intros f fu Hlt Hf Ht; [lia|].
  cbn. rewrite Hf. cbn.
  destruct (hist_fut _ HH _ _ Hf) as (_ & _ & _ & _ & _ & Hout & _).
  destruct (Hout Ht) as (v & e & Hres & Hm).
  destruct (inv_fut _ HI _ _ Hf) as (Hp & _ & _ & _ & HFul & HRej).
  assert (Hst : stored (zero fu) v e = (result fu, err fu)).
  { destruct e; destruct Hm as [Hs He]; cbn.
    - destruct (HRej Hs) as [_ ->]. by rewrite He.
    - by rewrite (HFul Hs), He. }
  unfold task_res in Hres. destruct (task fu) as [v0 e0|p nx] eqn:Htask.
  - destruct Hres as [-> ->]. by rewrite Hst.
  - destruct Hres as (pu & Hpu & Hd & Hres).
    destruct (Hp _ _ eq_refl) as [Hpf _].
    destruct (inv_fut _ HI _ _ Hpu) as (_ & _ & Hdt & _).
    destruct (Hdt Hd) as [_ Htp].
    rewrite (IH p pu) by (done || lia). cbn.
    destruct (err pu) eqn:He; destruct Hres as [-> ->]; by rewrite Hst.
Qed.

Lemma expected_correct c f fu :
  reachable c → futs c !! f = Some fu → terminal (state fu) = true →
  expected (futs c) f = Some (result fu, err fu).
Proof. intros. apply outcome_correct; auto. Qed.

(** One link: a terminal child was decided by its parent, which had
    completed. *)
Lemma link_outcome c cf cu p nx :
  reachable c → futs c !! cf = Some cu → task cu = ThenTask p nx →
  terminal (state cu) = true →
  ∃ pu, futs c !! p = Some pu ∧ done pu = true ∧ terminal (state pu) = true ∧
    (result cu, err cu) =
      match err pu with
      | Some _ => (Nil, err pu)
      | None => stored Nil (nx (result pu)).1 (nx (result pu)).2
      end.
Proof.
  intros Hr Hc Htask Ht. destruct (reachable_hist _ Hr) as [HI HH].
  destruct (hist_fut _ HH _ _ Hc) as (_ & _ & _ & _ & _ & Hout & _).
  destruct (Hout Ht) as (v & e & Hres & Hm).
  destruct (inv_fut _ HI _ _ Hc) as (Hp & _ & _ & _ & HFul & HRej).
  destruct (Hp _ _ Htask) as [_ Hz].
  unfold task_res in Hres. rewrite Htask in Hres.
  destruct Hres as (pu & Hpu & Hd & Hres).
  destruct (inv_fut _ HI _ _ Hpu) as (_ & _ & Hdt & _).
  destruct (Hdt Hd) as [_ Htp].
  exists pu. repeat split; try done.
  destruct (err pu) eqn:He; destruct Hres as [-> ->].
  - destruct Hm as [Hs Hm]. destruct (HRej Hs) as [_ ->]. by rewrite Hz, Hm.
  - destruct ((nx (result pu)).2) eqn:E2; destruct Hm as [Hs Hm]; cbn.
    + destruct (HRej Hs) as [_ ->]. by rewrite Hz, Hm.
    + by rewrite (HFul Hs), Hm.
Qed.

Lemma prim_outcome c f fu v e :
  reachable c → futs c !! f = Some fu → task fu = Prim v e →
  terminal (state fu) = true →
  (result fu, err fu) = stored (zero fu) v e.
Proof.
  intros Hr Hf Htask Ht. destruct (reachable_hist _ Hr) as [HI HH].
  destruct (hist_fut _ HH _ _ Hf) as (_ & _ & _ & _ & _ & Hout & _).
  destruct (Hout Ht) as (v' & e' & Hres & Hm).
  destruct (inv_fut _ HI _ _ Hf) as (_ & _ & _ & _ & HFul & HRej).
  unfold task_res in Hres. rewrite Htask in Hres. destruct Hres as [-> ->].
  destruct e; destruct Hm as [Hs Hm]; cbn.
  - destruct (HRej Hs) as [_ ->]. by rewrite Hm.
  - by rewrite (HFul Hs), Hm.
Qed.

Lemma returned_pair c i f v e :
  reachable c → pool c !! i = Some (Done (RetResult f v e)) →
  ∃ fu, futs c !! f = Some fu ∧ done fu = true ∧ terminal (state fu) = true ∧
        result fu = v ∧ err fu = e.
Proof.
  intros Hr Hi. destruct (reachable_hist _ Hr) as [HI HH].
  destruct (hist_thread _ HH _ _ Hi) as (fu & Hfu & Hd & <- & <-).
  destruct (inv_fut _ HI _ _ Hfu) as (_ & _ & Hdt & _).
  destruct (Hdt Hd) as [_ Ht]. by exists fu.
Qed.

Definition type_name (v : any) : string :=
  match v with
  | Nil => "<nil>"
  | Str _ => "string"
  | Int _ => "int"
  end.

Definition append_step (suffix : string) (res : any) : any * error :=
  match res with
  | Str s => (Str (s +:+ suffix), None)
  | _ => (Nil, Some ("expected string, got " +:+ type_name res))
  end.

Definition chain_schedule : list Action :=
  [ Do (CallNew Nil (Str "Start") None);
    Do (CallThen 0 (append_step " → Step 1"));
    Run 0; Run 0; Run 0; Run 0; Run 0;
    Do (CallThen 1 (append_step " → Step 2"));
    Run 2; Run 2; Run 2; Run 2; Run 2;
    Do (CallThen 2 (append_step " → Step 3"));
    Run 4; Run 4; Run 4; Run 4; Run 4;
    Do (CallStart 3);
    Do (CallResult 3);
    Settle 400 ].


(** C5.  A future returned by Then on a parent that fulfils with [v] ends with
    the outcome of the continuation applied to [v]; in general a completed
    future holds the outcome [expected] computed along its chain of closures.
    For the chain of the package's test (seed Start, three links that append
    their step), whatever the indices of its futures and whatever the
    schedule, a call of Result on the last link returns the concatenation in
    link order and a nil error. *)
Theorem Then_takes_outcome_of_continuation c :
  reachable c →
  (∀ p pu cf cu nx,
     futs c !! p = Some pu → state pu = Fulfilled →
     futs c !! cf = Some cu → task cu = ThenTask p nx →
     terminal (state cu) = true →
     (result cu, err cu) = stored Nil (nx (result pu)).1 (nx (result pu)).2) ∧
  (∀ f fu, futs c !! f = Some fu → terminal (state fu) = true →
     expected (futs c) f = Some (result fu, err fu)) ∧
  (∀ a b d f fa fb fd ff,
     futs c !! a = Some fa → task fa = Prim (Str "Start") None →
     futs c !! b = Some fb → task fb = ThenTask a (append_step " → Step 1") →
     futs c !! d = Some fd → task fd = ThenTask b (append_step " → Step 2") →
     futs c !! f = Some ff → task ff = ThenTask d (append_step " → Step 3") →
     ∀ i v e, pool c !! i = Some (Done (RetResult f v e)) →
       v = Str "Start → Step 1 → Step 2 → Step 3" ∧ e = None).
Proof.
  intros Hr. destruct (reachable_hist _ Hr) as [HI HH]. split; [|split].
  - intros p pu cf cu nx Hp Hs Hc Htask Ht.
    destruct (link_outcome _ _ _ _ _ Hr Hc Htask Ht) as (pu' & ? & _ & _ & Heq).
    simplify_eq. destruct (inv_fut _ HI _ _ Hp) as (_ & _ & _ & _ & HFul & _).
    by rewrite (HFul Hs) in Heq.
  - intros f fu Hf Ht. by apply expected_correct.
  - intros a b d f fa fb fd ff Ha Hta Hb Htb Hd Htd Hf Htf i v e Hi.
    destruct (returned_pair _ _ _ _ _ Hr Hi) as (ff' & ? & _ & Htf' & <- & <-).
    simplify_eq.
    destruct (link_outcome _ _ _ _ _ Hr Hf Htf Htf') as (fd' & ? & _ & Htd' & Ef).
    simplify_eq.
    destruct (link_outcome _ _ _ _ _ Hr Hd Htd Htd') as (fb' & ? & _ & Htb' & Ed).
    simplify_eq.
    destruct (link_outcome _ _ _ _ _ Hr Hb Htb Htb') as (fa' & ? & _ & Hta' & Eb).
    simplify_eq.
    pose proof (prim_outcome _ _ _ _ _ Hr Ha Hta Hta') as Ea. cbn in Ea.
    injection Ea as Ra Ea. rewrite Ea, Ra in Eb. cbn in Eb.
    injection Eb as Rb Eb. rewrite Eb, Rb in Ed. cbn in Ed.
    injection Ed as Rd Ed. rewrite Ed, Rd in Ef. cbn in Ef.
    injection Ef as Rf Ef. by rewrite Rf, Ef.
Qed.

(** [descends F a d]: [d] is [a], or was obtained from [a] by calls of Then. *)
Inductive descends (F : list Future) (a : fid) : fid → Prop :=
| desc_self : descends F a a
| desc_then p d du nx :
    descends F a p → F !! d = Some du → task du = ThenTask p nx →
    descends F a d.

Lemma failure_descends c a au v msg d du :
  reachable c → futs c !! a = Some au → task_res (futs c) au v (Some msg) →
  descends (futs c) a d → futs c !! d = Some du →
  terminal (state du) = true →
  state du = Rejected ∧ err du = Some msg ∧ result du = zero du.
Proof.
  intros Hr Ha Hres Hdesc. destruct (reachable_hist _ Hr) as [HI HH].
  revert du. induction Hdesc as [|p d du' nx Hdesc IH Hd Htask]; intros du Hdu Ht.
  - assert (du = au) as -> by congruence.
    destruct (hist_fut _ HH _ _ Ha) as (_ & _ & _ & _ & _ & Hout & _).
    destruct (Hout Ht) as (v' & e' & Hres' & Hm).
    destruct (inv_fut _ HI _ _ Ha) as (_ & _ & _ & _ & _ & HRej).
    assert (e' = Some msg) as ->.
    { unfold task_res in *. destruct (task au) as [|p nx].
      - destruct Hres as [_ <-]. by destruct Hres'.
      - destruct Hres as (pu & Hpu & _ & H1), Hres' as (pu' & Hpu' & _ & H2).
        assert (pu' = pu) as -> by congruence.
        destruct (err pu); destruct H1 as [_ H1], H2 as [_ H2]; congruence. }
    destruct Hm as [Hs He]. destruct (HRej Hs) as [_ Hz]. done.
  - assert (du' = du) as -> by congruence.
    destruct (link_outcome _ _ _ _ _ Hr Hdu Htask Ht) as (pu & Hpu & _ & Htp & Heq).
    destruct (IH _ Hpu Htp) as (Hs & He & _). rewrite He in Heq.
    injection Heq as Hr' He'.
    destruct (inv_fut _ HI _ _ Hdu) as (Hp & _ & _ & Hpend & HFul & HRej).
    destruct (Hp _ _ Htask) as [_ Hz].
    assert (state du = Rejected) as Hsd.
    { destruct (state du) eqn:E; try done. rewrite (HFul eq_refl) in He'. done. }
    by rewrite Hz, Hr'.
Qed.

(** C3.  If the task of a future [a] returns the error [msg], then for every
    future [d] obtained from [a] by calls of Then, directly or through further
    links: the continuation of [d] is never called, [d] can only complete as
    Rejected with that same error and its value left at the zero value, and
    every call of Result on [d] returns that zero value with [msg]. *)
Theorem Then_propagates_failure c :
  reachable c →
  ∀ a au v msg d du,
    futs c !! a = Some au → task_res (futs c) au v (Some msg) →
    descends (futs c) a d → futs c !! d = Some du →
    (d ≠ a → nexts d (trace c) = [] ∧ zero du = Nil) ∧
    (terminal (state du) = true →
       state du = Rejected ∧ err du = Some msg ∧ result du = zero du) ∧
    (∀ i v' e', pool c !! i = Some (Done (RetResult d v' e')) →
       v' = zero du ∧ e' = Some msg).
Proof.
  intros Hr a au v msg d du Ha Hres Hdesc Hd.
  destruct (reachable_hist _ Hr) as [HI HH].
  split; [|split].
  - intros Hne. destruct Hdesc as [|p d du' nx Hdesc Hd' Htask]; [done|].
    assert (du' = du) as -> by congruence.
    destruct (inv_fut _ HI _ _ Hd) as (Hp & _).
    destruct (Hp _ _ Htask) as [_ Hz]. split; [|done].
    destruct (hist_fut _ HH _ _ Hd) as (_ & _ & _ & _ & _ & _ & Hnx & _).
    destruct (nexts d (trace c)) as [|x l] eqn:E; [done|exfalso].
    destruct (Hnx x) as (p' & nx' & Htask' & pu & Hpu & Hdn & He & _); [by left|].
    rewrite Htask in Htask'. injection Htask' as <- <-.
    destruct (inv_fut _ HI _ _ Hpu) as (_ & _ & Hdt & _).
    destruct (Hdt Hdn) as [_ Htp].
    destruct (failure_descends _ _ _ _ _ _ _ Hr Ha Hres Hdesc Hpu Htp) as (_ & He' & _).
    congruence.
  - intros Ht. exact (failure_descends _ _ _ _ _ _ _ Hr Ha Hres Hdesc Hd Ht).
  - intros i v' e' Hi.
    destruct (returned_pair _ _ _ _ _ Hr Hi) as (du' & Hd' & _ & Ht & <- & <-).
    assert (du' = du) as -> by congruence.
    destruct (failure_descends _ _ _ _ _ _ _ Hr Ha Hres Hdesc Hd Ht) as (_ & ? & ?).
    done.
Qed.

(** ** Progress *)

Definition finished (t : Thread) : Prop := ∃ r, t = Done r.

(** A goroutine inside a critical section can always take its next step. *)
Lemma critical_enabled F i t f :
  thread_ok F i t → f ∈ locks t → is_Some (exec i F t).
Proof.
  intros Hok Hin. destruct t; cbn in Hin; try (by apply elem_of_nil in Hin).
  all: ok_inv Hok; cbn; unfold unlock, goto.
  all: repeat match goal with
       | H : ?F !! ?f = Some _ |- context [?F !! ?f] => rewrite H; cbn
       end.
  all: repeat match goal with
       | H : mutex ?x = Some _ |- context [mutex ?x] => rewrite H; cbn
       end.
  all: try done.
  all: repeat case_match; done.
Qed.

(** Why a goroutine cannot move. *)
Lemma stuck_reason F i t :
  thread_ok F i t → exec i F t = None →
  finished t ∨
  (∃ f fu j, F !! f = Some fu ∧ mutex fu = Some j) ∨
  (∃ f r fu, t = ResWait f r ∧ F !! f = Some fu ∧ started fu = true ∧ done fu = false).
Proof.
  intros Hok H. destruct t; cbn in H; unfold lock, unlock, goto in H;
    try (left; by exists r).
  all: pose proof Hok as Hok'; ok_inv Hok'.
  all: repeat match goal with
       | H : _ < length _ |- _ => apply lookup_lt_is_Some_2 in H as [? ?]
       end.
  all: repeat match goal with
       | H : ?F !! ?f = Some _, H' : context [?F !! ?f] |- _ => rewrite H in H'; cbn in H'
       end.
  all: try done.
  all: repeat case_match; try done; simplify_eq.
  all: try match goal with
       | Hm : mutex ?x = Some ?j, Hl : ?F !! ?f = Some ?x |- _ =>
           right; left; by exists f, x, j
       end.
  all: try match goal with
       | Hl : ?F !! ?f = Some ?x |- context [ResWait ?f ?r = ResWait _ _] =>
           right; right; by exists f, r, x
       end.
Qed.

Lemma exec_thread_step c i t ef :
  pool c !! i = Some t → exec i (futs c) t = Some ef →
  ∃ c', thread_step c i = Some c'.
Proof. intros Hi He. unfold thread_step. rewrite Hi. cbn. rewrite He. cbn. eauto. Qed.

Lemma owner_enabled c f fu j :
  Inv c → futs c !! f = Some fu → mutex fu = Some j →
  ∃ c', thread_step c j = Some c'.
Proof.
  intros HI Hf Hm. destruct (inv_owner _ HI _ _ _ Hf Hm) as (t & Hj & Hin).
  destruct (critical_enabled _ _ _ _ (inv_thread _ HI _ _ Hj) Hin) as [ef He].
  by eapply exec_thread_step.
Qed.

(** The goroutine that carries out the run of a future can move, or waits for
    one that can: a task only waits for the parent of its future, which was
    allocated before it. *)
Lemma holder_runs c :
  Inv c →
  ∀ f j t, pool c !! j = Some t → f ∈ (tokens t).*1 →
    ∃ i c', thread_step c i = Some c'.
Proof.
  intros HI f. induction (lt_wf f) as [f _ IH]. intros j t Hj Hin.
  pose proof (inv_thread _ HI _ _ Hj) as Hok.
  destruct (exec j (futs c) t) as [ef|] eqn:He.
  { exists j. by eapply exec_thread_step. }
  destruct (stuck_reason _ _ _ Hok He)
    as [[r ->]|[(g & fu & o & Hg & Hm)|(p & r & pu & -> & Hp & Hst & Hd)]].
  - cbn in Hin. by apply elem_of_nil in Hin.
  - exists o. by eapply owner_enabled.
  - destruct r as [|c' nx]; cbn in Hin; [by apply elem_of_nil in Hin|].
    apply list_elem_of_singleton in Hin as ->.
    destruct Hok as (_ & _ & _ & _ & (cu & Hc & Htask) & _).
    destruct (inv_fut _ HI _ _ Hc) as (Hlt & _).
    destruct (Hlt _ _ Htask) as [Hpf _].
    destruct (inv_holder _ HI _ _ Hp Hst Hd) as (h & th & Hh & Hhin).
    by eapply (IH p Hpf h th).
Qed.

Theorem progress c :
  reachable c →
  ∀ i t, pool c !! i = Some t → ¬ finished t →
    ∃ j c', thread_step c j = Some c'.
Proof.
  intros Hr i t Hi Hnf. pose proof (reachable_inv _ Hr) as HI.
  pose proof (inv_thread _ HI _ _ Hi) as Hok.
  destruct (exec i (futs c) t) as [ef|] eqn:He.
  { exists i. by eapply exec_thread_step. }
  destruct (stuck_reason _ _ _ Hok He)
    as [Hf|[(g & fu & o & Hg & Hm)|(p & r & pu & -> & Hp & Hst & Hd)]].
  - done.
  - exists o. by eapply owner_enabled.
  - destruct (inv_holder _ HI _ _ Hp Hst Hd) as (h & th & Hh & Hhin).
    by eapply holder_runs.
Qed.

(** ** Termination

    A bound on the statements that the goroutines of a configuration can
    still execute.  [GT] bounds what the goroutine of lines 70-107 executes
    apart from firing callbacks. *)
Definition GT : nat := 24.

Definition rk_cost (r : rkont) : nat :=
  match r with
  | RTop => 0
  | RTask _ _ => 11
  end.

Definition sk_cost (k : skont) : nat :=
  match k with
  | STop => 0
  | SResult r => 4 + rk_cost r
  end.

Definition nsucc (F : list Future) (f : fid) : nat :=
  match F !! f with Some fu => length (onSuccess fu) | None => 0 end.

Definition nfail (F : list Future) (f : fid) : nat :=
  match F !! f with Some fu => length (onFailure fu) | None => 0 end.

Definition cost (F : list Future) (t : Thread) : nat :=
  match t with
  | StartLock _ k => 6 + sk_cost k
  | StartCheck _ k => 5 + sk_cost k
  | StartBail _ k => 1 + sk_cost k
  | StartSetStarted _ k => 4 + sk_cost k
  | StartSetRunning _ k => 3 + sk_cost k + GT
  | StartUnlock _ k => 2 + sk_cost k + GT
  | StartGo _ k => 1 + sk_cost k + GT
  | GTask _ => GT
  | GLock _ _ _ => 9
  | GCheck _ _ _ => 8
  | GAbort _ => 1
  | GErrCheck _ _ _ => 7
  | GSetErr _ _ | GSetRes _ _ => 6
  | GSetRejected _ _ | GSetFulfilled _ _ => 5
  | GSnapF f _ => 4 + nfail F f
  | GSnapS f _ => 4 + nsucc F f
  | GUnlockF _ _ cbs | GUnlockS _ _ cbs => 3 + length cbs
  | GFireF _ _ cbs | GFireS _ _ cbs => 2 + length cbs
  | GClose _ => 1
  | ThenErr _ _ _ _ => 11
  | ThenCall _ _ _ => 10
  | ResCheck _ r => 11 + rk_cost r
  | ResWait _ r => 4 + rk_cost r
  | ResLock _ r => 3 + rk_cost r
  | ResRead _ r => 2 + rk_cost r
  | ResUnlock _ r _ _ => 1 + rk_cost r
  | ThenStarted _ _ => 11 + GT
  | ThenNew _ _ => 4 + GT
  | ThenLock _ _ | StLock _ | NxLock _ => 3
  | ThenSetNext _ _ | StRead _ | NxRead _ => 2
  | ThenUnlock _ _ | StUnlock _ _ | NxUnlock _ _ => 1
  | OSLock _ _ | OFLock _ _ => 5
  | OSCheck _ _ | OFCheck _ _ => 4
  | OSAppend _ _ | OFAppend _ _ => 3
  | OSCall _ _ | OFCall _ _ => 2
  | OSUnlock _ | OFUnlock _ => 1
  | Done _ | Crashed => 0
  end.

(** What a future may still cause: its goroutine, if it was not started, and
    one call for each callback queued, until it is terminal. *)
Definition budget (fu : Future) : nat :=
  (if started fu then 0 else GT) +
  (if terminal (state fu) then 0 else length (onSuccess fu) + length (onFailure fu)).

Definition measure (c : Config) : nat :=
  sum_list_with budget (futs c) + sum_list_with (cost (futs c)) (pool c).

Lemma sum_insert {A} (w : A → nat) (l : list A) i x y :
  l !! i = Some y →
  sum_list_with w (<[i:=x]> l) + w y = sum_list_with w l + w x.
Proof.
  revert i. induction l as [|a l IH]; intros [|i] H; simpl in *; try done.
  - injection H as ->. lia.
  - specialize (IH _ H). lia.
Qed.

Lemma sum_ext_except {A} (w w' : A → nat) (l : list A) i y :
  l !! i = Some y → (∀ j t, l !! j = Some t → j ≠ i → w' t = w t) →
  sum_list_with w' l + w y = sum_list_with w l + w' y.
Proof.
  revert i. induction l as [|a l IH]; intros [|i] H Hext; simpl in *; try done.
  - injection H as ->.
    assert (sum_list_with w' l = sum_list_with w l) as ->; [|lia].
    clear IH. assert (Hl : ∀ j t, l !! j = Some t → w' t = w t).
    { intros j t Hj. by apply (Hext (S j) t). }
    clear Hext. induction l as [|b l IH]; [done|]. simpl.
    rewrite (Hl 0 b eq_refl), IH; [done|]. intros j t Hj. by apply (Hl (S j)).
  - rewrite (Hext 0 a eq_refl) by done.
    assert (sum_list_with w' l + w y = sum_list_with w l + w' y); [|lia].
    apply (IH i H). intros j t Hj Hne. apply (Hext (S j) t Hj). lia.
Qed.

Lemma nsucc_insert (F : list Future) f fu fu' :
  F !! f = Some fu → nsucc (<[f:=fu']> F) f = length (onSuccess fu').
Proof.
  intros H. unfold nsucc. rewrite list_lookup_insert_eq; [done|].
  by eapply lookup_lt_Some.
Qed.

Lemma nfail_insert (F : list Future) f fu fu' :
  F !! f = Some fu → nfail (<[f:=fu']> F) f = length (onFailure fu').
Proof.
  intros H. unfold nfail. rewrite list_lookup_insert_eq; [done|].
  by eapply lookup_lt_Some.
Qed.

Lemma exec_measure i F t ef :
  thread_ok F i t → exec i F t = Some ef →
  sum_list_with budget (e_futs ef) + cost (e_futs ef) (e_thread ef) +
    sum_list_with (cost (e_futs ef)) (e_spawn ef)
  < sum_list_with budget F + cost F t.
Proof.
  intros Hok H.
  destruct t;
    repeat match goal with
    | k : skont |- _ => destruct k
    | r : rkont |- _ => destruct r
    end;
    exec_cases H; ok_inv Hok;
    cbn [e_futs e_thread e_spawn sum_list_with cost resume_start resume_result
         sk_cost rk_cost length].
  all: try match goal with
       | H : ?F !! ?f = Some ?x |- context [<[?f:=?x']> ?F] =>
           pose proof (sum_insert budget F f x' x H);
           rewrite ?(nsucc_insert F f x x' H), ?(nfail_insert F f x x' H)
       end.
  all: rewrite ?sum_list_with_app; cbn [sum_list_with].
  all: unfold budget, nsucc, nfail, GT in *;
       cbn [started state onSuccess onFailure terminal set_mutex set_state set_err
            set_result set_done set_next set_started set_onSuccess set_onFailure
            NewFuture] in *.
  all: repeat match goal with
       | H : ?F !! ?f = Some _ |- context [?F !! ?f] => rewrite H
       | H : started _ = _ |- _ => rewrite H in *
       | H : state _ = _ |- _ => rewrite H in *
       end.
  all: cbn [terminal length] in *; rewrite ?length_app in *; cbn [length] in *.
  all: try lia.
  all: match goal with
       | x : Future |- _ => destruct (started x), (terminal (state x)); lia
       end.
Qed.

Lemma cost_stable i ti j tj F F' :
  j ≠ i → frame i ti F F' → thread_ok F j tj → cost F' tj = cost F tj.
Proof.
  intros Hji Hfr Hok. destruct tj; try done; ok_inv Hok; cbn; unfold nsucc, nfail.
  all: match goal with
       | H : _ !! ?f = Some ?x |- _ =>
           destruct (Hfr _ _ H) as (fu' & -> & [_ _ _ _ _ _ RonS RonF _]); rewrite H
       end.
  - destruct RonF as [->|[? _]]; [done|congruence].
  - destruct RonS as [->|[? _]]; [done|congruence].
Qed.

Lemma thread_step_measure c i c' :
  Inv c → thread_step c i = Some c' → measure c' < measure c.
Proof.
  intros HI Hstep. unfold thread_step in Hstep.
  destruct (pool c !! i) as [t|] eqn:Hi; [|done]. cbn in Hstep.
  destruct (exec i (futs c) t) as [ef|] eqn:Hex; [|done]. cbn in Hstep.
  injection Hstep as <-. unfold measure. cbn.
  pose proof (inv_thread _ HI _ _ Hi) as Hok.
  pose proof (exec_frame _ _ _ _ Hok Hex) as Hfr.
  pose proof (exec_measure _ _ _ _ Hok Hex) as Hm.
  rewrite sum_list_with_app.
  pose proof (sum_insert (cost (e_futs ef)) (pool c) i (e_thread ef) t Hi) as H1.
  assert (H2 := sum_ext_except (cost (futs c)) (cost (e_futs ef)) (pool c) i t Hi).
  assert (H3 : ∀ j tj, pool c !! j = Some tj → j ≠ i →
                cost (e_futs ef) tj = cost (futs c) tj).
  { intros j tj Hj Hne. eapply cost_stable; eauto. by eapply inv_thread. }
  specialize (H2 H3). lia.
Qed.


(** One statement of some goroutine. *)
Definition tstep (c c' : Config) : Prop := ∃ i, thread_step c i = Some c'.

Lemma tstep_step c c' : tstep c c' → step c c'.
Proof. intros [i H]. by eapply step_thread. Qed.

(** Whatever the scheduler does, the goroutines of a configuration execute
    at most [measure c] statements, unless callers make new calls. *)
Theorem runs_bounded c c' n :
  reachable c → nsteps tstep n c c' → n + measure c' ≤ measure c.
Proof.
  intros Hr Hn. induction Hn as [c|n c c1 c2 Hs Hn IH]; [lia|].
  destruct Hs as [i Hs].
  pose proof (thread_step_measure _ _ _ (reachable_inv _ Hr) Hs).
  assert (reachable c1) by (eapply rtc_r; [done|by eapply step_thread]).
  specialize (IH ltac:(done)). lia.
Qed.

Lemma first_step_none c i n :
  first_step c i n = None → ∀ j, i ≤ j < i + n → thread_step c j = None.
Proof.
  revert i. induction n as [|n IH]; intros i H j Hj; [lia|]. cbn in H.
  destruct (thread_step c i) eqn:E; [done|].
  destruct (decide (j = i)) as [->|]; [done|]. apply (IH (S i)); [done|lia].
Qed.

Lemma quiescent_finished c :
  reachable c → first_step c 0 (length (pool c)) = None →
  ∀ i t, pool c !! i = Some t → finished t.
Proof.
  intros Hr Hq i t Hi.
  assert (Hdec : finished t ∨ ¬ finished t).
  { destruct t; try (right; by intros [? ?]). left. by eexists. }
  destruct Hdec as [|Hnf]; [done|exfalso].
  destruct (progress _ Hr _ _ Hi Hnf) as (j & c' & Hj).
  destruct (decide (j < length (pool c))) as [Hlt|Hge].
  - rewrite (first_step_none _ _ _ Hq j) in Hj; [done|lia].
  - unfold thread_step in Hj. rewrite lookup_ge_None_2 in Hj; [done|lia].
Qed.

(** Left alone for [measure c] statements, every goroutine has returned. *)
Theorem settle_finishes n c :
  reachable c → measure c ≤ n →
  ∀ i t, pool (settle n c) !! i = Some t → finished t.
Proof.
  revert c. induction n as [|n IH]; intros c Hr Hm; cbn.
  - destruct (first_step c 0 (length (pool c))) as [c'|] eqn:E.
    + destruct (first_step_some _ _ _ _ E) as [j Hj].
      pose proof (thread_step_measure _ _ _ (reachable_inv _ Hr) Hj). lia.
    + by apply quiescent_finished.
  - destruct (first_step c 0 (length (pool c))) as [c'|] eqn:E.
    + destruct (first_step_some _ _ _ _ E) as [j Hj].
      pose proof (thread_step_measure _ _ _ (reachable_inv _ Hr) Hj).
      apply IH; [|lia]. eapply rtc_r; [done|by eapply step_thread].
    + by apply quiescent_finished.
Qed.

(** ** What the calls in flight become *)

(** The goroutine is inside a call of Result on [f] made by a caller, or has
    returned from it. *)
Definition in_Result (f : fid) (t : Thread) : Prop :=
  match t with
  | ResCheck g RTop | ResWait g RTop | ResLock g RTop | ResRead g RTop
  | ResUnlock g RTop _ _
  | StartLock g (SResult RTop) | StartCheck g (SResult RTop)
  | StartBail g (SResult RTop) | StartSetStarted g (SResult RTop)
  | StartSetRunning g (SResult RTop) | StartUnlock g (SResult RTop)
  | StartGo g (SResult RTop)
  | Done (RetResult g _ _) => g = f
  | _ => False
  end.

Lemma exec_in_Result i F t ef f :
  in_Result f t → exec i F t = Some ef → e_thread ef ≠ Crashed →
  in_Result f (e_thread ef).
Proof.
  intros Hin H Hc.
  destruct t;
    repeat match goal with
    | k : skont |- _ => destruct k
    | r : rkont |- _ => destruct r
    | r : retval |- _ => destruct r
    end; cbn in Hin; try done; exec_cases H; cbn in *; done.
Qed.

Lemma reachable_not_crashed c i :
  reachable c → pool c !! i ≠ Some Crashed.
Proof.
  intros Hr Hi.
  destruct (inv_thread _ (reachable_inv _ Hr) _ _ Hi) as (_ & _ & _ & _ & _ & Hk).
  exact Hk.
Qed.

Lemma step_pool c c' i t :
  step c c' → pool c !! i = Some t →
  pool c' !! i = Some t ∨
  ∃ ef, exec i (futs c) t = Some ef ∧ pool c' !! i = Some (e_thread ef).
Proof.
  intros [j Hs|k Hs] Hi.
  - unfold thread_step in Hs.
    destruct (pool c !! j) as [tj|] eqn:Hj; [|done]. cbn in Hs.
    destruct (exec j (futs c) tj) as [ef|] eqn:Hex; [|done]. cbn in Hs.
    injection Hs as <-. cbn.
    assert (i < length (pool c)) by by eapply lookup_lt_Some.
    rewrite lookup_app_l by by rewrite length_insert.
    destruct (decide (i = j)) as [->|Hne].
    + right. exists ef. simplify_eq. split; [done|]. by apply list_lookup_insert_eq.
    + left. by rewrite list_lookup_insert_ne.
  - left. destruct k; cbn in Hs; try (case_decide; [|done]); injection Hs as <-; cbn;
      done || by apply lookup_app_l_Some.
Qed.

Lemma steps_in_Result c c' i t f :
  reachable c → rtc step c c' → pool c !! i = Some t → in_Result f t →
  ∃ t', pool c' !! i = Some t' ∧ in_Result f t'.
Proof.
  intros Hr Hs. revert t Hr.
  induction Hs as [c|c c1 c2 Hs1 Hs2 IH]; intros t Hr Hi Hin.
  - by exists t.
  - pose proof (reachable_step _ _ Hr Hs1) as Hr1.
    destruct (step_pool _ _ _ _ Hs1 Hi) as [H1|(ef & Hex & H1)].
    + by eapply IH.
    + eapply IH; [done|done|]. eapply exec_in_Result; [done..|].
      intros Hc. rewrite Hc in H1. by eapply reachable_not_crashed.
Qed.

Lemma step_started c c' f fu :
  reachable c → step c c' → futs c !! f = Some fu → started fu = true →
  ∃ fu', futs c' !! f = Some fu' ∧ started fu' = true.
Proof.
  intros Hr [j Hs|k Hs] Hf Hst.
  - unfold thread_step in Hs.
    destruct (pool c !! j) as [tj|] eqn:Hj; [|done]. cbn in Hs.
    destruct (exec j (futs c) tj) as [ef|] eqn:Hex; [|done]. cbn in Hs.
    injection Hs as <-. cbn.
    pose proof (inv_thread _ (reachable_inv _ Hr) _ _ Hj) as Hok.
    destruct (exec_frame _ _ _ _ Hok Hex _ _ Hf)
      as (fu' & Hfu' & [_ _ _ Rstarted _ _ _ _ _]).
    exists fu'. split; [done|]. destruct Rstarted as [|(_ & _ & ?)]; congruence.
  - exists fu. split; [|done].
    destruct k; cbn in Hs; try (case_decide; [|done]); injection Hs as <-; cbn;
      done || by apply lookup_app_l_Some.
Qed.

Lemma steps_started c c' f fu :
  reachable c → rtc step c c' → futs c !! f = Some fu → started fu = true →
  ∃ fu', futs c' !! f = Some fu' ∧ started fu' = true.
Proof.
  intros Hr Hs. revert fu. induction Hs as [c|c c1 c2 Hs1 Hs2 IH]; intros fu Hf Hst.
  - by exists fu.
  - destruct (step_started _ _ _ _ Hr Hs1 Hf Hst) as (fu1 & Hf1 & Hst1).
    eapply IH; eauto using reachable_step.
Qed.

(** Every started future completes, and every call of Result returns. *)
Theorem settle_completes n c :
  reachable c → measure c ≤ n →
  reachable (settle n c) ∧
  (∀ i t, pool (settle n c) !! i = Some t → finished t) ∧
  (∀ f fu, futs c !! f = Some fu → started fu = true →
     sat (futs (settle n c)) f (λ fu', done fu' = true)) ∧
  (∀ i t f, pool c !! i = Some t → in_Result f t →
     ∃ v e, pool (settle n c) !! i = Some (Done (RetResult f v e))).
Proof.
  intros Hr Hm.
  assert (Hr' : reachable (settle n c)) by (eapply reachable_rtc; [done|apply settle_rtc]).
  pose proof (settle_finishes n c Hr Hm) as Hfin.
  split; [done|split; [done|split]].
  - intros f fu Hf Hst.
    destruct (steps_started _ _ _ _ Hr (settle_rtc n c) Hf Hst) as (fu' & Hf' & Hst').
    exists fu'. split; [done|].
    destruct (done fu') eqn:Hd; [done|exfalso].
    destruct (inv_holder _ (reachable_inv _ Hr') _ _ Hf' Hst' Hd) as (j & t & Hj & Hin).
    destruct (Hfin _ _ Hj) as [r ->]. cbn in Hin. by apply elem_of_nil in Hin.
  - intros i t f Hi Hin.
    destruct (steps_in_Result _ _ _ _ _ Hr (settle_rtc n c) Hi Hin) as (t' & Hi' & Hin').
    destruct (Hfin _ _ Hi') as [r ->]. destruct r; cbn in Hin'; try done.
    subst. eauto.
Qed.

(** ** Completed futures are frozen *)

Lemma step_frozen c c' f fu :
  reachable c → step c c' → futs c !! f = Some fu → terminal (state fu) = true →
  ∃ fu', futs c' !! f = Some fu' ∧ state fu' = state fu ∧
    result fu' = result fu ∧ err fu' = err fu ∧
    completions fu' = completions fu ∧ (done fu = true → done fu' = true).
Proof.
  intros Hr [j Hs|k Hs] Hf Ht.
  - unfold thread_step in Hs.
    destruct (pool c !! j) as [tj|] eqn:Hj; [|done]. cbn in Hs.
    destruct (exec j (futs c) tj) as [ef|] eqn:Hex; [|done]. cbn in Hs.
    injection Hs as <-. cbn.
    pose proof (inv_thread _ (reachable_inv _ Hr) _ _ Hj) as Hok.
    destruct (frame_term j tj (futs c) (e_futs ef) f fu) as (fu' & ? & _ & ?);
      [exact (exec_frame _ _ _ _ Hok Hex)|done|done|].
    by exists fu'.
  - exists fu. split; [|done].
    destruct k; cbn in Hs; try (case_decide; [|done]); injection Hs as <-; cbn;
      done || by apply lookup_app_l_Some.
Qed.

Lemma steps_frozen c c' f fu :
  reachable c → rtc step c c' → futs c !! f = Some fu → terminal (state fu) = true →
  ∃ fu', futs c' !! f = Some fu' ∧ state fu' = state fu ∧
    result fu' = result fu ∧ err fu' = err fu ∧
    completions fu' = completions fu ∧ (done fu = true → done fu' = true).
Proof.
  intros Hr Hs. revert fu.
  induction Hs as [c|c c1 c2 Hs1 Hs2 IH]; intros fu Hf Ht.
  - by exists fu.
  - destruct (step_frozen _ _ _ _ Hr Hs1 Hf Ht) as (fu1 & Hf1 & Es & Er & Ee & Ec & Ed).
    destruct (IH (reachable_step _ _ Hr Hs1) fu1 Hf1) as (fu2 & Hf2 & Es2 & Er2 & Ee2 & Ec2 & Ed2);
      [by rewrite Es|].
    exists fu2. split; [done|]. repeat split; try congruence. auto.
Qed.

(** ** Result *)

(** C4.  Result (lines 112-123) on a reachable configuration: the check of line 114
    calls Start exactly when [started] is false; the receive of line 118 does
    not proceed while the channel is open; whatever the goroutines have done
    so far, the call returns once they are left to run; the pair returned is
    the stored outcome, which is the outcome [expected] for the future, with the
    error nil exactly when the future is Fulfilled and the value left at its
    zero value when it is Rejected; and a later return of Result on the same
    future, by any goroutine, gives the same pair. *)
Theorem Result_returns_outcome c :
  reachable c →
  (∀ i f r fu c',
     pool c !! i = Some (ResCheck f r) → futs c !! f = Some fu →
     thread_step c i = Some c' →
     pool c' !! i =
       Some (if started fu then ResWait f r else StartLock f (SResult r))) ∧
  (∀ i f r, pool c !! i = Some (ResWait f r) →
     sat (futs c) f (λ fu, started fu = true ∧
       (done fu = false → thread_step c i = None))) ∧
  (∀ n i t f, measure c ≤ n → pool c !! i = Some t → in_Result f t →
     ∃ v e, pool (settle n c) !! i = Some (Done (RetResult f v e)) ∧
            expected (futs (settle n c)) f = Some (v, e)) ∧
  (∀ i f v e, pool c !! i = Some (Done (RetResult f v e)) →
     sat (futs c) f (λ fu,
       done fu = true ∧ v = result fu ∧ e = err fu ∧
       expected (futs c) f = Some (v, e) ∧
       ((state fu = Fulfilled ∧ e = None) ∨
        (state fu = Rejected ∧ e ≠ None ∧ v = zero fu)))) ∧
  (∀ i j f v e v' e' c',
     pool c !! i = Some (Done (RetResult f v e)) → rtc step c c' →
     pool c' !! j = Some (Done (RetResult f v' e')) → v' = v ∧ e' = e).
Proof.
  intros Hr. destruct (reachable_hist _ Hr) as [HI HH].
  split; [|split; [|split; [|split]]].
  - intros i f r fu c' Hi Hf Hstep. unfold thread_step in Hstep.
    rewrite Hi in Hstep. cbn in Hstep. rewrite Hf in Hstep. cbn in Hstep.
    assert (i < length (pool c)) by by eapply lookup_lt_Some.
    destruct (started fu); cbn in Hstep; injection Hstep as <-; cbn;
      rewrite app_nil_r; by apply list_lookup_insert_eq.
  - intros i f r Hi. pose proof (inv_thread _ HI _ _ Hi) as Hok. ok_inv Hok.
    eexists. split; [eassumption|]. split; [done|].
    intros Hd. unfold thread_step. rewrite Hi. cbn.
    match goal with H : futs c !! f = Some _ |- _ => rewrite H end. cbn.
    by rewrite Hd.
  - intros n i t f Hn Hi Hin.
    destruct (settle_completes n c Hr Hn) as (Hr' & _ & _ & Hres).
    destruct (Hres _ _ _ Hi Hin) as (v & e & Hi').
    exists v, e. split; [done|].
    destruct (returned_pair _ _ _ _ _ Hr' Hi') as (fu & Hfu & _ & Ht & <- & <-).
    by apply expected_correct.
  - intros i f v e Hi.
    destruct (returned_pair _ _ _ _ _ Hr Hi) as (fu & Hfu & Hd & Ht & <- & <-).
    exists fu. split; [done|]. repeat split; try done.
    + by apply expected_correct.
    + destruct (inv_fut _ HI _ _ Hfu) as (_ & _ & _ & _ & HFul & HRej).
      destruct (state fu) eqn:E; try done; [left|right].
      * by rewrite HFul.
      * destruct (HRej eq_refl). done.
  - intros i j f v e v' e' c' Hi Hs Hj.
    destruct (returned_pair _ _ _ _ _ Hr Hi) as (fu & Hfu & _ & Ht & <- & <-).
    destruct (returned_pair _ _ _ _ _ (reachable_rtc _ _ Hr Hs) Hj)
      as (fu' & Hfu' & _ & _ & <- & <-).
    destruct (steps_frozen _ _ _ _ Hr Hs Hfu Ht) as (fu2 & Hfu2 & _ & Er & Ee & _).
    assert (fu2 = fu') as -> by congruence. done.
Qed.

(** ** The guard of the completion path *)

Lemma exec_leaves_Running i F t ef f fu fu' :
  thread_ok F i t → exec i F t = Some ef →
  F !! f = Some fu → e_futs ef !! f = Some fu' →
  state fu = Running → state fu' ≠ Running →
  ((∃ e, t = GSetRejected f e) ∨ (∃ v, t = GSetFulfilled f v)) ∧
  f ∈ (tokens t).*1.
Proof.
  intros Hok H Hf Hf' Hs Hs'.
  assert (Hsame : ∀ g x x', F !! g = Some x →
            <[g:=x']> F !! f = Some fu' → state x' = state x → False).
  { intros g x x' Hg Hl Hx. destruct (decide (f = g)) as [->|Hne].
    - rewrite list_lookup_insert_eq in Hl by by eapply lookup_lt_Some.
      congruence.
    - rewrite list_lookup_insert_ne in Hl by done. congruence. }
  destruct t; exec_cases H; cbn [e_futs] in Hf'.
  all: try (exfalso; simplify_eq; congruence).
  all: try (exfalso; eapply Hsame; [|eassumption|]; [eassumption|reflexivity]).
  all: try (exfalso; apply lookup_app_Some in Hf' as [Hf'|[Hge Hf']];
            [simplify_eq; congruence|apply lookup_lt_Some in Hf; lia]).
  all: destruct (decide (f0 = f)) as [->|Hne];
    [|rewrite list_lookup_insert_ne in Hf' by done; simplify_eq; congruence].
  all: ok_inv Hok; simplify_eq; cbn in *; try congruence.
  all: split; [eauto|set_solver].
Qed.

Lemma stuck_finished c :
  reachable c → (∀ j, thread_step c j = None) →
  ∀ i t, pool c !! i = Some t → finished t.
Proof.
  intros Hr Hq i t Hi.
  assert (Hdec : finished t ∨ ¬ finished t).
  { destruct t; try (right; by intros [? ?]). left. by eexists. }
  destruct Hdec as [|Hnf]; [done|exfalso].
  destruct (progress _ Hr _ _ Hi Hnf) as (j & c' & Hj). by rewrite Hq in Hj.
Qed.

(** Where every goroutine has returned, the futures that had been started are
    complete and the calls of Result that were in flight have returned. *)
Lemma run_completes c c' :
  reachable c → rtc step c c' →
  (∀ i t, pool c' !! i = Some t → finished t) →
  (∀ f fu, futs c !! f = Some fu → started fu = true →
     sat (futs c') f (λ fu', done fu' = true) ∧ nclose f (trace c') = 1) ∧
  (∀ i t f, pool c !! i = Some t → in_Result f t →
     ∃ v e, pool c' !! i = Some (Done (RetResult f v e))).
Proof.
  intros Hr Hs Hfin.
  assert (Hr' : reachable c') by by eapply reachable_rtc.
  destruct (reachable_hist _ Hr') as [HI' HH']. split.
  - intros f fu Hf Hst.
    destruct (steps_started _ _ _ _ Hr Hs Hf Hst) as (fu' & Hf' & Hst').
    assert (done fu' = true) as Hd.
    { destruct (done fu') eqn:Hd; [done|exfalso].
      destruct (inv_holder _ HI' _ _ Hf' Hst' Hd) as (j & t & Hj & Hin).
      destruct (Hfin _ _ Hj) as [r ->]. cbn in Hin. by apply elem_of_nil in Hin. }
    split; [by exists fu'|].
    destruct (hist_fut _ HH' _ _ Hf') as (_ & _ & Hc & _). by rewrite Hd in Hc.
  - intros i t f Hi Hin.
    destruct (steps_in_Result _ _ _ _ _ Hr Hs Hi Hin) as (t' & Hi' & Hin').
    destruct (Hfin _ _ Hi') as [r ->]. destruct r; cbn in Hin'; try done.
    subst. eauto.
Qed.

Lemma rtc_tstep_step c c' : rtc tstep c c' → rtc step c c'.
Proof.
  induction 1 as [|c c1 c2 H1 _ IH]; [done|].
  eapply rtc_l; [by apply tstep_step|done].
Qed.

(** C10.  The guard of line 74 never fires: a goroutine that reaches it holds the
    mutex of a future in state Running, and goes on to complete it; no
    goroutine is ever in the aborting branch, and none is stopped by the
    runtime (unlock of an unlocked mutex, close of a closed channel).  A
    statement that takes a future out of Running is line 81 or line 93 of the
    goroutine that carries the future's run, and no other goroutine carries
    it.  The channel of a future is closed at most once, and the goroutine about
    to close it finds it open.  Whatever the scheduler does, the goroutines
    execute no more than [measure c] statements, and when none of them can
    move, every one has returned: each future that had been started is complete
    with its channel closed exactly once, and each call of Result has
    returned; [settle] is one such schedule. *)
Theorem completion_guard_never_fails c :
  reachable c →
  (∀ i f v e, pool c !! i = Some (GCheck f v e) →
     sat (futs c) f (λ fu, state fu = Running ∧ mutex fu = Some i) ∧
     ∃ c', thread_step c i = Some c' ∧ pool c' !! i = Some (GErrCheck f v e)) ∧
  (∀ i t, pool c !! i = Some t → t ≠ Crashed ∧ ∀ f, t ≠ GAbort f) ∧
  (∀ i t c' f fu fu',
     pool c !! i = Some t → thread_step c i = Some c' →
     futs c !! f = Some fu → futs c' !! f = Some fu' →
     state fu = Running → state fu' ≠ Running →
     ((∃ e, t = GSetRejected f e) ∨ (∃ v, t = GSetFulfilled f v)) ∧
     ∀ j tj, pool c !! j = Some tj → f ∈ (tokens tj).*1 → j = i) ∧
  (∀ f, nclose f (trace c) ≤ 1) ∧
  (∀ i f, pool c !! i = Some (GClose f) → sat (futs c) f (λ fu, done fu = false)) ∧
  (∀ n c', nsteps tstep n c c' → n ≤ measure c) ∧
  (∀ c', rtc tstep c c' → (∀ j, thread_step c' j = None) →
     (∀ i t, pool c' !! i = Some t → finished t) ∧
     (∀ f fu, futs c !! f = Some fu → started fu = true →
        sat (futs c') f (λ fu', done fu' = true) ∧ nclose f (trace c') = 1) ∧
     (∀ i t f, pool c !! i = Some t → in_Result f t →
        ∃ v e, pool c' !! i = Some (Done (RetResult f v e)))) ∧
  (∀ n, measure c ≤ n →
     rtc tstep c (settle n c) ∧ ∀ j, thread_step (settle n c) j = None).
Proof.
  intros Hr. destruct (reachable_hist _ Hr) as [HI HH].
  split; [|split; [|split; [|split; [|split; [|split; [|split]]]]]].
  - intros i f v e Hi. pose proof (inv_thread _ HI _ _ Hi) as Hok.
    destruct Hok as (Hl & Htk & _). cbn in Hl, Htk.
    apply Forall_cons in Hl as [(fu & Hfu & Hmx) _].
    apply Forall_cons in Htk as [(fu' & Hfu' & _ & _ & Hs & _) _]. cbn in Hfu'.
    assert (fu' = fu) as -> by congruence.
    split; [by exists fu|].
    unfold thread_step. rewrite Hi. cbn. rewrite Hfu. cbn. rewrite Hs. cbn.
    eexists. split; [done|]. cbn. rewrite app_nil_r.
    apply list_lookup_insert_eq. by eapply lookup_lt_Some.
  - intros i t Hi. pose proof (inv_thread _ HI _ _ Hi) as (_ & _ & _ & _ & _ & Hk).
    split; [by intros ->|]. intros f ->. exact Hk.
  - intros i t c' f fu fu' Hi Hstep Hf Hf' Hs Hs'.
    unfold thread_step in Hstep. rewrite Hi in Hstep. cbn in Hstep.
    destruct (exec i (futs c) t) as [ef|] eqn:Hex; [|done]. cbn in Hstep.
    injection Hstep as <-. cbn in Hf'.
    destruct (exec_leaves_Running _ _ _ _ _ _ _ (inv_thread _ HI _ _ Hi) Hex Hf Hf' Hs Hs')
      as [Ht Htok].
    split; [done|]. intros j tj Hj Hin. by eapply (inv_unique _ HI j i).
  - intros f. destruct (decide (f < length (futs c))) as [Hlt|Hge].
    + destruct (lookup_lt_is_Some_2 _ _ Hlt) as [fu Hfu].
      destruct (hist_fut _ HH _ _ Hfu) as (_ & _ & Hc & _).
      rewrite Hc. destruct (done fu); lia.
    + destruct (hist_unborn _ HH f) as (_ & -> & _); lia.
  - intros i f Hi. pose proof (inv_thread _ HI _ _ Hi) as (_ & Htk & _).
    cbn in Htk. apply Forall_cons in Htk as [(fu & Hfu & _ & Hd & _) _].
    by exists fu.
  - intros n c' Hn. pose proof (runs_bounded _ _ _ Hr Hn). lia.
  - intros c' Hs Hq.
    assert (Hr' : reachable c') by (eapply reachable_rtc; [done|by apply rtc_tstep_step]).
    pose proof (stuck_finished _ Hr' Hq) as Hfin.
    split; [done|]. by apply run_completes; [|apply rtc_tstep_step|].
  - intros n Hn. split.
    + clear Hn Hr HI HH. revert c. induction n as [|n IH]; intros c; cbn; [done|].
      destruct (first_step c 0 (length (pool c))) as [c1|] eqn:E; [|done].
      eapply rtc_l; [|apply IH].
      destruct (first_step_some _ _ _ _ E) as (j & ?). by exists j.
    + intros j.
      destruct (thread_step (settle n c) j) as [c2|] eqn:E; [exfalso|done].
      assert (Hr' : reachable (settle n c))
        by (eapply reachable_rtc; [done|apply settle_rtc]).
      assert (pool (settle n c) !! j ≠ None) as Hj.
      { unfold thread_step in E. by destruct (pool (settle n c) !! j). }
      destruct (pool (settle n c) !! j) as [t|] eqn:Et; [|done].
      destruct (settle_finishes n c Hr Hn _ _ Et) as [r ->].
      unfold thread_step in E. rewrite Et in E. done.
Qed.

(** ** The completion path *)

(** The statements that call a callback of a list: lines 88-90 and 100-102. *)
Lemma exec_fire i F t ef j f cb a :
  exec i F t = Some ef → EvFire j f cb a ∈ e_events ef →
  j = i ∧ e_events ef = [EvFire i f cb a] ∧ e_futs ef = F ∧
  ((∃ e rest, t = GFireF f e (cb :: rest) ∧ a = ArgErr e ∧
      e_thread ef = GFireF f e rest) ∨
   (∃ v rest, t = GFireS f v (cb :: rest) ∧ a = ArgVal v ∧
      e_thread ef = GFireS f v rest)).
Proof.
  intros H Hin. destruct t; exec_cases H; cbn in Hin |- *;
    try (by apply elem_of_nil in Hin);
    apply list_elem_of_singleton in Hin; try done; simplify_eq;
    (split; [done|split; [done|split; [done|]]]); [left|right]; eauto.
Qed.

(** The statement that closes the channel: line 106. *)
Lemma exec_close i F t ef f :
  exec i F t = Some ef → EvClose f ∈ e_events ef →
  t = GClose f ∧ e_events ef = [EvClose f] ∧
  ∃ fu, F !! f = Some fu ∧ done fu = false ∧ e_futs ef = <[f := set_done true fu]> F.
Proof.
  intros H Hin. destruct t; exec_cases H; cbn in Hin |- *;
    try (by apply elem_of_nil in Hin);
    apply list_elem_of_singleton in Hin; try done; simplify_eq.
  split; [done|split; [done|]]. eauto.
Qed.

(** The callback lists only grow, at the end, by the appends of lines 14
    and 28 of the registration methods. *)
Lemma exec_lists i F t ef g fu :
  exec i F t = Some ef → F !! g = Some fu →
  ∃ fu', e_futs ef !! g = Some fu' ∧
    (onSuccess fu' = onSuccess fu ∨
     ∃ cb, t = OSAppend g cb ∧ onSuccess fu' = onSuccess fu ++ [cb]) ∧
    (onFailure fu' = onFailure fu ∨
     ∃ cb, t = OFAppend g cb ∧ onFailure fu' = onFailure fu ++ [cb]).
Proof.
  intros H Hg.
  assert (Hins : ∀ f x x', F !! f = Some x →
    onSuccess x' = onSuccess x → onFailure x' = onFailure x →
    ∃ fu', <[f:=x']> F !! g = Some fu' ∧
      (onSuccess fu' = onSuccess fu ∨
       ∃ cb, t = OSAppend g cb ∧ onSuccess fu' = onSuccess fu ++ [cb]) ∧
      (onFailure fu' = onFailure fu ∨
       ∃ cb, t = OFAppend g cb ∧ onFailure fu' = onFailure fu ++ [cb])).
  { intros f x x' Hf H1 H2. destruct (decide (g = f)) as [->|Hne].
    - exists x'. rewrite list_lookup_insert_eq by by eapply lookup_lt_Some.
      assert (x = fu) as -> by congruence. auto.
    - exists fu. rewrite list_lookup_insert_ne by done. auto. }
  destruct t; exec_cases H; cbn [e_futs].
  all: try (eapply Hins; [eassumption|reflexivity|reflexivity]).
  all: try (exists fu; split; [done || by apply lookup_app_l_Some|auto]).
  all: destruct (decide (g = f)) as [->|Hne];
    [|exists fu; rewrite list_lookup_insert_ne by done; auto].
  all: eexists; rewrite list_lookup_insert_eq by (by eapply lookup_lt_Some);
    (split; [done|]); assert (fu0 = fu) as -> by congruence; cbn.
  all: split; first [by left|right; by eexists].
Qed.

Lemma thread_step_inv_parts c i c' :
  thread_step c i = Some c' →
  ∃ t ef, pool c !! i = Some t ∧ exec i (futs c) t = Some ef ∧
    futs c' = e_futs ef ∧ trace c' = trace c ++ e_events ef ∧
    pool c' = <[i := e_thread ef]> (pool c) ++ e_spawn ef.
Proof.
  unfold thread_step. intros H.
  destruct (pool c !! i) as [t|] eqn:Hi; [|done]. cbn in H.
  destruct (exec i (futs c) t) as [ef|] eqn:Hex; [|done]. cbn in H.
  injection H as <-. by exists t, ef.
Qed.

Lemma not_locked_by c i t f fu :
  Inv c → pool c !! i = Some t → f ∉ locks t → futs c !! f = Some fu →
  mutex fu ≠ Some i.
Proof.
  intros HI Hi Hl Hf Hm.
  destruct (inv_owner _ HI _ _ _ Hf Hm) as (t' & Hi' & Hin).
  assert (t' = t) as -> by congruence. done.
Qed.

Lemma step_lists c c' f fu :
  reachable c → step c c' → futs c !! f = Some fu →
  ∃ fu', futs c' !! f = Some fu' ∧
    (onSuccess fu' = onSuccess fu ∨ ∃ cb, onSuccess fu' = onSuccess fu ++ [cb]) ∧
    (onFailure fu' = onFailure fu ∨ ∃ cb, onFailure fu' = onFailure fu ++ [cb]) ∧
    (terminal (state fu) = true → completions fu' = completions fu).
Proof.
  intros Hr Hs Hf.
  assert (Hfz : terminal (state fu) = true →
    ∃ fu', futs c' !! f = Some fu' ∧ completions fu' = completions fu).
  { intros Ht. destruct (step_frozen _ _ _ _ Hr Hs Hf Ht) as (fu' & ? & _ & _ & _ & ? & _).
    by exists fu'. }
  destruct Hs as [i Hs|k Hs].
  - destruct (thread_step_inv_parts _ _ _ Hs) as (t & ef & Hi & Hex & Hfs & _).
    destruct (exec_lists _ _ _ _ _ _ Hex Hf) as (fu' & Hf' & [HS|[cb [_ HS]]] & [HF|[cb' [_ HF]]]).
    all: rewrite <- Hfs in Hf'; exists fu'; split; [done|].
    all: split; [eauto|split; [eauto|]].
    all: intros Ht; destruct (Hfz Ht) as (fu2 & ? & ?); congruence.
  - exists fu. split; [|auto].
    destruct k; cbn in Hs; try (case_decide; [|done]); injection Hs as <-; cbn;
      done || by apply lookup_app_l_Some.
Qed.

(** C6.  The completion path (lines 70-107).  The list to fire is read under the
    mutex, after the terminal state is set (lines 83-84, 95-96).  Each call of a
    callback of the list is made by the completing goroutine, which does not
    hold the mutex; it changes no field, the future is in its terminal state
    with the channel still open, the argument is the stored outcome, and the
    calls made so far followed by this one are a prefix of [completions].  The
    channel is closed when the calls made are exactly [completions]; it is
    closed once, and in the history every call of a list callback of the future
    comes before the close.  Hence where the channel is closed, and so where a
    goroutine has passed the receive of line 118, the state is terminal, the
    calls made are [completions], and state, outcome, list and calls stay as
    they are from then on.  The lists only grow at the end, one callback at a
    time, and the list of a terminal future that its completion fires does not
    change. *)
Theorem completion_fires_then_signals c :
  reachable c →
  (∀ i f v c', pool c !! i = Some (GSnapS f v) → thread_step c i = Some c' →
     sat (futs c) f (λ fu, mutex fu = Some i ∧ state fu = Fulfilled ∧
       result fu = v ∧ pool c' !! i = Some (GUnlockS f v (onSuccess fu)))) ∧
  (∀ i f e c', pool c !! i = Some (GSnapF f e) → thread_step c i = Some c' →
     sat (futs c) f (λ fu, mutex fu = Some i ∧ state fu = Rejected ∧
       err fu = e ∧ pool c' !! i = Some (GUnlockF f e (onFailure fu)))) ∧
  (∀ i c' j f cb a,
     thread_step c i = Some c' → trace c' = trace c ++ [EvFire j f cb a] →
     j = i ∧ futs c' = futs c ∧
     sat (futs c) f (λ fu, mutex fu ≠ Some i ∧ terminal (state fu) = true ∧
       done fu = false ∧ cbarg_ok fu a ∧
       ∃ rest, completions fu = fires f (trace c) ++ (cb, a) :: rest)) ∧
  (∀ i c' f,
     thread_step c i = Some c' → trace c' = trace c ++ [EvClose f] →
     sat (futs c) f (λ fu, done fu = false ∧ terminal (state fu) = true ∧
       fires f (trace c) = completions fu ∧
       futs c' = <[f := set_done true fu]> (futs c))) ∧
  (∀ f fu, futs c !! f = Some fu →
     nclose f (trace c) = (if done fu then 1 else 0) ∧
     ∀ pre post, trace c = pre ++ EvClose f :: post →
       fires f pre = completions fu ∧ fires f post = []) ∧
  (∀ f fu, futs c !! f = Some fu → done fu = true →
     terminal (state fu) = true ∧ fires f (trace c) = completions fu ∧
     ∀ c', rtc step c c' →
       ∃ fu', futs c' !! f = Some fu' ∧ done fu' = true ∧
         state fu' = state fu ∧ result fu' = result fu ∧ err fu' = err fu ∧
         completions fu' = completions fu ∧
         fires f (trace c') = fires f (trace c)) ∧
  (∀ i f r c', pool c !! i = Some (ResWait f r) → thread_step c i = Some c' →
     sat (futs c) f (λ fu, done fu = true) ∧ futs c' = futs c ∧
     pool c' !! i = Some (ResLock f r)) ∧
  (∀ c' f fu, step c c' → futs c !! f = Some fu →
     ∃ fu', futs c' !! f = Some fu' ∧
       (onSuccess fu' = onSuccess fu ∨ ∃ cb, onSuccess fu' = onSuccess fu ++ [cb]) ∧
       (onFailure fu' = onFailure fu ∨ ∃ cb, onFailure fu' = onFailure fu ++ [cb]) ∧
       (terminal (state fu) = true → completions fu' = completions fu)).
Proof.
  intros Hr. destruct (reachable_hist _ Hr) as [HI HH].
  split; [|split; [|split; [|split; [|split; [|split; [|split]]]]]].
  - intros i f v c' Hi Hstep.
    pose proof (inv_thread _ HI _ _ Hi) as Hok.
    pose proof (hist_thread _ HH _ _ Hi) as [(fu & Hfu & Hs & Hv) _].
    destruct Hok as (Hl & _). cbn in Hl.
    apply Forall_cons in Hl as [(fu' & Hfu' & Hmx) _].
    assert (fu' = fu) as -> by congruence.
    exists fu. split; [done|]. repeat split; try done.
    unfold thread_step in Hstep. rewrite Hi in Hstep. cbn in Hstep.
    rewrite Hfu in Hstep. cbn in Hstep. injection Hstep as <-. cbn.
    rewrite app_nil_r. apply list_lookup_insert_eq. by eapply lookup_lt_Some.
  - intros i f e c' Hi Hstep.
    pose proof (inv_thread _ HI _ _ Hi) as Hok.
    pose proof (hist_thread _ HH _ _ Hi) as [(fu & Hfu & Hs) _].
    destruct Hok as (Hl & _ & _ & _ & _ & Hk). cbn in Hl, Hk.
    destruct Hk as [_ (fu2 & Hfu2 & He)].
    apply Forall_cons in Hl as [(fu' & Hfu' & Hmx) _].
    assert (fu' = fu) as -> by congruence.
    assert (fu2 = fu) as -> by congruence.
    exists fu. split; [done|]. repeat split; try done.
    unfold thread_step in Hstep. rewrite Hi in Hstep. cbn in Hstep.
    rewrite Hfu in Hstep. cbn in Hstep. injection Hstep as <-. cbn.
    rewrite app_nil_r. apply list_lookup_insert_eq. by eapply lookup_lt_Some.
  - intros i c' j f cb a Hstep Htr.
    destruct (thread_step_inv_parts _ _ _ Hstep) as (t & ef & Hi & Hex & Hfs & Htr' & _).
    rewrite Htr' in Htr. apply app_inv_head in Htr.
    destruct (exec_fire _ _ _ _ j f cb a Hex) as (-> & _ & HF & Ht);
      [rewrite Htr; by left|].
    split; [done|]. split; [congruence|].
    pose proof (inv_thread _ HI _ _ Hi) as (_ & Htk & _).
    pose proof (hist_thread _ HH _ _ Hi) as Hh.
    destruct Ht as [(e & rest & -> & -> & _)|(v & rest & -> & -> & _)];
      cbn in Htk, Hh;
      apply Forall_cons in Htk as [(fu & Hfu & _ & Hd & Hterm) _];
      cbn in Hfu; destruct Hh as (fu' & Hfu' & Hh);
      (assert (fu' = fu) as -> by congruence);
      exists fu; (split; [done|]).
    + destruct Hh as (Hs & Hc).
      split; [eapply not_locked_by; eauto; cbn; by intros ?%elem_of_nil|].
      split; [done|]. split; [done|].
      split.
      * right. split; [done|].
        unfold completions in Hc. rewrite Hs in Hc. cbn in Hc.
        assert (Hin : (cb, ArgErr e) ∈ ((λ cb, (cb, ArgErr (err fu))) <$> onFailure fu)).
        { rewrite <- Hc. apply elem_of_app. right. by left. }
        apply list_elem_of_fmap in Hin as (cb' & Heq & _). congruence.
      * eexists. by rewrite <- Hc.
    + destruct Hh as (Hs & Hv & Hc).
      split; [eapply not_locked_by; eauto; cbn; by intros ?%elem_of_nil|].
      split; [done|]. split; [done|].
      split; [left; by rewrite Hv|]. eexists. by rewrite <- Hc.
  - intros i c' f Hstep Htr.
    destruct (thread_step_inv_parts _ _ _ Hstep) as (t & ef & Hi & Hex & Hfs & Htr' & _).
    rewrite Htr' in Htr. apply app_inv_head in Htr.
    destruct (exec_close _ _ _ _ f Hex) as (-> & _ & fu & Hfu & Hd & HF);
      [rewrite Htr; by left|].
    pose proof (inv_thread _ HI _ _ Hi) as (_ & Htk & _).
    pose proof (hist_thread _ HH _ _ Hi) as (fu' & Hfu' & Hh). cbn in Htk.
    apply Forall_cons in Htk as [(fu2 & Hfu2 & _ & _ & Hterm) _]. cbn in Hfu2.
    assert (fu' = fu) as -> by congruence.
    assert (fu2 = fu) as -> by congruence.
    exists fu. split; [done|]. repeat split; try done. congruence.
  - intros f fu Hf.
    destruct (hist_fut _ HH _ _ Hf) as (_ & _ & Hc & _ & _ & _ & _ & _ & Hsp).
    split; [done|]. exact Hsp.
  - intros f fu Hf Hd.
    destruct (hist_fut _ HH _ _ Hf) as (_ & _ & _ & _ & Hfi & _).
    destruct (inv_fut _ HI _ _ Hf) as (_ & _ & Hdt & _).
    destruct (Hdt Hd) as [_ Ht].
    split; [done|]. split; [by apply Hfi|].
    intros c' Hs.
    destruct (steps_frozen _ _ _ _ Hr Hs Hf Ht) as (fu' & Hf' & Es & Er & Ee & Ec & Ed).
    exists fu'. split; [done|]. repeat split; auto.
    destruct (reachable_hist _ (reachable_rtc _ _ Hr Hs)) as [_ HH'].
    destruct (hist_fut _ HH' _ _ Hf') as (_ & _ & _ & _ & Hfi' & _).
    rewrite (Hfi' (Ed Hd)), (Hfi Hd). done.
  - intros i f r c' Hi Hstep. unfold thread_step in Hstep.
    rewrite Hi in Hstep. cbn in Hstep.
    destruct (futs c !! f) as [fu|] eqn:Hf; [|done]. cbn in Hstep.
    destruct (done fu) eqn:Hd; [|done]. cbn in Hstep. injection Hstep as <-. cbn.
    split; [by exists fu|]. split; [done|].
    rewrite app_nil_r. apply list_lookup_insert_eq. by eapply lookup_lt_Some.
  - intros c' f fu Hs Hf. by apply (step_lists c).
Qed.

(** ** Calls that run without interruption *)

(** [run c i n]: goroutine [i] executes its next [n] statements in a row. *)
Fixpoint run (c : Config) (i : tid) (n : nat) : option Config :=
  match n with
  | 0 => Some c
  | S n' => c' ← thread_step c i; run c' i n'
  end.

Lemma run_rtc c i n c' : run c i n = Some c' → rtc step c c'.
Proof.
  revert c. induction n as [|n IH]; intros c H; cbn in H.
  - by simplify_eq.
  - destruct (thread_step c i) as [c1|] eqn:E; [|done]. cbn in H.
    eapply rtc_l; [by eapply step_thread|by apply IH].
Qed.

Lemma run_S c i n c1 :
  thread_step c i = Some c1 → run c i (S n) = run c1 i n.
Proof. intros H. cbn. by rewrite H. Qed.

Lemma thread_step_at F P tr i t ef :
  P !! i = Some t → exec i F t = Some ef →
  thread_step (mkConfig F P tr) i =
    Some (mkConfig (e_futs ef) (<[i := e_thread ef]> P ++ e_spawn ef)
                   (tr ++ e_events ef)).
Proof. intros Hi Hex. unfold thread_step. cbn. rewrite Hi. cbn. by rewrite Hex. Qed.

Lemma insert_here (P Q : list Thread) i t t0 :
  P !! i = Some t0 → (<[i := t]> P ++ Q) !! i = Some t.
Proof.
  intros Hi. apply lookup_app_l_Some, list_lookup_insert_eq.
  by eapply lookup_lt_Some.
Qed.

Lemma insert_again (P Q : list Thread) i t t' t0 :
  P !! i = Some t0 → <[i := t']> (<[i := t]> P ++ Q) = <[i := t']> P ++ Q.
Proof.
  intros Hi. rewrite insert_app_l.
  - by rewrite list_insert_insert_eq.
  - rewrite length_insert. by eapply lookup_lt_Some.
Qed.

Lemma relock fu i : mutex fu = None → set_mutex None (set_mutex (Some i) fu) = fu.
Proof. destruct fu; cbn; by intros ->. Qed.

Ltac run_simpl Hi Hf :=
  repeat first
    [ progress cbn
    | progress unfold lock, unlock, goto
    | rewrite app_nil_r
    | rewrite list_insert_insert_eq
    | rewrite (insert_again _ _ _ _ _ _ Hi)
    | rewrite (insert_here _ _ _ _ _ Hi)
    | rewrite (list_lookup_insert_eq _ _ _ (lookup_lt_Some _ _ _ Hf))
    | rewrite (list_lookup_insert_eq _ _ _ (lookup_lt_Some _ _ _ Hi))
    | rewrite Hi
    | rewrite Hf ].

(** ** Registration of callbacks *)

Lemma OnSuccess_runs F P tr i f cb fu :
  P !! i = Some (OSLock f cb) → F !! f = Some fu → mutex fu = None →
  run (mkConfig F P tr) i 3 =
    Some (if State_eqb (state fu) Fulfilled
          then mkConfig (<[f := set_mutex (Some i) fu]> F) (<[i := OSUnlock f]> P)
                        (tr ++ [EvLate i f cb (ArgVal (result fu))])
          else mkConfig
                 (<[f := set_onSuccess (onSuccess fu ++ [cb]) (set_mutex (Some i) fu)]> F)
                 (<[i := OSUnlock f]> P) tr) ∧
  run (mkConfig F P tr) i 4 =
    Some (if State_eqb (state fu) Fulfilled
          then mkConfig F (<[i := Done RetUnit]> P)
                        (tr ++ [EvLate i f cb (ArgVal (result fu))])
          else mkConfig (<[f := set_onSuccess (onSuccess fu ++ [cb]) fu]> F)
                        (<[i := Done RetUnit]> P) tr).
Proof.
  intros Hi Hf Hm. unfold run, thread_step, lock, unlock, goto.
  run_simpl Hi Hf. rewrite Hm. run_simpl Hi Hf.
  destruct (State_eqb (state fu) Fulfilled) eqn:E; run_simpl Hi Hf.
  - rewrite (relock _ _ Hm), (list_insert_id _ _ _ Hf). done.
  - split; [done|]. do 3 f_equal. destruct fu; cbn in *. by subst.
Qed.

Lemma OnFailure_runs F P tr i f cb fu :
  P !! i = Some (OFLock f cb) → F !! f = Some fu → mutex fu = None →
  run (mkConfig F P tr) i 3 =
    Some (if State_eqb (state fu) Rejected
          then mkConfig (<[f := set_mutex (Some i) fu]> F) (<[i := OFUnlock f]> P)
                        (tr ++ [EvLate i f cb (ArgErr (err fu))])
          else mkConfig
                 (<[f := set_onFailure (onFailure fu ++ [cb]) (set_mutex (Some i) fu)]> F)
                 (<[i := OFUnlock f]> P) tr) ∧
  run (mkConfig F P tr) i 4 =
    Some (if State_eqb (state fu) Rejected
          then mkConfig F (<[i := Done RetUnit]> P)
                        (tr ++ [EvLate i f cb (ArgErr (err fu))])
          else mkConfig (<[f := set_onFailure (onFailure fu ++ [cb]) fu]> F)
                        (<[i := Done RetUnit]> P) tr).
Proof.
  intros Hi Hf Hm. unfold run, thread_step, lock, unlock, goto.
  run_simpl Hi Hf. rewrite Hm. run_simpl Hi Hf.
  destruct (State_eqb (state fu) Rejected) eqn:E; run_simpl Hi Hf.
  - rewrite (relock _ _ Hm), (list_insert_id _ _ _ Hf). done.
  - split; [done|]. do 3 f_equal. destruct fu; cbn in *. by subst.
Qed.

Lemma called_cbargs f tr j cb a :
  EvLate j f cb a ∈ tr ∨ EvFire j f cb a ∈ tr → a ∈ cbargs f tr.
Proof.
  induction tr as [|ev tr IH]; intros H.
  - destruct H as [H|H]; by apply elem_of_nil in H.
  - assert (Hc : ev = EvLate j f cb a ∨ ev = EvFire j f cb a ∨
                 (EvLate j f cb a ∈ tr ∨ EvFire j f cb a ∈ tr)).
    { destruct H as [H|H]; apply elem_of_cons in H as [H|H]; auto. }
    destruct Hc as [->|[->|Hc]].
    + cbn. rewrite decide_True by done. by left.
    + cbn. rewrite decide_True by done. by left.
    + specialize (IH Hc). destruct ev; cbn; try done;
        apply elem_of_app; by right.
Qed.

(** A goroutine inside a registration method holds the mutex, and its next
    statement is the one the state of the future selects. *)
Lemma registration_point c i t f :
  reachable c → pool c !! i = Some t → f ∈ locks t →
  ∃ fu, futs c !! f = Some fu ∧ mutex fu = Some i ∧ knows (futs c) t.
Proof.
  intros Hr Hi Hin.
  destruct (inv_thread _ (reachable_inv _ Hr) _ _ Hi) as (Hl & _ & _ & _ & _ & Hk).
  rewrite Forall_forall in Hl. destruct (Hl _ Hin) as (fu & Hfu & Hm).
  by exists fu.
Qed.

(** C7.  OnSuccess and OnFailure (part_001, lines 4-29).  Whatever the other
    goroutines do, the goroutine at the check of line 9 (line 23) holds the
    mutex and goes to the call when the state is Fulfilled (Rejected), to the
    append otherwise; at the call it still holds the mutex, the state is the
    matching one, and the statement calls the callback once with the stored
    value (error) and changes no field; at the append the state is not the
    matching one and the callback is put at the end of the list, with no call.
    Run without interruption from its first statement on an unlocked future,
    the method returns after four statements: on a future in the matching
    state with one call recorded, made while the mutex is held, and every field
    as before; otherwise with the callback appended and nothing called.  Every
    call recorded in the history passed the stored outcome of its future. *)
Theorem registration_fires_or_appends c :
  reachable c →
  (∀ i f cb, pool c !! i = Some (OSCheck f cb) →
     sat (futs c) f (λ fu, mutex fu = Some i ∧
       thread_step c i = Some (mkConfig (futs c)
         (<[i := if State_eqb (state fu) Fulfilled
                 then OSCall f cb else OSAppend f cb]> (pool c))
         (trace c)))) ∧
  (∀ i f cb, pool c !! i = Some (OSCall f cb) →
     sat (futs c) f (λ fu, mutex fu = Some i ∧ state fu = Fulfilled ∧
       thread_step c i = Some (mkConfig (futs c) (<[i := OSUnlock f]> (pool c))
         (trace c ++ [EvLate i f cb (ArgVal (result fu))])))) ∧
  (∀ i f cb, pool c !! i = Some (OSAppend f cb) →
     sat (futs c) f (λ fu, mutex fu = Some i ∧ state fu ≠ Fulfilled ∧
       thread_step c i = Some (mkConfig
         (<[f := set_onSuccess (onSuccess fu ++ [cb]) fu]> (futs c))
         (<[i := OSUnlock f]> (pool c)) (trace c)))) ∧
  (∀ i f cb, pool c !! i = Some (OFCheck f cb) →
     sat (futs c) f (λ fu, mutex fu = Some i ∧
       thread_step c i = Some (mkConfig (futs c)
         (<[i := if State_eqb (state fu) Rejected
                 then OFCall f cb else OFAppend f cb]> (pool c))
         (trace c)))) ∧
  (∀ i f cb, pool c !! i = Some (OFCall f cb) →
     sat (futs c) f (λ fu, mutex fu = Some i ∧ state fu = Rejected ∧
       thread_step c i = Some (mkConfig (futs c) (<[i := OFUnlock f]> (pool c))
         (trace c ++ [EvLate i f cb (ArgErr (err fu))])))) ∧
  (∀ i f cb, pool c !! i = Some (OFAppend f cb) →
     sat (futs c) f (λ fu, mutex fu = Some i ∧ state fu ≠ Rejected ∧
       thread_step c i = Some (mkConfig
         (<[f := set_onFailure (onFailure fu ++ [cb]) fu]> (futs c))
         (<[i := OFUnlock f]> (pool c)) (trace c)))) ∧
  (∀ i f cb fu, pool c !! i = Some (OSLock f cb) → futs c !! f = Some fu →
     mutex fu = None →
     run c i 3 =
       Some (if State_eqb (state fu) Fulfilled
             then mkConfig (<[f := set_mutex (Some i) fu]> (futs c))
                    (<[i := OSUnlock f]> (pool c))
                    (trace c ++ [EvLate i f cb (ArgVal (result fu))])
             else mkConfig
                    (<[f := set_onSuccess (onSuccess fu ++ [cb])
                              (set_mutex (Some i) fu)]> (futs c))
                    (<[i := OSUnlock f]> (pool c)) (trace c)) ∧
     run c i 4 =
       Some (if State_eqb (state fu) Fulfilled
             then mkConfig (futs c) (<[i := Done RetUnit]> (pool c))
                    (trace c ++ [EvLate i f cb (ArgVal (result fu))])
             else mkConfig
                    (<[f := set_onSuccess (onSuccess fu ++ [cb]) fu]> (futs c))
                    (<[i := Done RetUnit]> (pool c)) (trace c))) ∧
  (∀ i f cb fu, pool c !! i = Some (OFLock f cb) → futs c !! f = Some fu →
     mutex fu = None →
     run c i 3 =
       Some (if State_eqb (state fu) Rejected
             then mkConfig (<[f := set_mutex (Some i) fu]> (futs c))
                    (<[i := OFUnlock f]> (pool c))
                    (trace c ++ [EvLate i f cb (ArgErr (err fu))])
             else mkConfig
                    (<[f := set_onFailure (onFailure fu ++ [cb])
                              (set_mutex (Some i) fu)]> (futs c))
                    (<[i := OFUnlock f]> (pool c)) (trace c)) ∧
     run c i 4 =
       Some (if State_eqb (state fu) Rejected
             then mkConfig (futs c) (<[i := Done RetUnit]> (pool c))
                    (trace c ++ [EvLate i f cb (ArgErr (err fu))])
             else mkConfig
                    (<[f := set_onFailure (onFailure fu ++ [cb]) fu]> (futs c))
                    (<[i := Done RetUnit]> (pool c)) (trace c))) ∧
  (∀ j f cb a fu, futs c !! f = Some fu → EvLate j f cb a ∈ trace c →
     cbarg_ok fu a).
Proof.
  intros Hr. destruct (reachable_hist _ Hr) as [HI HH].
  repeat apply conj.
  1-6: intros i f cb Hi;
    destruct (registration_point _ _ _ f Hr Hi) as (fu & Hfu & Hm & Hk);
      [cbn; by left|];
    exists fu; (split; [done|]); cbn in Hk;
    try (destruct Hk as (fu' & Hfu' & Hk); assert (fu' = fu) as -> by congruence);
    repeat (split; [done|]);
    unfold thread_step; rewrite Hi; cbn; rewrite Hfu; cbn;
    try (destruct (State_eqb _ _); cbn); by rewrite ?app_nil_r.
  - intros i f cb fu Hi Hf Hm. destruct c as [F P tr]. by apply OnSuccess_runs.
  - intros i f cb fu Hi Hf Hm. destruct c as [F P tr]. by apply OnFailure_runs.
  - intros j f cb a fu Hf Hin.
    destruct (hist_fut _ HH _ _ Hf) as (_ & _ & _ & _ & _ & _ & _ & Hcb & _).
    apply Hcb. eapply called_cbargs. by left.
Qed.

(** ** Registration on a completed future *)

(** C8 as it is stated: every registration on a future in a terminal state,
    by either method, calls the callback at once and leaves the lists alone. *)
Definition late_always_fires : Prop :=
  ∀ c i f cb t fu,
    reachable c → pool c !! i = Some t → t ∈ [OSLock f cb; OFLock f cb] →
    futs c !! f = Some fu → mutex fu = None → terminal (state fu) = true →
    ∃ c' a, run c i 4 = Some c' ∧ trace c' = trace c ++ [EvLate i f cb a] ∧
            futs c' = futs c.

(** A future that completes with a value, and a caller that then registers a
    failure callback on it. *)
Definition late_failure_schedule : list Action :=
  [ Do (CallNew Nil (Str "ok") None);
    Do (CallStart 0);
    Settle 40;
    Do (CallOnFailure 0 7) ].

Definition late_failure_config : Config :=
  default init (play init late_failure_schedule).

Lemma late_failure_config_reachable : reachable late_failure_config.
Proof. apply (play_reachable late_failure_schedule). by vm_compute. Qed.

(** C8, as stated, fails: after the future 0 is Fulfilled, the call
    OnFailure(7) returns with the callback 7 queued on [onFailure] and nothing
    called. *)
Lemma late_failure_is_queued :
  reachable late_failure_config ∧
  pool late_failure_config !! 2 = Some (OFLock 0 7) ∧
  sat (futs late_failure_config) 0
    (λ fu, state fu = Fulfilled ∧ done fu = true ∧ mutex fu = None ∧
           onFailure fu = []) ∧
  (∃ c', run late_failure_config 2 4 = Some c' ∧
     trace c' = trace late_failure_config ∧
     pool c' !! 2 = Some (Done RetUnit) ∧
     sat (futs c') 0 (λ fu, onFailure fu = [7])) ∧
  ¬ late_always_fires.
Proof.
  split; [exact late_failure_config_reachable|].
  split; [by vm_compute|].
  split; [eexists; split; [by vm_compute|done]|].
  split; [eexists; split; [by vm_compute|];
          split; [done|split; [done|eexists; split; [by vm_compute|done]]]|].
  intros H.
  destruct (H late_failure_config 2 0 7 (OFLock 0 7)
              (mkFuture (Prim (Str "ok") None) None (Str "ok") None Fulfilled
                        true None [] [] true Nil))
    as (c' & a & Hrun & Htr & Hf).
  - exact late_failure_config_reachable.
  - by vm_compute.
  - apply elem_of_cons. right. by left.
  - by vm_compute.
  - done.
  - done.
  - vm_compute in Hrun. injection Hrun as <-. vm_compute in Htr. discriminate Htr.
Qed.

Lemma steps_called c c' f fu j cb a :
  reachable c → rtc step c c' → futs c !! f = Some fu →
  terminal (state fu) = true →
  EvLate j f cb a ∈ trace c' ∨ EvFire j f cb a ∈ trace c' →
  cbarg_ok fu a.
Proof.
  intros Hr Hs Hf Ht Hin.
  destruct (steps_frozen _ _ _ _ Hr Hs Hf Ht) as (fu' & Hf' & Es & Er & Ee & _).
  destruct (reachable_hist _ (reachable_rtc _ _ Hr Hs)) as [_ HH'].
  destruct (hist_fut _ HH' _ _ Hf') as (_ & _ & _ & _ & _ & _ & _ & Hcb & _).
  pose proof (Hcb a (called_cbargs _ _ _ _ _ Hin)) as Hok.
  unfold cbarg_ok in *. by rewrite Es, Er, Ee in Hok.
Qed.

(** C8, amended.  On a future in a terminal state whose mutex is free, a
    registration through the method of that state (OnSuccess on Fulfilled,
    OnFailure on Rejected) calls the callback at once, with the stored outcome,
    and queues nothing; a registration through the other method puts the
    callback at the end of its list and calls nothing.  From then on the
    future's completion list does not change and every callback of the future
    that is called gets the stored outcome of the terminal state: on a
    Fulfilled future no callback is ever called with an error, on a Rejected
    one none with a value, so a callback queued on the other list is never
    called. *)
Theorem late_registration_fires_matching_only c :
  reachable c →
  ∀ f fu, futs c !! f = Some fu → terminal (state fu) = true →
    (∀ i cb, pool c !! i = Some (OSLock f cb) → mutex fu = None →
       run c i 4 =
         Some (match state fu with
               | Fulfilled =>
                   mkConfig (futs c) (<[i := Done RetUnit]> (pool c))
                     (trace c ++ [EvLate i f cb (ArgVal (result fu))])
               | _ =>
                   mkConfig
                     (<[f := set_onSuccess (onSuccess fu ++ [cb]) fu]> (futs c))
                     (<[i := Done RetUnit]> (pool c)) (trace c)
               end)) ∧
    (∀ i cb, pool c !! i = Some (OFLock f cb) → mutex fu = None →
       run c i 4 =
         Some (match state fu with
               | Rejected =>
                   mkConfig (futs c) (<[i := Done RetUnit]> (pool c))
                     (trace c ++ [EvLate i f cb (ArgErr (err fu))])
               | _ =>
                   mkConfig
                     (<[f := set_onFailure (onFailure fu ++ [cb]) fu]> (futs c))
                     (<[i := Done RetUnit]> (pool c)) (trace c)
               end)) ∧
    (∀ c', rtc step c c' →
       (∃ fu', futs c' !! f = Some fu' ∧ state fu' = state fu ∧
               completions fu' = completions fu) ∧
       ∀ j cb a, EvLate j f cb a ∈ trace c' ∨ EvFire j f cb a ∈ trace c' →
         (state fu = Fulfilled ∧ a = ArgVal (result fu)) ∨
         (state fu = Rejected ∧ a = ArgErr (err fu))).
Proof.
  intros Hr f fu Hf Ht. split; [|split].
  - intros i cb Hi Hm. destruct c as [F P tr].
    destruct (OnSuccess_runs F P tr i f cb fu Hi Hf Hm) as [_ ->].
    by destruct (state fu).
  - intros i cb Hi Hm. destruct c as [F P tr].
    destruct (OnFailure_runs F P tr i f cb fu Hi Hf Hm) as [_ ->].
    by destruct (state fu).
  - intros c' Hs. split.
    + destruct (steps_frozen _ _ _ _ Hr Hs Hf Ht) as (fu' & ? & ? & _ & _ & ? & _).
      by exists fu'.
    + intros j cb a Hin. exact (steps_called _ _ _ _ _ _ _ Hr Hs Hf Ht Hin).
Qed.

(** ** Then *)

Lemma Then_runs F P tr i f nx fu :
  P !! i = Some (ThenStarted f nx) → F !! f = Some fu → mutex fu = None →
  run (mkConfig F P tr) i 5 =
    Some (mkConfig
            (<[f := set_next (Some (length F)) fu]> F ++
               [NewFuture Nil (ThenTask f nx)])
            (<[i := Done (RetThen f (length F))]> P ++
               (if started fu then [] else [StartLock f STop]))
            tr).
Proof.
  intros Hi Hf Hm.
  assert (Hlt : f < length F) by by eapply lookup_lt_Some.
  assert (Hf' : ∀ x, (F ++ [x]) !! f = Some fu) by (intros; by apply lookup_app_l_Some).
  assert (Hins : ∀ x y, (<[f := y]> F ++ [x]) !! f = Some y).
  { intros. apply lookup_app_l_Some. by apply list_lookup_insert_eq. }
  unfold run, thread_step.
  destruct (started fu) eqn:Hst.
  all: repeat first
    [ progress cbn
    | progress unfold lock, unlock, goto
    | rewrite app_nil_r
    | rewrite list_insert_insert_eq
    | rewrite (insert_again _ _ _ _ _ _ Hi)
    | rewrite (insert_here _ _ _ _ _ Hi)
    | rewrite (list_lookup_insert_eq _ _ _ (lookup_lt_Some _ _ _ Hi))
    | rewrite Hi
    | rewrite Hf'
    | rewrite Hins
    | rewrite Hf
    | rewrite Hm
    | rewrite Hst
    | rewrite insert_app_l by (rewrite ?length_insert; exact Hlt) ].
  all: do 4 f_equal; destruct fu; cbn in *; by subst.
Qed.

(** *** The successor link has no effect

    [forget] erases every trace of the [next] field: the field itself, and the
    value GetNext has read from it. *)
Definition forget_fut (fu : Future) : Future := set_next None fu.

Definition forget_thread (t : Thread) : Thread :=
  match t with
  | NxUnlock f _ => NxUnlock f None
  | Done (RetNext f _) => Done (RetNext f None)
  | _ => t
  end.

Definition forget_eff (ef : Effect) : Effect :=
  Eff (forget_thread (e_thread ef)) (forget_fut <$> e_futs ef)
      (forget_thread <$> e_spawn ef) (e_events ef).

Definition forget (c : Config) : Config :=
  mkConfig (forget_fut <$> futs c) (forget_thread <$> pool c) (trace c).

Lemma forget_insert (F : list Future) f fu fu' :
  forget_fut fu' = forget_fut fu →
  forget_fut <$> <[f := fu']> (forget_fut <$> F) = forget_fut <$> <[f := fu]> F.
Proof.
  intros H. rewrite !list_fmap_insert, H. f_equal.
  rewrite <- list_fmap_compose. apply list_fmap_ext. by intros ? [].
Qed.

Lemma forget_idem (F : list Future) :
  forget_fut <$> (forget_fut <$> F) = forget_fut <$> F.
Proof. rewrite <- list_fmap_compose. apply list_fmap_ext. by intros ? []. Qed.

Lemma exec_forget i F t :
  forget_eff <$> exec i (forget_fut <$> F) (forget_thread t) =
  forget_eff <$> exec i F t.
Proof.
  destruct t; try destruct r; cbn; unfold lock, unlock, goto; cbn;
    rewrite ?list_lookup_fmap;
    try match goal with
    | |- context [F !! ?f] => destruct (F !! f) as [fu|]; cbn; [|done]
    end;
    rewrite ?length_fmap;
    repeat match goal with
    | |- context [match ?x with _ => _ end] => destruct x eqn:?; cbn
    end;
    unfold forget_eff; cbn; rewrite ?forget_idem, ?fmap_app, ?forget_idem;
    try done.
  all: try (do 2 f_equal; by apply forget_insert).
  all: try (do 2 f_equal; by destruct k).
  all: try (do 2 f_equal; [by destruct k|by apply forget_insert]).
Qed.

Lemma forget_thread_idem (P : list Thread) :
  forget_thread <$> (forget_thread <$> P) = forget_thread <$> P.
Proof.
  rewrite <- list_fmap_compose. apply list_fmap_ext.
  intros ? [] ?; try done. cbn. by destruct r.
Qed.

Lemma thread_step_forget c i :
  forget <$> thread_step (forget c) i = forget <$> thread_step c i.
Proof.
  unfold thread_step. cbn. rewrite list_lookup_fmap.
  destruct (pool c !! i) as [t|]; [|done]. cbn.
  pose proof (exec_forget i (futs c) t) as H.
  destruct (exec i (forget_fut <$> futs c) (forget_thread t)) as [ef'|],
           (exec i (futs c) t) as [ef|]; cbn in *; try done.
  injection H as H1 H2 H3 H4. unfold forget. cbn. do 2 f_equal.
  - done.
  - rewrite !fmap_app, !list_fmap_insert, forget_thread_idem. congruence.
  - congruence.
Qed.

Lemma call_forget c k :
  forget <$> call (forget c) k = forget <$> call c k.
Proof.
  destruct k; cbn; rewrite ?length_fmap; try case_decide; cbn; try done;
    unfold forget; cbn; rewrite ?fmap_app, ?forget_idem, ?forget_thread_idem; done.
Qed.

(** C9.  Then (lines 34-57).  Run without interruption on a parent whose mutex is
    free, the call returns after five statements the index [n] of a future
    allocated by NewFuture around the closure: it is Pending, not started, its
    channel is open, and its task has not been invoked.  The only goroutine
    spawned is the one that runs Start on the parent, and only when the parent
    was not started; none is spawned for the child.  The parent's [next] holds
    [n] and nothing else of it has changed.  Nothing but GetNext depends on
    [next]: two configurations that agree once [next] is erased make the same
    steps and the same calls, up to that erasure, with the same history. *)
Theorem Then_returns_unstarted_child c :
  reachable c →
  (∀ i f nx fu,
     pool c !! i = Some (ThenStarted f nx) → futs c !! f = Some fu →
     mutex fu = None →
     run c i 5 =
       Some (mkConfig
               (<[f := set_next (Some (length (futs c))) fu]> (futs c) ++
                  [NewFuture Nil (ThenTask f nx)])
               (<[i := Done (RetThen f (length (futs c)))]> (pool c) ++
                  (if started fu then [] else [StartLock f STop]))
               (trace c)) ∧
     state (NewFuture Nil (ThenTask f nx)) = Pending ∧
     started (NewFuture Nil (ThenTask f nx)) = false ∧
     done (NewFuture Nil (ThenTask f nx)) = false ∧
     ntask (length (futs c)) (trace c) = 0) ∧
  (∀ i f nx fu c',
     pool c !! i = Some (ThenStarted f nx) → futs c !! f = Some fu →
     thread_step c i = Some c' →
     futs c' = futs c ∧ trace c' = trace c ∧
     pool c' = <[i := ThenNew f nx]> (pool c) ++
                 (if started fu then [] else [StartLock f STop])) ∧
  (∀ c2, forget c2 = forget c →
     (∀ i, forget <$> thread_step c2 i = forget <$> thread_step c i) ∧
     (∀ k, forget <$> call c2 k = forget <$> call c k)).
Proof.
  intros Hr. destruct (reachable_hist _ Hr) as [HI HH]. split; [|split].
  - intros i f nx fu Hi Hf Hm. split.
    + destruct c as [F P tr]. by apply Then_runs.
    + repeat split. by destruct (hist_unborn _ HH (length (futs c))) as (? & _).
  - intros i f nx fu c' Hi Hf Hstep. unfold thread_step in Hstep.
    rewrite Hi in Hstep. cbn in Hstep. rewrite Hf in Hstep. cbn in Hstep.
    destruct (started fu); cbn in Hstep; injection Hstep as <-; cbn;
      by rewrite ?app_nil_r.
  - intros c2 Heq. split.
    + intros i. by rewrite <- (thread_step_forget c2), <- (thread_step_forget c), Heq.
    + intros k. by rewrite <- (call_forget c2), <- (call_forget c), Heq.
Qed.

(** ** Instances

    The theorems above, applied to runs of the machine. *)

(** The chain of the package's test: four links, started at the last one, and
    left to run. *)
Definition chain_config : Config := default init (play init chain_schedule).

Lemma chain_config_reachable : reachable chain_config.
Proof. apply (play_reachable chain_schedule). by vm_compute. Defined.

(** A chain whose first link fails. *)
Definition failing_schedule : list Action :=
  [ Do (CallNew Nil Nil (Some "boom"));
    Do (CallThen 0 (append_step " → Step 1"));
    Run 0; Run 0; Run 0; Run 0; Run 0;
    Do (CallThen 1 (append_step " → Step 2"));
    Run 2; Run 2; Run 2; Run 2; Run 2;
    Do (CallResult 2);
    Settle 400 ].

Definition failing_config : Config := default init (play init failing_schedule).

Lemma failing_config_reachable : reachable failing_config.
Proof. apply (play_reachable failing_schedule). by vm_compute. Defined.

(** A second call of Start on a future that has completed. *)
Definition restart_schedule : list Action :=
  [ Do (CallNew Nil (Int 7) None); Do (CallStart 0); Settle 40; Do (CallStart 0) ].

Definition restart_config : Config := default init (play init restart_schedule).

Lemma restart_config_reachable : reachable restart_config.
Proof. apply (play_reachable restart_schedule). by vm_compute. Defined.

(** A call of State that has returned Fulfilled. *)
Definition state_schedule : list Action :=
  [ Do (CallNew Nil (Int 7) None); Do (CallStart 0); Settle 40;
    Do (CallState 0); Settle 40 ].

Definition state_config : Config := default init (play init state_schedule).

Lemma state_config_reachable : reachable state_config.
Proof. apply (play_reachable state_schedule). by vm_compute. Defined.

(** A call of Result on a future that nobody has started. *)
Definition waiting_schedule : list Action :=
  [ Do (CallNew Nil (Int 7) None); Do (CallResult 0) ].

Definition waiting_config : Config := default init (play init waiting_schedule).

Lemma waiting_config_reachable : reachable waiting_config.
Proof. apply (play_reachable waiting_schedule). by vm_compute. Defined.

(** Two success callbacks registered before the future is started. *)
Definition callback_schedule : list Action :=
  [ Do (CallNew Nil (Int 7) None);
    Do (CallOnSuccess 0 1); Settle 40;
    Do (CallOnSuccess 0 2); Settle 40;
    Do (CallStart 0); Settle 40 ].

Definition callback_config : Config := default init (play init callback_schedule).

Lemma callback_config_reachable : reachable callback_config.
Proof. apply (play_reachable callback_schedule). by vm_compute. Defined.

(** A success callback being registered on a Fulfilled future: the caller has
    taken the mutex. *)
Definition late_success_schedule : list Action :=
  [ Do (CallNew Nil (Int 7) None); Do (CallStart 0); Settle 40;
    Do (CallOnSuccess 0 5); Run 2 ].

Definition late_success_config : Config :=
  default init (play init late_success_schedule).

Lemma late_success_config_reachable : reachable late_success_config.
Proof. apply (play_reachable late_success_schedule). by vm_compute. Defined.

(** A call of Then about to execute its first statement. *)
Definition then_schedule : list Action :=
  [ Do (CallNew Nil (Str "Start") None);
    Do (CallThen 0 (append_step " → Step 1")) ].

Definition then_config : Config := default init (play init then_schedule).

Lemma then_config_reachable : reachable then_config.
Proof. apply (play_reachable then_schedule). by vm_compute. Defined.

(** A call of Start that has set [started] and is still inside the critical
    section. *)
Definition started_schedule : list Action :=
  [ Do (CallNew Nil (Int 7) None); Do (CallStart 0); Run 0; Run 0; Run 0 ].

Definition started_config : Config := default init (play init started_schedule).

Lemma started_config_reachable : reachable started_config.
Proof. apply (play_reachable started_schedule). by vm_compute. Defined.

Lemma Start_runs_task_once_witness :
  reachable restart_config ∧
  (∀ f, ntask f (trace restart_config) ≤ 1) ∧
  (∀ c', thread_step restart_config 2 = Some c' →
     trace c' = trace restart_config ∧
     length (futs c') = length (futs restart_config)).
Proof.
  split; [exact restart_config_reachable|].
  destruct (Start_runs_task_once restart_config restart_config_reachable) as [H1 H2].
  split; [exact H1|]. intros c' Hs.
  destruct (H2 2 0 STop (StartLock 0 STop) c') as (Htr & _ & Hlen & _).
  - by vm_compute.
  - by left.
  - exists (mkFuture (Prim (Int 7) None) None (Int 7) None Fulfilled true None
                     [] [] true Nil).
    split; [by vm_compute|reflexivity].
  - exact Hs.
  - split; assumption.
Defined.

Lemma state_only_moves_forward_witness :
  reachable state_config ∧
  ∀ c', rtc step state_config c' → sat (futs c') 0 (λ fu, state fu = Fulfilled).
Proof.
  split; [exact state_config_reachable|]. intros c' Hs.
  destruct (state_only_moves_forward state_config state_config_reachable)
    as (_ & _ & H3).
  destruct (H3 2 0 Fulfilled) with (c' := c') as [H _]; [by vm_compute|done|done|].
  exact H.
Defined.

Lemma Then_propagates_failure_witness :
  reachable failing_config ∧
  ∀ i v e, pool failing_config !! i = Some (Done (RetResult 2 v e)) →
    v = Nil ∧ e = Some "boom".
Proof.
  split; [exact failing_config_reachable|]. intros i v e Hi.
  pose (au := mkFuture (Prim Nil (Some "boom")) None Nil (Some "boom") Rejected
                true (Some 1) [] [] true Nil).
  pose (bu := mkFuture (ThenTask 0 (append_step " → Step 1")) None Nil
                (Some "boom") Rejected true (Some 2) [] [] true Nil).
  pose (du := mkFuture (ThenTask 1 (append_step " → Step 2")) None Nil
                (Some "boom") Rejected true None [] [] true Nil).
  assert (Ha : futs failing_config !! 0 = Some au) by (by vm_compute).
  assert (Hb : futs failing_config !! 1 = Some bu) by (by vm_compute).
  assert (Hd : futs failing_config !! 2 = Some du) by (by vm_compute).
  assert (Hres : task_res (futs failing_config) au Nil (Some "boom")) by exact (conj eq_refl eq_refl).
  assert (Hdesc : descends (futs failing_config) 0 2).
  { apply (desc_then _ _ 1 2 du (append_step " → Step 2")); [|exact Hd|reflexivity].
    apply (desc_then _ _ 0 1 bu (append_step " → Step 1")); [|exact Hb|reflexivity].
    apply desc_self. }
  pose proof (Then_propagates_failure failing_config failing_config_reachable
              0 au Nil "boom" 2 du Ha Hres Hdesc Hd) as (_ & _ & H3).
  exact (H3 i v e Hi).
Defined.

Lemma Result_returns_outcome_witness :
  reachable waiting_config ∧
  ∃ v e,
    pool (settle (measure waiting_config) waiting_config) !! 0 =
      Some (Done (RetResult 0 v e)) ∧
    expected (futs (settle (measure waiting_config) waiting_config)) 0 = Some (v, e).
Proof.
  split; [exact waiting_config_reachable|].
  destruct (Result_returns_outcome waiting_config waiting_config_reachable)
    as (_ & _ & H3 & _).
  apply (H3 (measure waiting_config) 0 (ResCheck 0 RTop) 0).
  - done.
  - by vm_compute.
  - done.
Defined.

Lemma Then_takes_outcome_of_continuation_witness :
  reachable chain_config ∧
  ∀ i v e, pool chain_config !! i = Some (Done (RetResult 3 v e)) →
    v = Str "Start → Step 1 → Step 2 → Step 3" ∧ e = None.
Proof.
  split; [exact chain_config_reachable|]. intros i v e Hi.
  destruct (Then_takes_outcome_of_continuation chain_config chain_config_reachable)
    as (_ & _ & H3).
  eapply (H3 0 1 2 3); [by vm_compute|reflexivity|by vm_compute|reflexivity|
                        by vm_compute|reflexivity|by vm_compute|reflexivity|exact Hi].
Defined.
Lemma completion_fires_then_signals_witness :
  reachable callback_config ∧
  ∀ pre post, trace callback_config = pre ++ EvClose 0 :: post →
    fires 0 pre = [(1, ArgVal (Int 7)); (2, ArgVal (Int 7))] ∧ fires 0 post = [].
Proof.
  split; [exact callback_config_reachable|].
  destruct (completion_fires_then_signals callback_config callback_config_reachable)
    as (_ & _ & _ & _ & H5 & _).
  destruct (H5 0 (mkFuture (Prim (Int 7) None) None (Int 7) None Fulfilled true
                    None [1; 2] [] true Nil)) as [_ H].
  - by vm_compute.
  - exact H.
Defined.

Lemma registration_fires_or_appends_witness :
  reachable late_success_config ∧
  sat (futs late_success_config) 0 (λ fu, mutex fu = Some 2 ∧
    thread_step late_success_config 2 =
      Some (mkConfig (futs late_success_config)
              (<[2 := if State_eqb (state fu) Fulfilled
                      then OSCall 0 5 else OSAppend 0 5]> (pool late_success_config))
              (trace late_success_config))).
Proof.
  split; [exact late_success_config_reachable|].
  destruct (registration_fires_or_appends late_success_config
              late_success_config_reachable) as (H1 & _).
  apply H1. by vm_compute.
Defined.

Lemma late_registration_fires_matching_only_witness :
  reachable late_failure_config ∧
  run late_failure_config 2 4 =
    Some (mkConfig
            (<[0 := set_onFailure [7]
                      (mkFuture (Prim (Str "ok") None) None (Str "ok") None
                         Fulfilled true None [] [] true Nil)]>
               (futs late_failure_config))
            (<[2 := Done RetUnit]> (pool late_failure_config))
            (trace late_failure_config)).
Proof.
  split; [exact late_failure_config_reachable|].
  destruct (late_registration_fires_matching_only late_failure_config
              late_failure_config_reachable 0
              (mkFuture (Prim (Str "ok") None) None (Str "ok") None
                 Fulfilled true None [] [] true Nil)) as (_ & H2 & _).
  - by vm_compute.
  - reflexivity.
  - apply (H2 2 7); [by vm_compute|reflexivity].
Defined.

Lemma Then_returns_unstarted_child_witness :
  reachable then_config ∧
  run then_config 0 5 =
    Some (mkConfig
            (<[0 := set_next (Some (length (futs then_config)))
                      (NewFuture Nil (Prim (Str "Start") None))]> (futs then_config) ++
               [NewFuture Nil (ThenTask 0 (append_step " → Step 1"))])
            (<[0 := Done (RetThen 0 (length (futs then_config)))]> (pool then_config) ++
               [StartLock 0 STop])
            (trace then_config)).
Proof.
  split; [exact then_config_reachable|].
  destruct (Then_returns_unstarted_child then_config then_config_reachable)
    as (H1 & _).
  destruct (H1 0 0 (append_step " → Step 1")
              (NewFuture Nil (Prim (Str "Start") None))) as [H _].
  - by vm_compute.
  - by vm_compute.
  - reflexivity.
  - exact H.
Defined.

Lemma completion_guard_never_fails_witness :
  reachable started_config ∧
  sat (futs (settle (measure started_config) started_config)) 0
    (λ fu, done fu = true) ∧
  nclose 0 (trace (settle (measure started_config) started_config)) = 1.
Proof.
  split; [exact started_config_reachable|].
  destruct (completion_guard_never_fails started_config started_config_reachable)
    as (_ & _ & _ & _ & _ & _ & H7 & H8).
  destruct (H8 (measure started_config) (le_n _)) as [Hrun Hq].
  destruct (H7 _ Hrun Hq) as (_ & Hd & _).
  apply (Hd 0 (mkFuture (Prim (Int 7) None) (Some 0) Nil None Pending false None
                 [] [] true Nil)).
  - by vm_compute.
  - reflexivity.
Defined.

(** ** Further properties of the package *)

(** *** The mutex *)

(** The mutex of a future excludes: two goroutines are never both between a
    Lock and the matching Unlock of the same future; the mutex is held exactly
    by the goroutine that is in such a section; no goroutine holds two mutexes
    at once; and a goroutine waiting at a Lock cannot move while another one
    holds the mutex. *)
Theorem mutex_excludes c :
  reachable c →
  (∀ i j ti tj f, pool c !! i = Some ti → pool c !! j = Some tj →
     f ∈ locks ti → f ∈ locks tj → i = j) ∧
  (∀ f fu i, futs c !! f = Some fu → mutex fu = Some i →
     ∃ t, pool c !! i = Some t ∧ f ∈ locks t) ∧
  (∀ i t f, pool c !! i = Some t → f ∈ locks t →
     sat (futs c) f (λ fu, mutex fu = Some i)) ∧
  (∀ i t, pool c !! i = Some t → length (locks t) ≤ 1) ∧
  (∀ i t f fu j, pool c !! i = Some t → futs c !! f = Some fu →
     mutex fu = Some j →
     (∃ k, t = StartLock f k) ∨ (∃ v e, t = GLock f v e) ∨ (∃ r, t = ResLock f r) ∨
     (∃ n, t = ThenLock f n) ∨ t = StLock f ∨ t = NxLock f ∨
     (∃ cb, t = OSLock f cb) ∨ (∃ cb, t = OFLock f cb) →
     thread_step c i = None).
Proof.
  intros Hr. pose proof (reachable_inv _ Hr) as HI.
  assert (Hheld : ∀ i t f, pool c !! i = Some t → f ∈ locks t →
            sat (futs c) f (λ fu, mutex fu = Some i)).
  { intros i t f Hi Hin. destruct (inv_thread _ HI _ _ Hi) as (Hl & _).
    rewrite Forall_forall in Hl. by apply Hl. }
  split; [|split; [|split; [|split]]].
  - intros i j ti tj f Hi Hj Hfi Hfj.
    destruct (Hheld _ _ _ Hi Hfi) as (fu & Hfu & Hm).
    destruct (Hheld _ _ _ Hj Hfj) as (fu' & Hfu' & Hm'). congruence.
  - intros f fu i Hf Hm. by eapply inv_owner.
  - exact Hheld.
  - intros i t _. destruct t; cbn; lia.
  - intros i t f fu j Hi Hf Hm Ht. unfold thread_step. rewrite Hi. cbn.
    destruct Ht as [[k ->]|[(v & e & ->)|[[r ->]|[[n ->]|[->|[->|[[cb ->]|[cb ->]]]]]]]];
      cbn; unfold lock; rewrite Hf; cbn; by rewrite Hm.
Qed.

(** *** The fields of a future *)

(** The fields of a future agree at every moment, between any two statements
    of any goroutines: a future that is not started is Pending; a Running or
    completed future is started; a closed channel means the future is started
    and in a terminal state; Pending means no error and the zero value;
    Fulfilled means no error; Rejected means an error and the zero value.  The
    parent captured by the closure of Then was allocated before the child, so
    chains have no cycle. *)
Theorem future_fields_agree c :
  reachable c →
  ∀ f fu, futs c !! f = Some fu →
    (started fu = false → state fu = Pending ∧ done fu = false) ∧
    (state fu ≠ Pending → started fu = true) ∧
    (done fu = true → started fu = true ∧ terminal (state fu) = true) ∧
    (state fu = Pending → err fu = None ∧ result fu = zero fu) ∧
    (state fu = Fulfilled → err fu = None) ∧
    (state fu = Rejected → err fu ≠ None ∧ result fu = zero fu) ∧
    (∀ p nextTask, task fu = ThenTask p nextTask → p < f ∧ zero fu = Nil).
Proof.
  intros Hr f fu Hf.
  destruct (inv_fut _ (reachable_inv _ Hr) _ _ Hf) as (Hp & Hs & Hd & Hpe & HF & HR).
  split_and!.
  - intros E. split; [by apply Hs|].
    destruct (done fu) eqn:E'; [|done]. destruct (Hd eq_refl); congruence.
  - intros Hn. destruct (started fu) eqn:E; [done|]. by destruct Hn; apply Hs.
  - exact Hd.
  - exact Hpe.
  - exact HF.
  - exact HR.
  - exact Hp.
Qed.

(** *** Futures are lazy *)

Lemma exec_sets_started i F t ef f fu fu' :
  exec i F t = Some ef → F !! f = Some fu → e_futs ef !! f = Some fu' →
  started fu = false → started fu' = true →
  ∃ k, t = StartSetStarted f k.
Proof.
  intros H Hf Hf' Hs Hs'.
  assert (Hsame : ∀ g x x', F !! g = Some x →
            <[g:=x']> F !! f = Some fu' → started x' = started x → False).
  { intros g x x' Hg Hl Hx. destruct (decide (f = g)) as [->|Hne].
    - rewrite list_lookup_insert_eq in Hl by by eapply lookup_lt_Some.
      congruence.
    - rewrite list_lookup_insert_ne in Hl by done. congruence. }
  destruct t; exec_cases H; cbn [e_futs] in Hf'.
  all: try (exfalso; congruence).
  all: try (exfalso; eapply Hsame; [|eassumption|]; [eassumption|reflexivity]).
  all: try (exfalso; apply lookup_app_Some in Hf' as [Hf'|[Hge Hf']];
            [congruence|apply lookup_lt_Some in Hf; lia]).
  destruct (decide (f0 = f)) as [->|Hne]; [by eexists|].
  rewrite list_lookup_insert_ne in Hf' by done. congruence.
Qed.

(** NewFuture runs nothing, and neither does anything else until Start gets
    to line 66: while [started] is false the future is exactly as allocated
    (Pending, channel open, no error, zero value), its task has not been
    invoked, its channel has not been closed and none of its callbacks has
    been called; the allocation itself adds no goroutine and records nothing;
    and the one statement that sets [started] is line 66 of Start. *)
Theorem unstarted_future_is_idle c :
  reachable c →
  (∀ f fu, futs c !! f = Some fu → started fu = false →
     state fu = Pending ∧ done fu = false ∧ err fu = None ∧
     result fu = zero fu ∧
     ntask f (trace c) = 0 ∧ nclose f (trace c) = 0 ∧
     fires f (trace c) = [] ∧ cbargs f (trace c) = []) ∧
  (∀ z v e c', call c (CallNew z v e) = Some c' →
     futs c' = futs c ++ [NewFuture z (Prim v e)] ∧
     pool c' = pool c ∧ trace c' = trace c ∧
     ntask (length (futs c)) (trace c') = 0) ∧
  (∀ i t c' f fu fu', pool c !! i = Some t → thread_step c i = Some c' →
     futs c !! f = Some fu → futs c' !! f = Some fu' →
     started fu = false → started fu' = true →
     ∃ k, t = StartSetStarted f k).
Proof.
  intros Hr. destruct (reachable_hist _ Hr) as [HI HH]. split; [|split].
  - intros f fu Hf Hs.
    destruct (inv_fut _ HI _ _ Hf) as (_ & Hst & Hd & Hpe & _).
    destruct (hist_fut _ HH _ _ Hf) as (Hnt & _ & Hnc & Hfi & _ & _ & _ & Hcb & _).
    pose proof (Hst Hs) as Hp. destruct (Hpe Hp) as [He Hz].
    assert (done fu = false) as Hdn.
    { destruct (done fu) eqn:E; [|done]. destruct (Hd eq_refl); congruence. }
    split_and!; try done.
    + by apply Hnt.
    + by rewrite Hdn in Hnc.
    + apply Hfi. by rewrite Hp.
    + destruct (cbargs f (trace c)) as [|a l] eqn:E; [done|exfalso].
      destruct (Hcb a) as [[Hx _]|[Hx _]]; [by left|congruence..].
  - intros z v e c' Hc. cbn in Hc. injection Hc as <-. cbn. split_and!; try done.
    by destruct (hist_unborn _ HH (length (futs c))) as (? & _).
  - intros i t c' f fu fu' Hi Hstep Hf Hf' Hs Hs'.
    unfold thread_step in Hstep. rewrite Hi in Hstep. cbn in Hstep.
    destruct (exec i (futs c) t) as [ef|] eqn:Hex; [|done]. cbn in Hstep.
    injection Hstep as <-. cbn in Hf'.
    by eapply exec_sets_started.
Qed.

(** *** Callbacks and outcomes *)

(** At every moment: a callback of a future is only ever called, on either
    path, with the stored outcome of the terminal state the future is in, a
    value when it is Fulfilled and an error when it is Rejected, so no callback
    is called before the future completes and the callbacks of the other list
    are never called at all; and the calls made by the completion path are an
    initial part of the list it fires, in the order of the list. *)
Theorem callbacks_follow_outcome c :
  reachable c →
  ∀ f fu, futs c !! f = Some fu →
    (∀ j cb a, EvFire j f cb a ∈ trace c ∨ EvLate j f cb a ∈ trace c →
       (state fu = Fulfilled ∧ a = ArgVal (result fu)) ∨
       (state fu = Rejected ∧ a = ArgErr (err fu))) ∧
    (terminal (state fu) = false → cbargs f (trace c) = []) ∧
    (∃ rest, completions fu = fires f (trace c) ++ rest) ∧
    (done fu = true → fires f (trace c) = completions fu).
Proof.
  intros Hr f fu Hf. destruct (reachable_hist _ Hr) as [HI HH].
  destruct (hist_fut _ HH _ _ Hf) as (_ & _ & _ & Hfi & Hdn & _ & _ & Hcb & _).
  split_and!.
  - intros j cb a Hin. apply Hcb. eapply called_cbargs.
    destruct Hin; [by right|by left].
  - intros Ht. destruct (cbargs f (trace c)) as [|a l] eqn:E; [done|exfalso].
    destruct (Hcb a) as [[Hx _]|[Hx _]]; [by left|by rewrite Hx in Ht..].
  - destruct (terminal (state fu)) eqn:Ht; [|exists (completions fu); by rewrite Hfi].
    destruct (done fu) eqn:Hd; [exists []; by rewrite app_nil_r, Hdn|].
    destruct (inv_fut _ HI _ _ Hf) as (_ & Hst & _).
    assert (started fu = true) as Hs.
    { destruct (started fu) eqn:E; [done|]. rewrite (Hst eq_refl) in Ht. done. }
    destruct (inv_holder _ HI _ _ Hf Hs Hd) as (i & t & Hi & Hin).
    destruct (inv_thread _ HI _ _ Hi) as (_ & Htk & _).
    pose proof (hist_thread _ HH _ _ Hi) as Hk.
    apply list_elem_of_fmap in Hin as ([g ph] & Hg & Hin). cbn in Hg. subst g.
    rewrite Forall_forall in Htk. destruct (Htk _ Hin) as (fu' & Hfu' & Hph).
    cbn in Hfu'. assert (fu' = fu) as -> by congruence.
    destruct Hph as (_ & _ & Hph).
    assert (ph = PhTerminal) as ->.
    { destruct ph; cbn in Hph; try done;
        first [ by rewrite Hph in Ht
              | destruct Hph as [E _]; by rewrite E in Ht ]. }
    clear Htk.
    destruct t;
      repeat match goal with
      | k : skont |- _ => destruct k
      | r : rkont |- _ => destruct r
      end; cbn in Hin;
      repeat (apply elem_of_cons in Hin as [Hin|Hin]; [simplify_eq|]);
      try (by apply elem_of_nil in Hin); cbn in Hk.
    all: try (destruct Hk as [_ ->]; by exists (completions fu)).
    all: destruct Hk as (fu' & Hfu' & Hk); assert (fu' = fu) as -> by congruence.
    + destruct Hk as [_ <-]. by eexists.
    + destruct Hk as (_ & _ & <-). by eexists.
    + exists []. by rewrite app_nil_r.
  - exact Hdn.
Qed.

(** *** Chains *)

(** A future returned by Then never gets ahead of its parent.  Its
    continuation is only called once the parent's channel is closed, with the
    value stored in the parent and only when the parent holds no error; and
    when the child is in a terminal state the parent is complete: terminal,
    channel closed once, and all the callbacks of its list called. *)
Theorem child_follows_parent c :
  reachable c →
  ∀ d du p nextTask, futs c !! d = Some du → task du = ThenTask p nextTask →
    p < d ∧
    (∀ v, v ∈ nexts d (trace c) →
       sat (futs c) p (λ pu, done pu = true ∧ state pu = Fulfilled ∧
                             err pu = None ∧ result pu = v)) ∧
    (terminal (state du) = true →
       sat (futs c) p (λ pu, done pu = true ∧ terminal (state pu) = true ∧
         nclose p (trace c) = 1 ∧ fires p (trace c) = completions pu ∧
         (state pu = Rejected → state du = Rejected ∧ err du = err pu) ∧
         (state pu = Fulfilled →
            (result du, err du) =
              stored Nil (nextTask (result pu)).1 (nextTask (result pu)).2))).
Proof.
  intros Hr d du p nx Hd Htask. destruct (reachable_hist _ Hr) as [HI HH].
  destruct (inv_fut _ HI _ _ Hd) as (Hp & _ & _ & _ & HFd & HRd).
  destruct (Hp _ _ Htask) as [Hlt Hz].
  split; [done|]. split.
  - intros v Hv.
    destruct (hist_fut _ HH _ _ Hd) as (_ & _ & _ & _ & _ & _ & Hnx & _).
    destruct (Hnx v Hv) as (p' & nx' & Htask' & pu & Hpu & Hdn & He & Hres).
    assert (p' = p) as -> by congruence.
    exists pu. split; [done|]. split_and!; try done.
    destruct (inv_fut _ HI _ _ Hpu) as (_ & _ & Hdt & _ & _ & HR).
    destruct (Hdt Hdn) as [_ Ht].
    destruct (state pu) eqn:E; try done. destruct (HR eq_refl); congruence.
  - intros Ht.
    destruct (link_outcome _ _ _ _ _ Hr Hd Htask Ht) as (pu & Hpu & Hdn & Htp & Heq).
    exists pu. split; [done|].
    destruct (hist_fut _ HH _ _ Hpu) as (_ & _ & Hnc & _ & Hfi & _).
    destruct (inv_fut _ HI _ _ Hpu) as (_ & _ & _ & _ & HF & HR).
    split_and!; try done.
    + by rewrite Hdn in Hnc.
    + by apply Hfi.
    + intros Hs. destruct (HR Hs) as [He _].
      destruct (err pu) as [m|] eqn:E; [|done]. injection Heq as _ Heq.
      split; [|done].
      destruct (state du) eqn:Es; try done. by rewrite (HFd eq_refl) in Heq.
    + intros Hs. by rewrite (HF Hs) in Heq.
Qed.

(** *** The numbering of the states *)

(** The numbers that state.go gives to the states follow the life of a future:
    they tell the states apart, a state is terminal exactly when its number is
    at least that of Fulfilled, and along every run the number of a future's
    state never decreases. *)
Theorem State_numbers_follow_lifecycle c :
  reachable c →
  (∀ s s', State_iota s = State_iota s' → s = s') ∧
  (∀ s, terminal s = true ↔ State_iota Fulfilled ≤ State_iota s) ∧
  (∀ c' f fu, rtc step c c' → futs c !! f = Some fu →
     ∃ fu', futs c' !! f = Some fu' ∧
       State_iota (state fu) ≤ State_iota (state fu')).
Proof.
  intros Hr. split_and!.
  - by intros [] [].
  - intros []; cbn; split; (done || lia).
  - intros c' f fu Hs. revert fu.
    induction Hs as [c|c c1 c2 Hs1 Hs2 IH]; intros fu Hf.
    + by exists fu.
    + destruct (step_state _ _ Hr Hs1 _ _ Hf) as (fu1 & Hf1 & Hst).
      destruct (IH (reachable_step _ _ Hr Hs1) _ Hf1) as (fu2 & Hf2 & Hle).
      exists fu2. split; [done|].
      destruct Hst as [E|[[E E']|[[E E']|[E E']]]]; rewrite ?E, ?E' in *; cbn in *; lia.
Qed.

(** *** What the accessors have read

    [is_child F f n]: the future [n] was made by a call of Then on [f]. *)
Definition is_child (F : list Future) (f n : fid) : Prop :=
  sat F n (λ cu, ∃ nextTask, task cu = ThenTask f nextTask).

(** What a goroutine inside Then, State or GetNext carries: the child it has
    allocated, a state the future has been in, a successor that was linked. *)
Definition carries (F : list Future) (t : Thread) : Prop :=
  match t with
  | StUnlock f s | Done (RetState f s) =>
      sat F f (λ fu, State_iota s ≤ State_iota (state fu))
  | ThenLock f n | ThenSetNext f n | ThenUnlock f n | Done (RetThen f n) =>
      is_child F f n
  | NxUnlock f (Some n) | Done (RetNext f (Some n)) => is_child F f n
  | _ => True
  end.

Record Seen (c : Config) : Prop := mkSeen {
  seen_thread : ∀ i t, pool c !! i = Some t → carries (futs c) t;
  seen_next : ∀ f fu n, futs c !! f = Some fu → next fu = Some n →
    is_child (futs c) f n
}.

(** What one statement leaves of a future: its task, a state that is not
    behind, and its successor unless the statement is line 53 of Then. *)
Definition grows (t : Thread) (F F' : list Future) : Prop :=
  ∀ g fu, F !! g = Some fu →
    ∃ fu', F' !! g = Some fu' ∧ task fu' = task fu ∧
      State_iota (state fu) ≤ State_iota (state fu') ∧
      (next fu' = next fu ∨ ∃ n, t = ThenSetNext g n ∧ next fu' = Some n).

Lemma exec_grows i F t ef :
  thread_ok F i t → exec i F t = Some ef → grows t F (e_futs ef).
Proof.
  intros Hok H g fu Hg.
  assert (Hins : ∀ f x x', F !! f = Some x →
    task x' = task x → State_iota (state x) ≤ State_iota (state x') →
    (next x' = next x ∨ ∃ n, t = ThenSetNext f n ∧ next x' = Some n) →
    ∃ fu', <[f:=x']> F !! g = Some fu' ∧ task fu' = task fu ∧
      State_iota (state fu) ≤ State_iota (state fu') ∧
      (next fu' = next fu ∨ ∃ n, t = ThenSetNext g n ∧ next fu' = Some n)).
  { intros f x x' Hf H1 H2 H3. destruct (decide (g = f)) as [->|Hne].
    - exists x'. rewrite list_lookup_insert_eq by by eapply lookup_lt_Some.
      assert (x = fu) as -> by congruence. auto.
    - exists fu. rewrite list_lookup_insert_ne by done. auto. }
  destruct t; exec_cases H; ok_inv Hok; cbn [e_futs].
  all: try (exists fu; split; [done || by apply lookup_app_l_Some|auto]).
  all: eapply Hins; [eassumption|reflexivity| |cbn; eauto].
  all: cbn; try lia.
  all: repeat match goal with E : state _ = _ |- _ => rewrite E; clear E end; cbn; lia.
Qed.

Lemma is_child_grows t F F' f n : grows t F F' → is_child F f n → is_child F' f n.
Proof.
  intros Hg (cu & Hcu & nx & Ht).
  destruct (Hg _ _ Hcu) as (cu' & Hcu' & Htask & _).
  exists cu'. split; [done|]. exists nx. congruence.
Qed.

Lemma carries_grows t0 F F' t : grows t0 F F' → carries F t → carries F' t.
Proof.
  intros Hg Hc.
  assert (Hs : ∀ f s, sat F f (λ fu, State_iota s ≤ State_iota (state fu)) →
                      sat F' f (λ fu, State_iota s ≤ State_iota (state fu))).
  { intros f s (fu & Hfu & Hle). destruct (Hg _ _ Hfu) as (fu' & Hfu' & _ & Hle' & _).
    exists fu'. split; [done|lia]. }
  destruct t; cbn in *; try done; eauto using is_child_grows.
  - destruct n; eauto using is_child_grows.
  - destruct r; try done; eauto using is_child_grows.
    destruct n; eauto using is_child_grows.
Qed.

Lemma grows_app F x t : grows t F (F ++ [x]).
Proof.
  intros g fu Hg. exists fu. split; [by apply lookup_app_l_Some|auto].
Qed.

Lemma exec_carries i F t ef :
  thread_ok F i t → carries F t →
  (∀ f fu n, F !! f = Some fu → next fu = Some n → is_child F f n) →
  exec i F t = Some ef →
  carries (e_futs ef) (e_thread ef) ∧ Forall (carries (e_futs ef)) (e_spawn ef).
Proof.
  intros Hok Hc Hnx H.
  pose proof (exec_grows _ _ _ _ Hok H) as Hg.
  assert (Hst := carries_grows t F (e_futs ef)).
  destruct t;
    repeat match goal with
    | k : skont |- _ => destruct k
    | r : rkont |- _ => destruct r
    end;
    exec_cases H; cbn [e_thread e_spawn e_futs] in *;
    (split; [|repeat constructor]); try done.
  all: try (by apply (Hst (ThenLock f n) Hg)).
  all: try (by apply (Hst (StUnlock f s) Hg)).
  - exists (NewFuture Nil (ThenTask f nextTask)). split; [|by eexists].
    by apply list_lookup_middle.
  - by exists fu.
  - destruct (next fu) as [n|] eqn:En; [|done]. by eapply Hnx.
  - destruct n as [n|]; [|done]. by apply (Hst (NxUnlock f (Some n)) Hg).
Qed.

Lemma exec_next_ok i F t ef :
  thread_ok F i t → carries F t →
  (∀ f fu n, F !! f = Some fu → next fu = Some n → is_child F f n) →
  exec i F t = Some ef →
  ∀ f fu n, e_futs ef !! f = Some fu → next fu = Some n →
    is_child (e_futs ef) f n.
Proof.
  intros Hok Hc Hnx H f fu' n Hf' Hn.
  pose proof (exec_grows _ _ _ _ Hok H) as Hg.
  destruct (decide (f < length F)) as [Hlt|Hge].
  - destruct (lookup_lt_is_Some_2 _ _ Hlt) as [fu Hfu].
    destruct (Hg _ _ Hfu) as (fu2 & Hfu2 & _ & _ & Hnext).
    assert (fu2 = fu') as -> by congruence.
    destruct Hnext as [E|(m & -> & E)].
    + eapply is_child_grows; [done|]. eapply Hnx; [done|congruence].
    + assert (m = n) as -> by congruence.
      eapply is_child_grows; [done|]. exact Hc.
  - exfalso. destruct t; exec_cases H; cbn [e_futs] in Hf'.
    all: try (apply lookup_lt_Some in Hf'; rewrite ?length_insert in Hf'; lia).
    apply lookup_app_Some in Hf' as [Hf'|[_ Hf']];
      [apply lookup_lt_Some in Hf'; lia|].
    apply list_lookup_singleton_Some in Hf' as [_ <-]. done.
Qed.

Lemma thread_step_seen c i c' :
  Inv c → Seen c → thread_step c i = Some c' → Seen c'.
Proof.
  intros HI [Hth Hnx] Hstep. unfold thread_step in Hstep.
  destruct (pool c !! i) as [t|] eqn:Hi; [|done]. cbn in Hstep.
  destruct (exec i (futs c) t) as [ef|] eqn:Hex; [|done]. cbn in Hstep.
  injection Hstep as <-.
  pose proof (inv_thread _ HI _ _ Hi) as Hok.
  pose proof (exec_grows _ _ _ _ Hok Hex) as Hg.
  destruct (exec_carries _ _ _ _ Hok (Hth _ _ Hi) Hnx Hex) as [Hself Hsp].
  split; cbn.
  - intros j tj Hj.
    apply pool_lookup in Hj as [[-> ->]|[[Hne Hj]|(_ & _ & Hin)]];
      [done| |by rewrite Forall_forall in Hsp; apply Hsp|by eapply lookup_lt_Some].
    eapply carries_grows; [done|]. by eapply Hth.
  - exact (exec_next_ok _ _ _ _ Hok (Hth _ _ Hi) Hnx Hex).
Qed.

Lemma call_seen c k c' : Seen c → call c k = Some c' → Seen c'.
Proof.
  intros [Hth Hnx] Hc.
  assert (Hnew : ∀ z v e, Seen (mkConfig (futs c ++ [NewFuture z (Prim v e)])
                                         (pool c) (trace c))).
  { intros z v e. split; cbn.
    - intros i t Hi. eapply (carries_grows t); [apply grows_app|by eapply Hth].
    - intros f fu n Hf Hn. apply lookup_app_Some in Hf as [Hf|[_ Hf]].
      + eapply (is_child_grows (Done RetUnit)); [apply grows_app|by eapply Hnx].
      + apply list_lookup_singleton_Some in Hf as [_ <-]. done. }
  assert (Hent : ∀ t, carries (futs c) t → Seen (mkConfig (futs c) (pool c ++ [t]) (trace c))).
  { intros t Ht. split; cbn; [|done].
    intros i ti Hi. apply lookup_app_Some in Hi as [Hi|[_ Hi]]; [by eapply Hth|].
    apply list_lookup_singleton_Some in Hi as [_ <-]. done. }
  destruct k; cbn in Hc; try (case_decide; [|done]); injection Hc as <-;
    first [apply Hnew|by apply Hent].
Qed.

Lemma reachable_seen c : reachable c → Seen c.
Proof.
  unfold reachable. intros H. apply rtc_nsteps in H as [n H].
  revert c H. induction n as [|n IH]; intros c H.
  - inversion H; subst.
    split; cbn; [intros i t Hi|intros f fu m Hf]; by rewrite lookup_nil in *.
  - apply nsteps_inv_r in H as (c0 & H0 & Hs).
    assert (reachable c0) as Hr0 by (by eapply rtc_nsteps_2).
    destruct Hs as [i Hs|k Hs].
    + eapply thread_step_seen; [by apply reachable_inv|by apply IH|done].
    + eapply call_seen; [by apply IH|done].
Qed.

(** *** State *)

Lemma State_runs F P tr i f fu :
  P !! i = Some (StLock f) → F !! f = Some fu → mutex fu = None →
  run (mkConfig F P tr) i 3 =
    Some (mkConfig F (<[i := Done (RetState f (state fu))]> P) tr).
Proof.
  intros Hi Hf Hm. unfold run, thread_step, lock, unlock, goto.
  run_simpl Hi Hf. rewrite Hm. run_simpl Hi Hf.
  by rewrite (relock _ _ Hm), (list_insert_id _ _ _ Hf).
Qed.

(** State (lines 126-130).  Run without interruption on a future whose mutex
    is free, the call returns the state the future is in and changes nothing;
    while another goroutine holds the mutex it waits.  Whatever the other
    goroutines do, the read of line 129 is made with the mutex held, and a
    state that State has returned is one the future has been in: the future is
    never behind it. *)
Theorem State_reads_under_mutex c :
  reachable c →
  (∀ i f fu, pool c !! i = Some (StLock f) → futs c !! f = Some fu →
     match mutex fu with
     | None =>
         run c i 3 =
           Some (mkConfig (futs c) (<[i := Done (RetState f (state fu))]> (pool c))
                          (trace c))
     | Some _ => thread_step c i = None
     end) ∧
  (∀ i f, pool c !! i = Some (StRead f) →
     sat (futs c) f (λ fu, mutex fu = Some i ∧
       thread_step c i =
         Some (mkConfig (futs c) (<[i := StUnlock f (state fu)]> (pool c))
                        (trace c)))) ∧
  (∀ i f s, pool c !! i = Some (Done (RetState f s)) →
     sat (futs c) f (λ fu, State_iota s ≤ State_iota (state fu) ∧
       (terminal s = true → state fu = s))).
Proof.
  intros Hr. destruct (reachable_hist _ Hr) as [HI HH].
  pose proof (reachable_seen _ Hr) as HS. split_and!.
  - intros i f fu Hi Hf. destruct (mutex fu) eqn:Hm.
    + unfold thread_step. rewrite Hi. cbn. unfold lock. rewrite Hf. cbn.
      by rewrite Hm.
    + destruct c as [F P tr]. by apply State_runs.
  - intros i f Hi.
    destruct (inv_thread _ HI _ _ Hi) as (Hl & _). cbn in Hl.
    apply Forall_cons in Hl as [(fu & Hfu & Hm) _].
    exists fu. split; [done|]. split; [done|].
    unfold thread_step. rewrite Hi. cbn. rewrite Hfu. cbn. by rewrite !app_nil_r.
  - intros i f s Hi.
    destruct (seen_thread _ HS _ _ Hi) as (fu & Hfu & Hle).
    exists fu. split; [done|]. split; [done|]. intros Ht.
    destruct (hist_thread _ HH _ _ Hi Ht) as (fu' & Hfu' & <-). congruence.
Qed.

(** *** GetNext and the successor link *)

Lemma GetNext_runs F P tr i f fu :
  P !! i = Some (NxLock f) → F !! f = Some fu → mutex fu = None →
  run (mkConfig F P tr) i 3 =
    Some (mkConfig F (<[i := Done (RetNext f (next fu))]> P) tr).
Proof.
  intros Hi Hf Hm. unfold run, thread_step, lock, unlock, goto.
  run_simpl Hi Hf. rewrite Hm. run_simpl Hi Hf.
  by rewrite (relock _ _ Hm), (list_insert_id _ _ _ Hf).
Qed.

(** GetNext (lines 138-142) and line 53 of Then.  The successor of a future
    is nil until Then is called on it; when it is not nil it is a future that a
    call of Then on this very future has allocated, so a later one.  The same
    holds of what Then returns and of what GetNext has returned, whatever the
    other goroutines do.  Run without interruption on a future whose mutex is
    free, GetNext returns the stored successor and changes nothing; and called
    right after a call of Then has returned, it returns the future Then
    returned. *)
Theorem GetNext_returns_linked_child c :
  reachable c →
  (∀ f fu n, futs c !! f = Some fu → next fu = Some n →
     f < n ∧ is_child (futs c) f n) ∧
  (∀ i f n, pool c !! i = Some (Done (RetThen f n)) →
     f < n ∧ is_child (futs c) f n) ∧
  (∀ i f n, pool c !! i = Some (Done (RetNext f (Some n))) →
     f < n ∧ is_child (futs c) f n) ∧
  (∀ z v e c', call c (CallNew z v e) = Some c' →
     sat (futs c') (length (futs c)) (λ fu, next fu = None)) ∧
  (∀ i f fu, pool c !! i = Some (NxLock f) → futs c !! f = Some fu →
     mutex fu = None →
     run c i 3 =
       Some (mkConfig (futs c) (<[i := Done (RetNext f (next fu))]> (pool c))
                      (trace c))) ∧
  (∀ i f nx fu c1 c2,
     pool c !! i = Some (ThenStarted f nx) → futs c !! f = Some fu →
     mutex fu = None →
     run c i 5 = Some c1 → call c1 (CallGetNext f) = Some c2 →
     pool c1 !! i = Some (Done (RetThen f (length (futs c)))) ∧
     ∃ c3, run c2 (length (pool c1)) 3 = Some c3 ∧
       pool c3 !! length (pool c1) =
         Some (Done (RetNext f (Some (length (futs c)))))).
Proof.
  intros Hr. pose proof (reachable_inv _ Hr) as HI.
  pose proof (reachable_seen _ Hr) as HS.
  assert (Hlt : ∀ f n, is_child (futs c) f n → f < n).
  { intros f n (cu & Hcu & nx & Ht).
    destruct (inv_fut _ HI _ _ Hcu) as (Hp & _). by destruct (Hp _ _ Ht). }
  split_and!.
  - intros f fu n Hf Hn. pose proof (seen_next _ HS _ _ _ Hf Hn). auto.
  - intros i f n Hi. pose proof (seen_thread _ HS _ _ Hi). auto.
  - intros i f n Hi. pose proof (seen_thread _ HS _ _ Hi). auto.
  - intros z v e c' Hc. cbn in Hc. injection Hc as <-. cbn.
    eexists. split; [by apply list_lookup_middle|done].
  - intros i f fu Hi Hf Hm. destruct c as [F P tr]. by apply GetNext_runs.
  - intros i f nx fu c1 c2 Hi Hf Hm Hrun Hcall.
    destruct c as [F P tr]. cbn in Hi, Hf.
    rewrite (Then_runs F P tr i f nx fu Hi Hf Hm) in Hrun. injection Hrun as <-.
    cbn in Hcall. case_decide; [|done]. injection Hcall as <-. cbn.
    assert (Hil : i < length P) by by eapply lookup_lt_Some.
    assert (Hfl : f < length F) by by eapply lookup_lt_Some.
    split; [apply lookup_app_l_Some; by apply list_lookup_insert_eq|].
    eexists. split.
    + apply GetNext_runs.
      * by apply list_lookup_middle.
      * apply lookup_app_l_Some. by apply list_lookup_insert_eq.
      * by cbn.
    + cbn. apply list_lookup_insert_eq. rewrite !length_app. cbn. lia.
Qed.

(** *** The first call of Start *)

Lemma Start_runs F P tr i f fu :
  P !! i = Some (StartLock f STop) → F !! f = Some fu → mutex fu = None →
  if negb (State_eqb (state fu) Pending) || started fu
  then run (mkConfig F P tr) i 3 = Some (mkConfig F (<[i := Done RetUnit]> P) tr)
  else run (mkConfig F P tr) i 6 =
         Some (mkConfig (<[f := set_state Running (set_started true fu)]> F)
                        (<[i := Done RetUnit]> P ++ [GTask f]) tr).
Proof.
  intros Hi Hf Hm.
  destruct (negb (State_eqb (state fu) Pending) || started fu) eqn:E;
    unfold run, thread_step, lock, unlock, goto;
    run_simpl Hi Hf; rewrite Hm; run_simpl Hi Hf; rewrite E; run_simpl Hi Hf.
  - by rewrite (relock _ _ Hm), (list_insert_id _ _ _ Hf).
  - do 3 f_equal. destruct fu; cbn in *. by subst.
Qed.

(** Start (lines 60-68), called on a future whose mutex is free and run
    without interruption.  If the future is not started, the call sets
    [started], moves the state from Pending to Running, spawns one goroutine
    for the task and returns after six statements, before the task has been
    invoked; left to run, that goroutine completes the future.  If the future
    is started, the call returns after three statements and nothing has
    changed. *)
Theorem Start_launches_the_task c :
  reachable c →
  ∀ i f fu, pool c !! i = Some (StartLock f STop) → futs c !! f = Some fu →
    mutex fu = None →
    if started fu
    then run c i 3 = Some (mkConfig (futs c) (<[i := Done RetUnit]> (pool c)) (trace c))
    else
      state fu = Pending ∧ ntask f (trace c) = 0 ∧
      ∃ c', run c i 6 = Some c' ∧
        c' = mkConfig (<[f := set_state Running (set_started true fu)]> (futs c))
                      (<[i := Done RetUnit]> (pool c) ++ [GTask f]) (trace c) ∧
        ∀ n, measure c' ≤ n →
          sat (futs (settle n c')) f (λ fu', done fu' = true ∧
            terminal (state fu') = true ∧
            expected (futs (settle n c')) f = Some (result fu', err fu')).
Proof.
  intros Hr i f fu Hi Hf Hm. destruct (reachable_hist _ Hr) as [HI HH].
  destruct (inv_fut _ HI _ _ Hf) as (_ & Hst & _).
  destruct (hist_fut _ HH _ _ Hf) as (Hnt & _).
  destruct c as [F P tr]. cbn in *.
  pose proof (Start_runs F P tr i f fu Hi Hf Hm) as Hrun.
  destruct (started fu) eqn:Hs.
  - by rewrite orb_true_r in Hrun.
  - rewrite (Hst eq_refl) in Hrun. cbn [negb State_eqb State_iota Nat.eqb orb] in Hrun.
    split; [exact (Hst eq_refl)|]. split; [exact (Hnt eq_refl)|].
    eexists. split; [exact Hrun|]. split; [done|].
    intros n Hn.
    set (c' := mkConfig (<[f := set_state Running (set_started true fu)]> F)
                        (<[i := Done RetUnit]> P ++ [GTask f]) tr) in *.
    assert (Hr' : reachable c').
    { eapply reachable_rtc; [exact Hr|]. exact (run_rtc _ i 6 _ Hrun). }
    destruct (settle_completes n c' Hr' Hn) as (Hr2 & _ & Hdone & _).
    destruct (Hdone f (set_state Running (set_started true fu))) as (fu' & Hfu' & Hd).
    { cbn. apply list_lookup_insert_eq. by eapply lookup_lt_Some. }
    { done. }
    exists fu'. split; [done|]. split; [done|].
    destruct (inv_fut _ (reachable_inv _ Hr2) _ _ Hfu') as (_ & _ & Hdt & _).
    destruct (Hdt Hd) as [_ Ht]. split; [done|].
    by apply expected_correct.
Qed.

(** *** After Result has returned *)

Lemma Result_runs F P tr i f fu :
  P !! i = Some (ResCheck f RTop) → F !! f = Some fu → mutex fu = None →
  started fu = true → done fu = true →
  run (mkConfig F P tr) i 5 =
    Some (mkConfig F (<[i := Done (RetResult f (result fu) (err fu))]> P) tr).
Proof.
  intros Hi Hf Hm Hs Hd. unfold run, thread_step, lock, unlock, goto.
  run_simpl Hi Hf. rewrite Hs. run_simpl Hi Hf. rewrite Hd. run_simpl Hi Hf.
  rewrite Hm. run_simpl Hi Hf.
  by rewrite (relock _ _ Hm), (list_insert_id _ _ _ Hf).
Qed.

(** Once a call of Result on a future has returned [(v, e)], then at any later
    moment at which the mutex of the future is free: a call of State returns
    Fulfilled when [e] is nil and Rejected otherwise; another call of Result
    returns [(v, e)] after five statements, without waiting; a call of
    OnSuccess, when [e] is nil, calls its callback with [v], and a call of
    OnFailure, when [e] is not nil, calls its callback with [e]; and none of
    these calls changes a field of a future. *)
Theorem calls_after_Result c :
  reachable c →
  ∀ i f v e, pool c !! i = Some (Done (RetResult f v e)) →
    ∀ c' fu', rtc step c c' → futs c' !! f = Some fu' → mutex fu' = None →
      (∀ j, pool c' !! j = Some (StLock f) →
         run c' j 3 =
           Some (mkConfig (futs c')
                   (<[j := Done (RetState f (match e with
                                             | None => Fulfilled
                                             | Some _ => Rejected
                                             end))]> (pool c'))
                   (trace c'))) ∧
      (∀ j, pool c' !! j = Some (ResCheck f RTop) →
         run c' j 5 =
           Some (mkConfig (futs c') (<[j := Done (RetResult f v e)]> (pool c'))
                          (trace c'))) ∧
      (∀ j cb, pool c' !! j = Some (OSLock f cb) → e = None →
         run c' j 4 =
           Some (mkConfig (futs c') (<[j := Done RetUnit]> (pool c'))
                          (trace c' ++ [EvLate j f cb (ArgVal v)]))) ∧
      (∀ j cb, pool c' !! j = Some (OFLock f cb) → e ≠ None →
         run c' j 4 =
           Some (mkConfig (futs c') (<[j := Done RetUnit]> (pool c'))
                          (trace c' ++ [EvLate j f cb (ArgErr e)]))).
Proof.
  intros Hr i f v e Hi c' fu' Hs Hf' Hm.
  destruct (returned_pair _ _ _ _ _ Hr Hi) as (fu & Hfu & Hd & Ht & <- & <-).
  destruct (steps_frozen _ _ _ _ Hr Hs Hfu Ht) as (fu2 & Hfu2 & Es & Er & Ee & _ & Ed).
  assert (fu2 = fu') as -> by congruence.
  pose proof (reachable_inv _ (reachable_rtc _ _ Hr Hs)) as HI'.
  destruct (inv_fut _ HI' _ _ Hf') as (_ & _ & Hdt & _ & HF & HR).
  destruct (Hdt (Ed Hd)) as [Hst' Ht'].
  assert (Hstate : state fu' = match err fu with None => Fulfilled | Some _ => Rejected end).
  { rewrite <- Ee. destruct (state fu') eqn:E; try done.
    - by rewrite (HF eq_refl).
    - destruct (HR eq_refl) as [Hne _]. by destruct (err fu'). }
  destruct c' as [F' P' tr']. cbn [futs pool trace] in *. split_and!.
  - intros j Hj. rewrite (State_runs F' P' tr' j f fu' Hj Hf' Hm). by rewrite Hstate.
  - intros j Hj.
    rewrite (Result_runs F' P' tr' j f fu' Hj Hf' Hm Hst' (Ed Hd)). by rewrite Er, Ee.
  - intros j cb Hj He.
    destruct (OnSuccess_runs F' P' tr' j f cb fu' Hj Hf' Hm) as [_ ->].
    rewrite Hstate, He. cbn. by rewrite Er.
  - intros j cb Hj He.
    destruct (OnFailure_runs F' P' tr' j f cb fu' Hj Hf' Hm) as [_ ->].
    rewrite Hstate. destruct (err fu) eqn:E; [|done]. cbn. by rewrite Ee.
Qed.

(** *** Registered callbacks are called *)

Lemma steps_lists c c' f fu :
  reachable c → rtc step c c' → futs c !! f = Some fu →
  ∃ fu', futs c' !! f = Some fu' ∧
    (∃ l, onSuccess fu' = onSuccess fu ++ l) ∧
    (∃ l, onFailure fu' = onFailure fu ++ l).
Proof.
  intros Hr Hs. revert fu.
  induction Hs as [c|c c1 c2 Hs1 Hs2 IH]; intros fu Hf.
  - exists fu. split; [done|]. split; exists []; by rewrite app_nil_r.
  - destruct (step_lists _ _ _ _ Hr Hs1 Hf) as (fu1 & Hf1 & HS & HF & _).
    destruct (IH (reachable_step _ _ Hr Hs1) _ Hf1) as (fu2 & Hf2 & [l1 E1] & [l2 E2]).
    exists fu2. split; [done|]. split.
    + destruct HS as [->|[cb ->]] in E1; [by eexists|].
      rewrite <- app_assoc in E1. by eexists.
    + destruct HF as [->|[cb ->]] in E2; [by eexists|].
      rewrite <- app_assoc in E2. by eexists.
Qed.

(** A callback that is on a list of a future is called when the future
    completes with the outcome of that list.  Whatever happens after the
    callback is on the list (other registrations, other calls, any schedule),
    the lists keep what they hold, in order; and once the channel of the future
    is closed, every callback that was on [onSuccess] has been called with the
    result if the future is Fulfilled, every callback that was on [onFailure]
    has been called with the error if it is Rejected, and the calls made on
    completion are exactly the list, in order.  A started future does get
    there when the goroutines are left to run. *)
Theorem registered_callbacks_are_called c :
  reachable c →
  ∀ f fu, futs c !! f = Some fu →
    (∀ c' fu', rtc step c c' → futs c' !! f = Some fu' →
       (∃ l, onSuccess fu' = onSuccess fu ++ l) ∧
       (∃ l, onFailure fu' = onFailure fu ++ l) ∧
       (done fu' = true →
          fires f (trace c') = completions fu' ∧
          (state fu' = Fulfilled → ∀ cb, cb ∈ onSuccess fu →
             (cb, ArgVal (result fu')) ∈ fires f (trace c')) ∧
          (state fu' = Rejected → ∀ cb, cb ∈ onFailure fu →
             (cb, ArgErr (err fu')) ∈ fires f (trace c')))) ∧
    (started fu = true → ∀ n, measure c ≤ n →
       sat (futs (settle n c)) f (λ fu', done fu' = true)).
Proof.
  intros Hr f fu Hf. split.
  - intros c' fu' Hs Hf'.
    destruct (steps_lists _ _ _ _ Hr Hs Hf) as (fu2 & Hf2 & [l1 E1] & [l2 E2]).
    assert (fu2 = fu') as -> by congruence.
    split; [by exists l1|]. split; [by exists l2|]. intros Hd.
    destruct (reachable_hist _ (reachable_rtc _ _ Hr Hs)) as [_ HH'].
    destruct (hist_fut _ HH' _ _ Hf') as (_ & _ & _ & _ & Hfi & _).
    rewrite (Hfi Hd). split; [done|]. unfold completions. split.
    + intros -> cb Hin. apply list_elem_of_fmap. exists cb. split; [done|].
      rewrite E1. apply elem_of_app. by left.
    + intros -> cb Hin. apply list_elem_of_fmap. exists cb. split; [done|].
      rewrite E2. apply elem_of_app. by left.
  - intros Hs n Hn.
    destruct (settle_completes n c Hr Hn) as (_ & _ & Hdone & _). by eapply Hdone.
Qed.

(** *** Instances *)

(** A call of Start about to execute its first statement. *)
Definition launch_schedule : list Action :=
  [ Do (CallNew Nil (Int 7) None); Do (CallStart 0) ].

Definition launch_config : Config := default init (play init launch_schedule).

Lemma launch_config_reachable : reachable launch_config.
Proof. apply (play_reachable launch_schedule). by vm_compute. Defined.

(** The chain of the test, complete, and a caller that then asks for the state
    of its last link. *)
Definition chain_then_state : Config :=
  default chain_config (call chain_config (CallState 3)).

(** A success callback on the list of a future that is not started, and the
    same future once it has been started and left to run. *)
Definition registered_schedule : list Action :=
  [ Do (CallNew Nil (Int 7) None); Do (CallOnSuccess 0 1); Settle 40 ].

Definition registered_config : Config :=
  default init (play init registered_schedule).

Definition registered_done : Config :=
  default registered_config
    (play registered_config [Do (CallStart 0); Settle 40]).

Lemma registered_config_reachable : reachable registered_config.
Proof. apply (play_reachable registered_schedule). by vm_compute. Defined.

Lemma mutex_excludes_witness :
  reachable late_success_config ∧
  sat (futs late_success_config) 0 (λ fu, mutex fu = Some 2).
Proof.
  split; [exact late_success_config_reachable|].
  destruct (mutex_excludes late_success_config late_success_config_reachable)
    as (_ & _ & H3 & _).
  apply (H3 2 (OSCheck 0 5) 0); [by vm_compute|by left].
Defined.

Lemma future_fields_agree_witness :
  reachable failing_config ∧
  ∀ fu, futs failing_config !! 2 = Some fu → state fu = Rejected →
    err fu ≠ None ∧ result fu = zero fu.
Proof.
  split; [exact failing_config_reachable|]. intros fu Hf.
  destruct (future_fields_agree failing_config failing_config_reachable 2 fu Hf)
    as (_ & _ & _ & _ & _ & H6 & _).
  exact H6.
Defined.

Lemma unstarted_future_is_idle_witness :
  reachable waiting_config ∧
  ∀ fu, futs waiting_config !! 0 = Some fu → started fu = false →
    state fu = Pending ∧ ntask 0 (trace waiting_config) = 0.
Proof.
  split; [exact waiting_config_reachable|]. intros fu Hf Hs.
  destruct (unstarted_future_is_idle waiting_config waiting_config_reachable)
    as (H1 & _).
  destruct (H1 0 fu Hf Hs) as (Hp & _ & _ & _ & Hn & _). by split.
Defined.

Lemma callbacks_follow_outcome_witness :
  reachable callback_config ∧
  ∀ fu, futs callback_config !! 0 = Some fu →
    ∀ j cb a, EvFire j 0 cb a ∈ trace callback_config ∨
              EvLate j 0 cb a ∈ trace callback_config →
      (state fu = Fulfilled ∧ a = ArgVal (result fu)) ∨
      (state fu = Rejected ∧ a = ArgErr (err fu)).
Proof.
  split; [exact callback_config_reachable|]. intros fu Hf.
  destruct (callbacks_follow_outcome callback_config callback_config_reachable
              0 fu Hf) as (H1 & _).
  exact H1.
Defined.

Lemma child_follows_parent_witness :
  reachable chain_config ∧
  ∀ du nx, futs chain_config !! 1 = Some du → task du = ThenTask 0 nx →
    ∀ v, v ∈ nexts 1 (trace chain_config) →
      sat (futs chain_config) 0
        (λ pu, done pu = true ∧ state pu = Fulfilled ∧ err pu = None ∧
               result pu = v).
Proof.
  split; [exact chain_config_reachable|]. intros du nx Hd Ht.
  destruct (child_follows_parent chain_config chain_config_reachable
              1 du 0 nx Hd Ht) as (_ & H2 & _).
  exact H2.
Defined.

Lemma State_numbers_follow_lifecycle_witness :
  reachable started_config ∧
  ∀ c' fu, rtc step started_config c' → futs started_config !! 0 = Some fu →
    ∃ fu', futs c' !! 0 = Some fu' ∧
      State_iota (state fu) ≤ State_iota (state fu').
Proof.
  split; [exact started_config_reachable|]. intros c' fu.
  destruct (State_numbers_follow_lifecycle started_config started_config_reachable)
    as (_ & _ & H3).
  exact (H3 c' 0 fu).
Defined.

Lemma State_reads_under_mutex_witness :
  reachable state_config ∧
  sat (futs state_config) 0
    (λ fu, State_iota Fulfilled ≤ State_iota (state fu) ∧
           (terminal Fulfilled = true → state fu = Fulfilled)).
Proof.
  split; [exact state_config_reachable|].
  destruct (State_reads_under_mutex state_config state_config_reachable)
    as (_ & _ & H3).
  apply (H3 2 0 Fulfilled). by vm_compute.
Defined.

Lemma GetNext_returns_linked_child_witness :
  reachable chain_config ∧
  ∀ fu n, futs chain_config !! 0 = Some fu → next fu = Some n →
    0 < n ∧ is_child (futs chain_config) 0 n.
Proof.
  split; [exact chain_config_reachable|]. intros fu n.
  destruct (GetNext_returns_linked_child chain_config chain_config_reachable)
    as (H1 & _).
  exact (H1 0 fu n).
Defined.

Lemma Start_launches_the_task_witness :
  reachable launch_config ∧
  ∃ c', run launch_config 0 6 = Some c' ∧
    c' = mkConfig
           (<[0 := set_state Running
                     (set_started true (NewFuture Nil (Prim (Int 7) None)))]>
              (futs launch_config))
           (<[0 := Done RetUnit]> (pool launch_config) ++ [GTask 0])
           (trace launch_config).
Proof.
  split; [exact launch_config_reachable|].
  assert (H1 : pool launch_config !! 0 = Some (StartLock 0 STop)) by (by vm_compute).
  assert (H2 : futs launch_config !! 0 = Some (NewFuture Nil (Prim (Int 7) None)))
    by (by vm_compute).
  pose proof (Start_launches_the_task launch_config launch_config_reachable
                0 0 (NewFuture Nil (Prim (Int 7) None)) H1 H2 eq_refl) as H.
  lazy beta iota delta [started NewFuture] in H.
  destruct H as (_ & _ & c' & Hrun & Hc & _).
  exists c'. split; [exact Hrun|exact Hc].
Defined.

Lemma calls_after_Result_witness :
  reachable chain_config ∧
  run chain_then_state 12 3 =
    Some (mkConfig (futs chain_then_state)
            (<[12 := Done (RetState 3 Fulfilled)]> (pool chain_then_state))
            (trace chain_then_state)).
Proof.
  split; [exact chain_config_reachable|].
  assert (Hs : rtc step chain_config chain_then_state).
  { apply rtc_once, (step_call _ _ (CallState 3)). by vm_compute. }
  destruct (calls_after_Result chain_config chain_config_reachable
              7 3 (Str "Start → Step 1 → Step 2 → Step 3") None)
    with (c' := chain_then_state)
         (fu' := mkFuture (ThenTask 2 (append_step " → Step 3")) None
                   (Str "Start → Step 1 → Step 2 → Step 3") None Fulfilled
                   true None [] [] true Nil)
    as (H1 & _).
  - by vm_compute.
  - exact Hs.
  - by vm_compute.
  - reflexivity.
  - apply (H1 12). by vm_compute.
Defined.

Lemma registered_callbacks_are_called_witness :
  reachable registered_config ∧
  (1, ArgVal (Int 7)) ∈ fires 0 (trace registered_done).
Proof.
  split; [exact registered_config_reachable|].
  assert (Hs : rtc step registered_config registered_done).
  { apply (play_rtc _ [Do (CallStart 0); Settle 40]). by vm_compute. }
  destruct (registered_callbacks_are_called registered_config
              registered_config_reachable 0
              (mkFuture (Prim (Int 7) None) None Nil None Pending false None
                 [1] [] false Nil)) as [H1 _].
  - by vm_compute.
  - destruct (H1 registered_done
                (mkFuture (Prim (Int 7) None) None (Int 7) None Fulfilled true
                   None [1] [] true Nil) Hs) as (_ & _ & H3).
    + by vm_compute.
    + destruct (H3 eq_refl) as (_ & HF & _).
      apply (HF eq_refl 1). by left.
Defined.

(** *** GetDone

    GetDone (lines 133-135) returns the channel of the future, without taking
    the mutex.  The channel is the [done] field of the store, so what the
    caller gets is the index of the future; nothing is ever sent on the
    channel, so a receive from it proceeds exactly when it is closed. *)
Definition GetDone (f : fid) : fid := f.

Definition receive (F : list Future) (ch : fid) : option unit :=
  fu ← F !! ch; if done fu then Some () else None.

(** A receive from the channel GetDone returns proceeds exactly when the
    receive of line 118 inside Result does.  It does not proceed on a future
    that is not started.  When it proceeds, the future is in its terminal
    state with the outcome [expected] for it, the channel has been closed
    exactly once, all the callbacks of the list have been called, and every
    later receive proceeds as well.  On a started future it does proceed once
    the goroutines have been left to run. *)
Theorem GetDone_signals_completion c :
  reachable c →
  ∀ f fu, futs c !! f = Some fu →
    (receive (futs c) (GetDone f) = Some () ↔ done fu = true) ∧
    (∀ i r, pool c !! i = Some (ResWait f r) →
       (is_Some (thread_step c i) ↔ receive (futs c) (GetDone f) = Some ())) ∧
    (started fu = false → receive (futs c) (GetDone f) = None) ∧
    (receive (futs c) (GetDone f) = Some () →
       terminal (state fu) = true ∧
       expected (futs c) f = Some (result fu, err fu) ∧
       nclose f (trace c) = 1 ∧
       fires f (trace c) = completions fu ∧
       ∀ c', rtc step c c' → receive (futs c') (GetDone f) = Some ()) ∧
    (started fu = true → ∀ n, measure c ≤ n →
       receive (futs (settle n c)) (GetDone f) = Some ()).
Proof.
  intros Hr f fu Hf. destruct (reachable_hist _ Hr) as [HI HH].
  assert (Hrecv : receive (futs c) (GetDone f) = Some () ↔ done fu = true).
  { unfold receive, GetDone. rewrite Hf. cbn. by destruct (done fu). }
  destruct (inv_fut _ HI _ _ Hf) as (_ & _ & Hdt & _).
  split_and!.
  - exact Hrecv.
  - intros i r Hi. rewrite Hrecv. unfold thread_step. rewrite Hi. cbn.
    rewrite Hf. cbn. destruct (done fu); cbn; split; try done.
    all: by intros [? ?].
  - intros Hs. unfold receive, GetDone. rewrite Hf. cbn.
    destruct (done fu) eqn:Hd; [|done]. destruct (Hdt eq_refl). congruence.
  - intros Hd%Hrecv. destruct (Hdt Hd) as [_ Ht].
    destruct (hist_fut _ HH _ _ Hf) as (_ & _ & Hnc & _ & Hfi & _).
    split_and!; try done.
    + by apply expected_correct.
    + by rewrite Hd in Hnc.
    + by apply Hfi.
    + intros c' Hs.
      destruct (steps_frozen _ _ _ _ Hr Hs Hf Ht) as (fu' & Hf' & _ & _ & _ & _ & Hd').
      unfold receive, GetDone. rewrite Hf'. cbn. by rewrite (Hd' Hd).
  - intros Hs n Hn.
    destruct (settle_completes n c Hr Hn) as (_ & _ & Hdone & _).
    destruct (Hdone _ _ Hf Hs) as (fu' & Hf' & Hd').
    unfold receive, GetDone. rewrite Hf'. cbn. by rewrite Hd'.
Qed.

Lemma GetDone_signals_completion_witness :
  reachable started_config ∧
  receive (futs started_config) (GetDone 0) = None ∧
  receive (futs (settle (measure started_config) started_config)) (GetDone 0) =
    Some ().
Proof.
  split; [exact started_config_reachable|]. split; [by vm_compute|].
  destruct (GetDone_signals_completion started_config started_config_reachable 0
              (mkFuture (Prim (Int 7) None) (Some 0) Nil None Pending false None
                 [] [] true Nil)) as (_ & _ & _ & _ & H5).
  - by vm_compute.
  - exact (H5 eq_refl _ (le_n _)).
Defined.
